(** * INTcoin mining pool: share difficulty, validation, VarDiff, payouts

    A shallow embedding of the accounting core of the pool server
    ([src/pool/pool.cpp], [src/pool/mining_pool_server.cpp],
    [src/pool/stratum_server.cpp], [include/intcoin/pool.h]) together with
    the properties the specification states about it.

    Conventions.
    - [uint64_t] and [size_t] values are integers in [Z]; every operation
      that can leave the range [0, 2^64) is written with [wrap64].
    - [uint256] is a 256-bit integer in [Z]; [data h i] is byte [i] of the
      underlying array, byte 31 being the most significant one (the order
      in which the source scans and compares hashes).
    - [double] is the primitive binary64 type of the standard library.
    - [std::chrono::system_clock::time_point] is a tick count in [Z].
    - The mutexes of the source are not modelled: every operation is
      taken as one atomic step on the pool state. *)

From Stdlib Require Import ZArith Lia Floats Uint63.
From stdpp Require Import base option list gmap strings pretty sorting.

Local Open Scope Z_scope.

#[local] Set Warnings "-inexact-float".

(** ** Machine integers *)

Definition UINT64_MAX : Z := 2 ^ 64 - 1.

Definition wrap64 (z : Z) : Z := z mod 2 ^ 64.

(** [static_cast<int64_t>] of a [uint64_t]. *)
Definition to_int64 (z : Z) : Z :=
  if z mod 2 ^ 64 <? 2 ^ 63 then z mod 2 ^ 64 else z mod 2 ^ 64 - 2 ^ 64.

(** ** 256-bit hashes *)

Definition uint256 : Type := Z.

(** [h.data()[i]], equally [h[i]]. *)
Definition data (h : uint256) (i : Z) : Z := Z.land (Z.shiftr h (8 * i)) 255.

Definition uint256_wf (h : uint256) : Prop := 0 <= h < 2 ^ 256.

(** The pool difficulty 1 target
    [0x00000000FFFF0000000000000000000000000000000000000000000000000000]. *)
Definition pool_diff1_target : Z := 65535 * 2 ^ 208.

(** ** Share difficulty ([CalculateShareDifficulty], pool.cpp) *)

(** The inner loop [for (int bit = 7; bit >= 0; bit--)]: [bits] is the
    list of bit positions still to visit. *)
Fixpoint count_bits (bits : list Z) (byte leading_zeros : Z) : Z :=
  match bits with
  | [] => leading_zeros
  | bit :: rest =>
      if Z.land byte (Z.shiftl 1 bit) =? 0
      then count_bits rest byte (leading_zeros + 1)
      else leading_zeros
  end.

(** The outer loop [for (size_t i = 0; i < 32; i++)]: [idx] is the list of
    values of [i] still to visit. *)
Fixpoint count_bytes (idx : list Z) (hash : uint256) (leading_zeros : Z) : Z :=
  match idx with
  | [] => leading_zeros
  | i :: rest =>
      let byte := data hash (31 - i) in
      if byte =? 0
      then count_bytes rest hash (leading_zeros + 8)
      else count_bits [7; 6; 5; 4; 3; 2; 1; 0] byte leading_zeros
  end.

Definition leading_zero_bits (hash : uint256) : Z :=
  count_bytes (seqZ 0 32) hash 0.

Definition CalculateShareDifficulty (hash : uint256) : Z :=
  let leading_zeros := leading_zero_bits hash in
  if leading_zeros <? 32 then 1
  else
    let difficulty := 65536 in
    let extra_zeros := leading_zeros - 32 in
    if (0 <? extra_zeros) && (48 <=? extra_zeros) then UINT64_MAX
    else
      let difficulty :=
        if 0 <? extra_zeros then wrap64 (Z.shiftl difficulty extra_zeros)
        else difficulty in
      Z.max difficulty 1.

(** The exact difficulty of the specification,
    [truncate_u64(pool_diff1_target / uint256(hash))]. *)
Definition exact_share_difficulty (hash : uint256) : Z :=
  wrap64 (pool_diff1_target / hash).

(** ** Doubles

    [static_cast<double>] of an unsigned 64-bit value rounds to nearest:
    the high half times [2^32] is exact, so the single addition below
    performs the one rounding of the conversion. *)

Module Double.

Definition of_u64 (n : Z) : float :=
  PrimFloat.add
    (PrimFloat.mul (PrimFloat.of_uint63 (Uint63.of_Z (n / 2 ^ 32))) 4294967296%float)
    (PrimFloat.of_uint63 (Uint63.of_Z (n mod 2 ^ 32))).

(** [static_cast<double>] of an [int64_t]. *)
Definition of_i64 (n : Z) : float :=
  if n <? 0 then PrimFloat.opp (of_u64 (- n)) else of_u64 n.

(** [static_cast<uint64_t>] of a [double]: the fractional part is
    discarded; the conversion is undefined ([None]) when the truncated
    value is not a [uint64_t] (negative, too large, infinite or NaN). *)
Definition to_u64 (x : float) : option Z :=
  match Prim2SF x with
  | S754_zero _ => Some 0
  | S754_finite s m e =>
      let t := if 0 <=? e then Z.pos m * 2 ^ e else Z.pos m / 2 ^ (- e) in
      if s then (if t =? 0 then Some 0 else None)
      else if t <? 2 ^ 64 then Some t else None
  | _ => None
  end.

End Double.

(** ** Time

    A [time_point] is a count of clock ticks and [duration_cast<seconds>]
    truncates toward zero; [system_clock] ticks are nanoseconds. *)

Definition time_point : Type := Z.

Definition ticks_per_second : Z := 1000000000.

Definition duration_cast_seconds (d : Z) : Z := Z.quot d ticks_per_second.

(** ** Records of pool.h *)

Record Share := mkShare {
  share_id : Z;
  share_miner_id : Z;
  share_worker_id : Z;
  job_id : uint256;
  nonce : uint256;
  share_hash : uint256;
  difficulty : Z;
  (** [None] while the field has not been written. *)
  is_block : option bool;
  timestamp : time_point;
  valid : bool;
  error_msg : string
}.

Record Work := mkWork {
  work_job_id : uint256;
  work_height : Z;
  work_difficulty : Z;
  created_at : time_point;
  clean_jobs : bool
}.

Record Payment := mkPayment {
  payment_id : Z;
  payment_miner_id : Z;
  payment_payout_address : string;
  amount : Z;
  payment_created_at : time_point;
  is_confirmed : bool;
  status : string
}.

Record Worker := mkWorker {
  worker_id : Z;
  worker_miner_id : Z;
  shares_submitted : Z;
  shares_accepted : Z;
  shares_rejected : Z;
  shares_stale : Z;
  blocks_found : Z;
  current_difficulty : Z;
  last_share_time : time_point;
  recent_shares : list time_point;
  last_activity : time_point;
  is_active : bool
}.

(** ** Variable difficulty ([VarDiffManager], pool.cpp) *)

Record VarDiffManager := mkVarDiff {
  target_share_time_ : float;
  retarget_time_ : float;
  variance_ : float
}.

Definition share_ratio (vd : VarDiffManager) (w : Worker) : float :=
  let total_duration :=
    duration_cast_seconds (List.last (recent_shares w) 0 - hd 0 (recent_shares w)) in
  let avg_time :=
    PrimFloat.div (Double.of_i64 total_duration)
                  (Double.of_u64 (wrap64 (Z.of_nat (length (recent_shares w)) - 1))) in
  PrimFloat.div avg_time (target_share_time_ vd).

Definition CalculateDifficulty (vd : VarDiffManager) (w : Worker) : option Z :=
  if Z.of_nat (length (recent_shares w)) <? 3 then Some (current_difficulty w)
  else
    let ratio := share_ratio vd w in
    new_diff ←
      (if PrimFloat.ltb ratio (PrimFloat.sub 1 (variance_ vd))
       then Double.to_u64 (PrimFloat.mul (Double.of_u64 (current_difficulty w)) 1.5)
       else if PrimFloat.ltb (PrimFloat.add 1 (variance_ vd)) ratio
       then Double.to_u64 (PrimFloat.mul (Double.of_u64 (current_difficulty w)) 0.75)
       else Some (current_difficulty w));
    Some (Z.max 1000 new_diff).

Definition ShouldAdjust (vd : VarDiffManager) (now : time_point) (w : Worker) : bool :=
  let duration := duration_cast_seconds (now - last_share_time w) in
  PrimFloat.leb (retarget_time_ vd) (Double.of_i64 duration)
  && (3 <=? Z.of_nat (length (recent_shares w))).

(** ** Share validation ([ShareValidator], pool.cpp) *)

Definition ValidateDifficulty (hash : uint256) (difficulty : Z) : bool :=
  let actual_difficulty := CalculateShareDifficulty hash in
  difficulty <=? actual_difficulty.

Definition ValidateWork (share : Share) (work : Work) : bool :=
  job_id share =? work_job_id work.

Definition IsValidBlock (hash : uint256) (network_difficulty : Z) : bool :=
  let actual_difficulty := CalculateShareDifficulty hash in
  network_difficulty <=? actual_difficulty.

Definition ValidateTimestamp (share : Share) (work : Work) : bool :=
  let diff := duration_cast_seconds (timestamp share - created_at work) in
  (0 <=? diff) && (diff <? 300).

Fixpoint IsDuplicateShare (share : Share) (recent : list Share) : bool :=
  match recent with
  | [] => false
  | s :: rest =>
      if (nonce s =? nonce share) && (job_id s =? job_id share) then true
      else IsDuplicateShare share rest
  end.

(** ** Payout calculation ([PayoutCalculator], pool.cpp) *)

(** The entries of a [std::map] in iteration order (ascending keys). *)
Definition key_le {A} (x y : Z * A) : Prop := x.1 <= y.1.

Global Instance key_le_dec {A} : RelDecision (@key_le A).
Proof. intros x y. unfold key_le. apply _. Defined.

Definition map_entries {A} (m : gmap Z A) : list (Z * A) :=
  merge_sort key_le (map_to_list m).

Definition CalculateFee (amount : Z) (fee_percent : float) : option Z :=
  Double.to_u64 (PrimFloat.div (PrimFloat.mul (Double.of_u64 amount) fee_percent) 100).

(** One iteration of the counting loop: [miner_shares[id]++; total++]. *)
Definition count_share (acc : gmap Z Z * Z) (s : Share) : gmap Z Z * Z :=
  if valid s
  then (<[share_miner_id s := wrap64 (default 0 (acc.1 !! share_miner_id s) + 1)]> acc.1,
        wrap64 (acc.2 + 1))
  else acc.

(** One iteration of the loop [payouts[miner_id] = (reward * count) / total]. *)
Definition assign_payout (reward total : Z) (payouts : gmap Z Z) (e : Z * Z) : gmap Z Z :=
  <[e.1 := wrap64 (reward * e.2) / total]> payouts.

Definition CalculatePPLNS (shares : list Share) (n_shares block_reward : Z)
    (pool_fee : float) : option (gmap Z Z) :=
  fee ← CalculateFee block_reward pool_fee;
  let reward := wrap64 (block_reward - fee) in
  let size := Z.of_nat (length shares) in
  let start := if n_shares <? size then size - n_shares else 0 in
  let '(miner_shares, total) := foldl count_share (∅, 0) (drop (Z.to_nat start) shares) in
  if total =? 0 then Some ∅
  else Some (foldl (assign_payout reward total) ∅ (map_entries miner_shares)).


(** The sum of the amounts of a payout map. *)
Definition payout_sum (payouts : gmap Z Z) : Z :=
  map_fold (λ _ v acc, v + acc) 0 payouts.

(** ** Pool state (pool.h, and [MiningPoolServer::Impl] of pool.cpp)

    Fields that hold only display data (names of workers, e-mail,
    hash-rate estimates, block headers and transactions) are left out. *)

Inductive Result (A : Type) : Type :=
  | Ok (a : A)
  | Error (msg : string).
Arguments Ok {A} a.
Arguments Error {A} msg.

Definition IsOk {A} (r : Result A) : bool :=
  match r with Ok _ => true | Error _ => false end.

Record Miner := mkMiner {
  miner_id : Z;
  username : string;
  payout_address : string;
  workers : gmap Z Worker;
  total_shares_submitted : Z;
  total_shares_accepted : Z;
  total_shares_rejected : Z;
  total_blocks_found : Z;
  unpaid_balance : Z;
  paid_balance : Z;
  estimated_earnings : Z;
  last_payout : time_point;
  invalid_share_count : Z;
  is_banned : bool;
  ban_expires : time_point;
  registered_at : time_point;
  last_seen : time_point
}.

Record PoolConfig := mkPoolConfig {
  min_difficulty : Z;
  initial_difficulty : Z;
  target_share_time : float;
  vardiff_retarget_time : float;
  vardiff_variance : float;
  pplns_window : Z;
  pool_fee_percent : float;
  min_payout : Z;
  payout_interval : Z;
  max_workers_per_miner : Z;
  max_miners : Z;
  ban_on_invalid_share : bool;
  max_invalid_shares : Z;
  (** [std::chrono::seconds] *)
  ban_duration : Z
}.

Record RoundStatistics := mkRound {
  round_id : Z;
  started_at : time_point;
  ended_at : time_point;
  round_shares_submitted : Z;
  block_height : Z;
  block_hash : uint256;
  block_reward : Z;
  miner_shares : gmap Z Z;
  is_complete : bool
}.

Record PoolStatistics := mkStats {
  shares_this_round : Z;
  total_shares : Z;
  stats_blocks_found : Z;
  blocks_pending : Z;
  last_block_found : time_point
}.

Record Pool := mkPool {
  config_ : PoolConfig;
  miners_ : gmap Z Miner;
  username_to_miner_id_ : gmap string Z;
  workers_ : gmap Z Worker;
  worker_to_miner_ : gmap Z Z;
  next_miner_id_ : Z;
  next_worker_id_ : Z;
  recent_shares_ : list Share;
  next_share_id_ : Z;
  current_round_ : RoundStatistics;
  round_history_ : list RoundStatistics;
  next_round_id_ : Z;
  payment_history_ : list Payment;
  next_payment_id_ : Z;
  current_work_ : option Work;
  vardiff_ : VarDiffManager;
  stats_ : PoolStatistics
}.

(** What one call reads from its surroundings: the clock, the chain node
    and the random source. *)
Record Env := mkEnv {
  now : time_point;
  (** [blockchain_->GetDifficulty()] *)
  network_difficulty : Z;
  (** [blockchain_->AddBlock(block)] *)
  add_block_result : Result unit;
  (** [blockchain_->GetBlockTemplate(pool_pubkey)], the template left out *)
  block_template_result : Result unit;
  (** [GenerateJobID()] *)
  random_job_id : uint256;
  (** [blockchain_->GetBestHeight()] *)
  best_height : Z;
  (** [block.GetHash()] of an assembled block *)
  assembled_block_hash : uint256
}.

(** *** Field updates *)

Definition set_share_valid (v : bool) (e : string) (s : Share) : Share :=
  mkShare (share_id s) (share_miner_id s) (share_worker_id s) (job_id s) (nonce s)
    (share_hash s) (difficulty s) (is_block s) (timestamp s) v e.

Definition set_is_block (b : bool) (s : Share) : Share :=
  mkShare (share_id s) (share_miner_id s) (share_worker_id s) (job_id s) (nonce s)
    (share_hash s) (difficulty s) (Some b) (timestamp s) (valid s) (error_msg s).

Definition worker_rejected (w : Worker) : Worker :=
  mkWorker (worker_id w) (worker_miner_id w) (shares_submitted w) (shares_accepted w)
    (wrap64 (shares_rejected w + 1)) (shares_stale w) (blocks_found w)
    (current_difficulty w) (last_share_time w) (recent_shares w) (last_activity w)
    (is_active w).

(** [shares_submitted++; shares_accepted++; recent_shares.push_back(t)] and
    the trimming of the ring to its last 100 entries. *)
Definition worker_accepted (t : time_point) (w : Worker) : Worker :=
  let ring := recent_shares w ++ [t] in
  let ring := if 100 <? Z.of_nat (length ring) then drop 1 ring else ring in
  mkWorker (worker_id w) (worker_miner_id w) (wrap64 (shares_submitted w + 1))
    (wrap64 (shares_accepted w + 1)) (shares_rejected w) (shares_stale w)
    (blocks_found w) (current_difficulty w) (last_share_time w) ring
    (last_activity w) (is_active w).

Definition set_current_difficulty (d : Z) (w : Worker) : Worker :=
  mkWorker (worker_id w) (worker_miner_id w) (shares_submitted w) (shares_accepted w)
    (shares_rejected w) (shares_stale w) (blocks_found w) d (last_share_time w)
    (recent_shares w) (last_activity w) (is_active w).

Definition worker_found_block (w : Worker) : Worker :=
  mkWorker (worker_id w) (worker_miner_id w) (shares_submitted w) (shares_accepted w)
    (shares_rejected w) (shares_stale w) (wrap64 (blocks_found w + 1))
    (current_difficulty w) (last_share_time w) (recent_shares w) (last_activity w)
    (is_active w).

Definition set_miner_workers (ws : gmap Z Worker) (m : Miner) : Miner :=
  mkMiner (miner_id m) (username m) (payout_address m) ws (total_shares_submitted m)
    (total_shares_accepted m) (total_shares_rejected m) (total_blocks_found m)
    (unpaid_balance m) (paid_balance m) (estimated_earnings m) (last_payout m)
    (invalid_share_count m) (is_banned m) (ban_expires m) (registered_at m) (last_seen m).

Definition set_payout_address (a : string) (m : Miner) : Miner :=
  mkMiner (miner_id m) (username m) a (workers m) (total_shares_submitted m)
    (total_shares_accepted m) (total_shares_rejected m) (total_blocks_found m)
    (unpaid_balance m) (paid_balance m) (estimated_earnings m) (last_payout m)
    (invalid_share_count m) (is_banned m) (ban_expires m) (registered_at m) (last_seen m).

(** [total_shares_rejected++; invalid_share_count++] *)
Definition miner_rejected (m : Miner) : Miner :=
  mkMiner (miner_id m) (username m) (payout_address m) (workers m)
    (total_shares_submitted m) (total_shares_accepted m)
    (wrap64 (total_shares_rejected m + 1)) (total_blocks_found m)
    (unpaid_balance m) (paid_balance m) (estimated_earnings m) (last_payout m)
    (wrap64 (invalid_share_count m + 1)) (is_banned m) (ban_expires m)
    (registered_at m) (last_seen m).

(** [total_shares_submitted++; total_shares_accepted++; last_seen = now;
    invalid_share_count = 0] *)
Definition miner_accepted (t : time_point) (m : Miner) : Miner :=
  mkMiner (miner_id m) (username m) (payout_address m) (workers m)
    (wrap64 (total_shares_submitted m + 1)) (wrap64 (total_shares_accepted m + 1))
    (total_shares_rejected m) (total_blocks_found m)
    (unpaid_balance m) (paid_balance m) (estimated_earnings m) (last_payout m)
    0 (is_banned m) (ban_expires m) (registered_at m) t.

Definition miner_found_block (m : Miner) : Miner :=
  mkMiner (miner_id m) (username m) (payout_address m) (workers m)
    (total_shares_submitted m) (total_shares_accepted m) (total_shares_rejected m)
    (wrap64 (total_blocks_found m + 1))
    (unpaid_balance m) (paid_balance m) (estimated_earnings m) (last_payout m)
    (invalid_share_count m) (is_banned m) (ban_expires m) (registered_at m) (last_seen m).

Definition set_ban (b : bool) (expires : time_point) (m : Miner) : Miner :=
  mkMiner (miner_id m) (username m) (payout_address m) (workers m)
    (total_shares_submitted m) (total_shares_accepted m) (total_shares_rejected m)
    (total_blocks_found m) (unpaid_balance m) (paid_balance m) (estimated_earnings m)
    (last_payout m) (invalid_share_count m) b expires (registered_at m) (last_seen m).

(** The balances and the time of the last payout. *)
Definition set_balances (unpaid paid : Z) (t : time_point) (m : Miner) : Miner :=
  mkMiner (miner_id m) (username m) (payout_address m) (workers m)
    (total_shares_submitted m) (total_shares_accepted m) (total_shares_rejected m)
    (total_blocks_found m) unpaid paid (estimated_earnings m) t
    (invalid_share_count m) (is_banned m) (ban_expires m) (registered_at m) (last_seen m).

Definition set_config (c : PoolConfig) (p : Pool) : Pool :=
  mkPool c (miners_ p) (username_to_miner_id_ p) (workers_ p) (worker_to_miner_ p)
    (next_miner_id_ p) (next_worker_id_ p) (recent_shares_ p) (next_share_id_ p)
    (current_round_ p) (round_history_ p) (next_round_id_ p) (payment_history_ p)
    (next_payment_id_ p) (current_work_ p) (vardiff_ p) (stats_ p).

Definition set_miners (ms : gmap Z Miner) (p : Pool) : Pool :=
  mkPool (config_ p) ms (username_to_miner_id_ p) (workers_ p) (worker_to_miner_ p)
    (next_miner_id_ p) (next_worker_id_ p) (recent_shares_ p) (next_share_id_ p)
    (current_round_ p) (round_history_ p) (next_round_id_ p) (payment_history_ p)
    (next_payment_id_ p) (current_work_ p) (vardiff_ p) (stats_ p).

Definition set_workers (ws : gmap Z Worker) (p : Pool) : Pool :=
  mkPool (config_ p) (miners_ p) (username_to_miner_id_ p) ws (worker_to_miner_ p)
    (next_miner_id_ p) (next_worker_id_ p) (recent_shares_ p) (next_share_id_ p)
    (current_round_ p) (round_history_ p) (next_round_id_ p) (payment_history_ p)
    (next_payment_id_ p) (current_work_ p) (vardiff_ p) (stats_ p).

Definition set_worker_to_miner (w2m : gmap Z Z) (p : Pool) : Pool :=
  mkPool (config_ p) (miners_ p) (username_to_miner_id_ p) (workers_ p) w2m
    (next_miner_id_ p) (next_worker_id_ p) (recent_shares_ p) (next_share_id_ p)
    (current_round_ p) (round_history_ p) (next_round_id_ p) (payment_history_ p)
    (next_payment_id_ p) (current_work_ p) (vardiff_ p) (stats_ p).

Definition set_usernames (u : gmap string Z) (next : Z) (p : Pool) : Pool :=
  mkPool (config_ p) (miners_ p) u (workers_ p) (worker_to_miner_ p)
    next (next_worker_id_ p) (recent_shares_ p) (next_share_id_ p)
    (current_round_ p) (round_history_ p) (next_round_id_ p) (payment_history_ p)
    (next_payment_id_ p) (current_work_ p) (vardiff_ p) (stats_ p).

Definition set_next_worker_id (next : Z) (p : Pool) : Pool :=
  mkPool (config_ p) (miners_ p) (username_to_miner_id_ p) (workers_ p)
    (worker_to_miner_ p) (next_miner_id_ p) next (recent_shares_ p) (next_share_id_ p)
    (current_round_ p) (round_history_ p) (next_round_id_ p) (payment_history_ p)
    (next_payment_id_ p) (current_work_ p) (vardiff_ p) (stats_ p).

Definition set_recent_shares (l : list Share) (p : Pool) : Pool :=
  mkPool (config_ p) (miners_ p) (username_to_miner_id_ p) (workers_ p)
    (worker_to_miner_ p) (next_miner_id_ p) (next_worker_id_ p) l (next_share_id_ p)
    (current_round_ p) (round_history_ p) (next_round_id_ p) (payment_history_ p)
    (next_payment_id_ p) (current_work_ p) (vardiff_ p) (stats_ p).

Definition set_next_share_id (next : Z) (p : Pool) : Pool :=
  mkPool (config_ p) (miners_ p) (username_to_miner_id_ p) (workers_ p)
    (worker_to_miner_ p) (next_miner_id_ p) (next_worker_id_ p) (recent_shares_ p) next
    (current_round_ p) (round_history_ p) (next_round_id_ p) (payment_history_ p)
    (next_payment_id_ p) (current_work_ p) (vardiff_ p) (stats_ p).

Definition set_rounds (cur : RoundStatistics) (hist : list RoundStatistics) (next : Z)
    (p : Pool) : Pool :=
  mkPool (config_ p) (miners_ p) (username_to_miner_id_ p) (workers_ p)
    (worker_to_miner_ p) (next_miner_id_ p) (next_worker_id_ p) (recent_shares_ p)
    (next_share_id_ p) cur hist next (payment_history_ p)
    (next_payment_id_ p) (current_work_ p) (vardiff_ p) (stats_ p).

Definition set_payments (hist : list Payment) (next : Z) (p : Pool) : Pool :=
  mkPool (config_ p) (miners_ p) (username_to_miner_id_ p) (workers_ p)
    (worker_to_miner_ p) (next_miner_id_ p) (next_worker_id_ p) (recent_shares_ p)
    (next_share_id_ p) (current_round_ p) (round_history_ p) (next_round_id_ p) hist
    next (current_work_ p) (vardiff_ p) (stats_ p).

Definition set_current_work (w : option Work) (p : Pool) : Pool :=
  mkPool (config_ p) (miners_ p) (username_to_miner_id_ p) (workers_ p)
    (worker_to_miner_ p) (next_miner_id_ p) (next_worker_id_ p) (recent_shares_ p)
    (next_share_id_ p) (current_round_ p) (round_history_ p) (next_round_id_ p)
    (payment_history_ p) (next_payment_id_ p) w (vardiff_ p) (stats_ p).

Definition set_stats (st : PoolStatistics) (p : Pool) : Pool :=
  mkPool (config_ p) (miners_ p) (username_to_miner_id_ p) (workers_ p)
    (worker_to_miner_ p) (next_miner_id_ p) (next_worker_id_ p) (recent_shares_ p)
    (next_share_id_ p) (current_round_ p) (round_history_ p) (next_round_id_ p)
    (payment_history_ p) (next_payment_id_ p) (current_work_ p) (vardiff_ p) st.

(** [it->second = f(it->second)] when the key is present. *)
Definition update_miner (id : Z) (f : Miner → Miner) (p : Pool) : Pool :=
  set_miners (alter f id (miners_ p)) p.

Definition update_worker (id : Z) (f : Worker → Worker) (p : Pool) : Pool :=
  set_workers (alter f id (workers_ p)) p.

(** ** The server of pool.cpp *)

(** The state the constructor builds. The members the constructor leaves
    unset are taken as zero. *)
Definition initial_pool (config : PoolConfig) (start : time_point) : Pool :=
  mkPool config ∅ ∅ ∅ ∅ 1 1 [] 1
    (mkRound 1 start 0 0 0 0 0 ∅ false) [] 2 [] 1 None
    (mkVarDiff (target_share_time config) (vardiff_retarget_time config)
               (vardiff_variance config))
    (mkStats 0 0 0 0 0).

Definition RegisterMiner (env : Env) (username payout_address : string) (p : Pool)
    : Pool * Result Z :=
  if decide (is_Some (username_to_miner_id_ p !! username))
  then (p, Error "Username already registered")
  else if max_miners (config_ p) <=? Z.of_nat (size (miners_ p))
  then (p, Error "Maximum miners limit reached")
  else
    let id := next_miner_id_ p in
    let miner :=
      mkMiner id username payout_address ∅ 0 0 0 0 0 0 0 0 0 false 0 (now env) (now env) in
    let p := set_usernames (<[username := id]> (username_to_miner_id_ p))
                           (wrap64 (id + 1)) p in
    (set_miners (<[id := miner]> (miners_ p)) p, Ok id).

Definition UpdatePayoutAddress (miner_id : Z) (new_address : string) (p : Pool)
    : Pool * Result unit :=
  match miners_ p !! miner_id with
  | None => (p, Error "Miner not found")
  | Some _ => (update_miner miner_id (set_payout_address new_address) p, Ok tt)
  end.

Definition AddWorker (env : Env) (miner_id : Z) (p : Pool) : Pool * Result Z :=
  match miners_ p !! miner_id with
  | None => (p, Error "Miner not found")
  | Some miner =>
      if max_workers_per_miner (config_ p) <=? Z.of_nat (size (workers miner))
      then (p, Error "Maximum workers per miner limit reached")
      else
        let id := next_worker_id_ p in
        let worker :=
          mkWorker id miner_id 0 0 0 0 0 (initial_difficulty (config_ p)) 0 []
                   (now env) true in
        let p := set_next_worker_id (wrap64 (id + 1)) p in
        let p := set_workers (<[id := worker]> (workers_ p)) p in
        let p := set_worker_to_miner (<[id := miner_id]> (worker_to_miner_ p)) p in
        let p := update_miner miner_id
                   (λ m, set_miner_workers (<[id := worker]> (workers m)) m) p in
        (p, Ok id)
  end.

Definition RemoveWorker (worker_id : Z) (p : Pool) : Pool :=
  match workers_ p !! worker_id with
  | None => p
  | Some _ =>
      let miner_id := default 0 (worker_to_miner_ p !! worker_id) in
      let p := update_miner miner_id
                 (λ m, set_miner_workers (delete worker_id (workers m)) m) p in
      let p := set_workers (delete worker_id (workers_ p)) p in
      set_worker_to_miner (delete worker_id (worker_to_miner_ p)) p
  end.

Definition UpdateConfig (config : PoolConfig) (p : Pool) : Pool := set_config config p.

Definition BanMiner (env : Env) (miner_id duration : Z) (p : Pool) : Pool :=
  update_miner miner_id (set_ban true (now env + duration * ticks_per_second)) p.

Definition UnbanMiner (miner_id : Z) (p : Pool) : Pool :=
  update_miner miner_id (λ m, set_ban false (ban_expires m) m) p.

Definition CheckInvalidShares (env : Env) (miner_id : Z) (p : Pool) : Pool :=
  if negb (ban_on_invalid_share (config_ p)) then p
  else
    match miners_ p !! miner_id with
    | None => p
    | Some m =>
        if max_invalid_shares (config_ p) <=? invalid_share_count m
        then BanMiner env miner_id (ban_duration (config_ p)) p
        else p
    end.

Definition ValidateShare (p : Pool) (share : Share) : Result bool :=
  match current_work_ p with
  | None => Error "No current work available"
  | Some work =>
      if negb (ValidateDifficulty (share_hash share) (difficulty share))
      then Error "Share does not meet difficulty requirement"
      else if negb (ValidateWork share work)
      then Error "Share is for stale work"
      else if negb (ValidateTimestamp share work)
      then Error "Share timestamp invalid"
      else if IsDuplicateShare share (recent_shares_ p)
      then Error "Duplicate share"
      else Ok true
  end.

(** [None]: the conversion of the new difficulty to [uint64_t] is
    undefined. *)
Definition AdjustWorkerDifficulty (worker_id : Z) (p : Pool) : option Pool :=
  match workers_ p !! worker_id with
  | None => Some p
  | Some w =>
      let old_diff := current_difficulty w in
      new_diff ← CalculateDifficulty (vardiff_ p) w;
      if new_diff =? old_diff then Some p
      else Some (update_worker worker_id (set_current_difficulty new_diff) p)
  end.

Definition round_add_share (miner_id : Z) (r : RoundStatistics) : RoundStatistics :=
  mkRound (round_id r) (started_at r) (ended_at r)
    (wrap64 (round_shares_submitted r + 1)) (block_height r) (block_hash r)
    (block_reward r)
    (<[miner_id := wrap64 (default 0 (miner_shares r !! miner_id) + 1)]> (miner_shares r))
    (is_complete r).

Definition ProcessValidShare (env : Env) (share : Share) (p : Pool) : option Pool :=
  p ← match workers_ p !! share_worker_id share with
      | None => Some p
      | Some w =>
          let w := worker_accepted (timestamp share) w in
          let p := set_workers (<[share_worker_id share := w]> (workers_ p)) p in
          if ShouldAdjust (vardiff_ p) (now env) w
          then AdjustWorkerDifficulty (share_worker_id share) p
          else Some p
      end;
  let p := update_miner (share_miner_id share) (miner_accepted (now env)) p in
  let p := set_rounds (round_add_share (share_miner_id share) (current_round_ p))
                      (round_history_ p) (next_round_id_ p) p in
  let st := stats_ p in
  Some (set_stats (mkStats (wrap64 (shares_this_round st + 1))
                           (wrap64 (total_shares st + 1)) (stats_blocks_found st)
                           (blocks_pending st) (last_block_found st)) p).

Definition CreateWork (env : Env) (clean : bool) (p : Pool) : Pool * Result Work :=
  match block_template_result env with
  | Error e => (p, Error ("Failed to get block template: " ++ e))
  | Ok _ =>
      let work := mkWork (random_job_id env) (wrap64 (best_height env + 1))
                         (network_difficulty env) (now env) clean in
      (set_current_work (Some work) p, Ok work)
  end.

(** [BroadcastWork] only writes to the sockets. *)
Definition UpdateWork (env : Env) (p : Pool) : Pool * Result unit :=
  match CreateWork env true p with
  | (p, Error e) => (p, Error ("Failed to create new work: " ++ e))
  | (p, Ok _) => (p, Ok tt)
  end.

Definition ProcessBlockFound (env : Env) (share : Share) (p : Pool)
    : Pool * Result unit :=
  match current_work_ p with
  | None => (p, Error "No current work available")
  | Some work =>
      match add_block_result env with
      | Error e => (p, Error ("Failed to submit block: " ++ e))
      | Ok _ =>
          let p := update_worker (share_worker_id share) worker_found_block p in
          let p := update_miner (share_miner_id share) miner_found_block p in
          let st := stats_ p in
          let p := set_stats (mkStats (shares_this_round st) (total_shares st)
                                (wrap64 (stats_blocks_found st + 1))
                                (wrap64 (blocks_pending st + 1)) (now env)) p in
          let r := current_round_ p in
          let closed := mkRound (round_id r) (started_at r) (now env)
                          (round_shares_submitted r) (work_height work)
                          (assembled_block_hash env) (50 * 100000000)
                          (miner_shares r) true in
          let fresh := mkRound (next_round_id_ p) (now env) 0 0 0 0 0 ∅ false in
          let p := set_rounds fresh (round_history_ p ++ [closed])
                              (wrap64 (next_round_id_ p + 1)) p in
          ((UpdateWork env p).1, Ok tt)
      end
  end.

(** [recent_shares_.push_back(share)] and the trimming of the vector. *)
Definition store_share (share : Share) (p : Pool) : Pool :=
  let l := recent_shares_ p ++ [share] in
  set_recent_shares (if 10000 <? Z.of_nat (length l) then drop 1000 l else l) p.

(** The [Share] record [SubmitShare] fills in before validation. *)
Definition new_share (env : Env) (p : Pool) (worker : Worker)
    (miner_id worker_id : Z) (job_id nonce share_hash : uint256) : Share :=
  mkShare (next_share_id_ p) miner_id worker_id job_id nonce share_hash
          (current_difficulty worker) None (now env) false "".

Definition SubmitShare (env : Env) (worker_id : Z) (job_id nonce share_hash : uint256)
    (p : Pool) : option (Pool * Result unit) :=
  match workers_ p !! worker_id with
  | None => Some (p, Error "Worker not found")
  | Some worker =>
      let miner_id := default 0 (worker_to_miner_ p !! worker_id) in
      let p := set_worker_to_miner (<[worker_id := miner_id]> (worker_to_miner_ p)) p in
      match miners_ p !! miner_id with
      | None => Some (p, Error "Miner not found")
      | Some _ =>
          let share := new_share env p worker miner_id worker_id job_id nonce share_hash in
          let p := set_next_share_id (wrap64 (next_share_id_ p + 1)) p in
          match ValidateShare p share with
          | Error e =>
              let p := update_worker worker_id worker_rejected p in
              let p := update_miner miner_id miner_rejected p in
              let p := CheckInvalidShares env miner_id p in
              Some (p, Error ("Share rejected: " ++ e))
          | Ok v =>
              let share := set_share_valid v "" share in
              if v then
                p ← ProcessValidShare env share p;
                if IsValidBlock share_hash (network_difficulty env) then
                  let share := set_is_block true share in
                  match ProcessBlockFound env share p with
                  | (p, Error e) =>
                      Some (p, Error ("Share accepted but block processing failed: " ++ e))
                  | (p, Ok _) => Some (store_share share p, Ok tt)
                  end
                else Some (store_share share p, Ok tt)
              else Some (store_share share p, Ok tt)
          end
      end
  end.

(** One iteration of the sweep of [ProcessPayouts] over [miners_]: [miner]
    is the map element the loop variable refers to, written back once the
    iteration has changed it; the second component is the local vector
    [new_payments]. *)
Definition payout_step (env : Env) (acc : Pool * list Payment) (e : Z * Miner)
    : Pool * list Payment :=
  let '(p, new_payments) := acc in
  let '(id, miner) := e in
  if unpaid_balance miner <? min_payout (config_ p) then acc
  else
    let time_since_last := duration_cast_seconds (now env - last_payout miner) in
    if time_since_last <? to_int64 (payout_interval (config_ p)) then acc
    else
      let payment := mkPayment (next_payment_id_ p) id (payout_address miner)
                               (unpaid_balance miner) (now env) false "pending" in
      let p := set_payments (payment_history_ p ++ [payment])
                            (wrap64 (next_payment_id_ p + 1)) p in
      let miner := set_balances 0 (paid_balance miner) (now env) miner in
      (set_miners (<[id := miner]> (miners_ p)) p, new_payments ++ [payment]).

Definition ProcessPayouts (env : Env) (p : Pool) : Pool * list Payment :=
  foldl (payout_step env) (p, []) (map_entries (miners_ p)).

(** ** The server of mining_pool_server.cpp

    The second implementation of the same class; its payout sweep differs
    from the one of pool.cpp in one assignment. *)

Module AltServer.

Definition payout_step (env : Env) (acc : Pool * list Payment) (e : Z * Miner)
    : Pool * list Payment :=
  let '(p, new_payments) := acc in
  let '(id, miner) := e in
  if unpaid_balance miner <? min_payout (config_ p) then acc
  else
    let time_since_last := duration_cast_seconds (now env - last_payout miner) in
    if time_since_last <? to_int64 (payout_interval (config_ p)) then acc
    else
      let payment := mkPayment (next_payment_id_ p) id (payout_address miner)
                               (unpaid_balance miner) (now env) false "pending" in
      let p := set_payments (payment_history_ p ++ [payment])
                            (wrap64 (next_payment_id_ p + 1)) p in
      let miner :=
        set_balances 0 (wrap64 (paid_balance miner + unpaid_balance miner))
                     (now env) miner in
      (set_miners (<[id := miner]> (miners_ p)) p, new_payments ++ [payment]).

Definition ProcessPayouts (env : Env) (p : Pool) : Pool * list Payment :=
  foldl (payout_step env) (p, []) (map_entries (miners_ p)).

End AltServer.

(** ** Replies of the Stratum server (stratum_server.cpp) *)

Module Stratum.








End Stratum.

(** ** Runs of the server of pool.cpp *)

Inductive Call :=
  | CallRegisterMiner (username payout_address : string)
  | CallUpdatePayoutAddress (miner_id : Z) (new_address : string)
  | CallAddWorker (miner_id : Z)
  | CallRemoveWorker (worker_id : Z)
  | CallSubmitShare (worker_id : Z) (job_id nonce share_hash : uint256)
  | CallCreateWork (clean : bool)
  | CallProcessPayouts
  | CallBanMiner (miner_id duration : Z)
  | CallUnbanMiner (miner_id : Z)
  | CallUpdateConfig (config : PoolConfig).

(** The state after a call; [None] when the call runs into the undefined
    conversion of [CalculateDifficulty]. *)
Definition exec (p : Pool) (c : Env * Call) : option Pool :=
  let '(env, call) := c in
  match call with
  | CallRegisterMiner u a => Some (RegisterMiner env u a p).1
  | CallUpdatePayoutAddress m a => Some (UpdatePayoutAddress m a p).1
  | CallAddWorker m => Some (AddWorker env m p).1
  | CallRemoveWorker w => Some (RemoveWorker w p)
  | CallSubmitShare w j n h => fst <$> SubmitShare env w j n h p
  | CallCreateWork clean => Some (CreateWork env clean p).1
  | CallProcessPayouts => Some (ProcessPayouts env p).1
  | CallBanMiner m d => Some (BanMiner env m d p)
  | CallUnbanMiner m => Some (UnbanMiner m p)
  | CallUpdateConfig c => Some (UpdateConfig c p)
  end.

Fixpoint run (p : Pool) (calls : list (Env * Call)) : option Pool :=
  match calls with
  | [] => Some p
  | c :: rest => p ← exec p c; run p rest
  end.

(** The miner a [SubmitShare] call is counted for and the share it
    validates; [None] when the call fails before validation (unknown
    worker or miner). *)
Definition submission (env : Env) (worker_id : Z) (job_id nonce share_hash : uint256)
    (p : Pool) : option (Z * Share) :=
  worker ← workers_ p !! worker_id;
  let miner_id := default 0 (worker_to_miner_ p !! worker_id) in
  _ ← miners_ p !! miner_id;
  Some (miner_id, new_share env p worker miner_id worker_id job_id nonce share_hash).

(** The submitting miner of a call and whether its share passes
    validation; [None] for the calls that validate no share. *)
Definition submit_verdict (p : Pool) (c : Env * Call) : option (Z * bool) :=
  let '(env, call) := c in
  match call with
  | CallSubmitShare worker_id job_id nonce share_hash =>
      '(miner_id, share) ← submission env worker_id job_id nonce share_hash p;
      Some (miner_id, IsOk (ValidateShare p share))
  | _ => None
  end.

(** The verdict a call adds to the record of miner [m]. *)
Definition verdict_here (m : Z) (p : Pool) (c : Env * Call) : list bool :=
  match submit_verdict p c with
  | Some (m', ok) => if decide (m' = m) then [ok] else []
  | None => []
  end.

(** The verdicts of the submissions of miner [m] along a run, oldest
    first: [true] for an accepted share, [false] for a rejected one. *)
Fixpoint verdicts (m : Z) (p : Pool) (calls : list (Env * Call)) : list bool :=
  match calls with
  | [] => []
  | c :: rest =>
      verdict_here m p c
      ++ match exec p c with
         | Some p' => verdicts m p' rest
         | None => []
         end
  end.






(** The last [c] verdicts of a record are rejections. *)
Definition ends_with_rejections (c : Z) (vs : list bool) : Prop :=
  take (Z.to_nat c) (reverse vs) = replicate (Z.to_nat c) false.


(** The shape the two sweeps share; [new_paid] is the value the iteration
    leaves in [paid_balance]. *)
Definition sweep_step_with (new_paid : Miner → Z) (env : Env)
    (acc : Pool * list Payment) (e : Z * Miner) : Pool * list Payment :=
  let '(p, new_payments) := acc in
  let '(id, miner) := e in
  if unpaid_balance miner <? min_payout (config_ p) then acc
  else
    let time_since_last := duration_cast_seconds (now env - last_payout miner) in
    if time_since_last <? to_int64 (payout_interval (config_ p)) then acc
    else
      let payment := mkPayment (next_payment_id_ p) id (payout_address miner)
                               (unpaid_balance miner) (now env) false "pending" in
      let p := set_payments (payment_history_ p ++ [payment])
                            (wrap64 (next_payment_id_ p + 1)) p in
      let miner := set_balances 0 (new_paid miner) (now env) miner in
      (set_miners (<[id := miner]> (miners_ p)) p, new_payments ++ [payment]).

(** ** Counting functions used to state the payout properties *)

(** Valid shares of miner [m] in a window, and valid shares in a window. *)
Definition miner_count (m : Z) (window : list Share) : Z :=
  Z.of_nat (length (filter (λ s, valid s ∧ share_miner_id s = m) window)).


(** The last [n] shares of a list. *)
Definition last_shares (n : Z) (shares : list Share) : list Share :=
  drop (Z.to_nat (Z.of_nat (length shares) - n)) shares.

(** ** The properties of the specification, as it words them *)


(** The sum of the amounts of the confirmed payments of miner [m]. *)
Definition confirmed_total (m : Z) (history : list Payment) : Z :=
  foldr (λ pay acc,
           if bool_decide (payment_miner_id pay = m ∧ status pay = "confirmed")
           then amount pay + acc else acc) 0 history.

Definition paid_balance_invariant (p : Pool) : Prop :=
  ∀ m miner, miners_ p !! m = Some miner →
             paid_balance miner = confirmed_total m (payment_history_ p).



(** ** Concrete inputs *)

Definition test_share (m : Z) : Share :=
  mkShare 0 m 0 0 0 0 0 None 0 true "".

(** 300, 200 and 500 valid shares of the miners 1, 2 and 3. *)
Definition literal_shares : list Share :=
  replicate 300 (test_share 1) ++ replicate 200 (test_share 2)
  ++ replicate 500 (test_share 3).

(** Initial difficulty 1000, share target 15 s with variance 0.3, fee 1%,
    payouts from 1000 units every 3600 s, ban after 3 invalid shares. *)
Definition demo_config : PoolConfig :=
  mkPoolConfig 1000 1000 15 60 0.3 1000 1 1000 3600 10 100 true 3 600.

(** The surroundings [seconds] after the start, with network difficulty
    [net_diff]; the chain node accepts blocks and serves templates, and
    job ids are always 7. *)
Definition demo_env (seconds net_diff : Z) : Env :=
  mkEnv (seconds * ticks_per_second) net_diff (Ok tt) (Ok tt) 7 0 99.

(** One miner with one worker and a current job. *)
Definition demo_setup : list (Env * Call) :=
  [ (demo_env 0 (2 ^ 62), CallRegisterMiner "alice" "addr1");
    (demo_env 0 (2 ^ 62), CallAddWorker 1);
    (demo_env 0 (2 ^ 62), CallCreateWork false) ].

(** A worker at difficulty [d] whose recent shares came at the given
    times (in seconds). *)
Definition demo_worker (d : Z) (seconds : list Z) : Worker :=
  mkWorker 1 1 0 0 0 0 0 d 0 ((λ t, t * ticks_per_second) <$> seconds) 0 true.


(** A miner with an unpaid balance of 5000 that was never paid. *)
Definition demo_payout_pool : Pool :=
  set_miners {[ 1 := mkMiner 1 "alice" "addr1" ∅ 0 0 0 0 5000 0 0 0 0 false 0 0 0 ]}
             (initial_pool demo_config 0).

(** The state after one accepted share (job 7, nonce 42) of the worker. *)
Definition demo_one_share : list (Env * Call) :=
  demo_setup ++ [(demo_env 10 (2 ^ 62), CallSubmitShare 1 7 42 (2 ^ 200))].

Definition demo_pool_one_share : Pool :=
  default (initial_pool demo_config 0) (run (initial_pool demo_config 0) demo_one_share).

(** The same job and nonce again, with a hash of difficulty 1 only. *)
Definition dup_low_share : Share :=
  mkShare 2 1 1 7 42 (2 ^ 255) 1000 None (20 * ticks_per_second) false "".

(** The same job and nonce, sent by another worker of another miner. *)
Definition other_session_share : Share :=
  mkShare 2 2 2 7 42 (2 ^ 200) 1000 None (20 * ticks_per_second) false "".


Definition demo_pool_ready : Pool :=
  default (initial_pool demo_config 0) (run (initial_pool demo_config 0) demo_setup).






(** The payment the sweep creates for that miner 10000 s after the start. *)
Definition demo_payment : Payment :=
  mkPayment 1 1 "addr1" 5000 (10000 * ticks_per_second) false "pending".

(** ** Checks by evaluation over a range *)


(** [f] holds for the [n] integers from [d] on. *)
Fixpoint all_from (n : nat) (d : Z) (f : Z → bool) : bool :=
  match n with
  | O => true
  | S k => f d && all_from k (d + 1) f
  end.

(** The count of the inner loop against the position of the highest set
    bit of a byte. *)
Definition byte_zeros_ok (byte : Z) : bool :=
  let c := count_bits [7; 6; 5; 4; 3; 2; 1; 0] byte 0 in
  (0 <=? c) && (c <=? 7) && (2 ^ (7 - c) <=? byte) && (byte <? 2 ^ (8 - c)).

(** ** Predicates used in the proofs *)

(** The payment history and the paid balances are the same in both states. *)
Definition same_ledger (p p' : Pool) : Prop :=
  payment_history_ p' = payment_history_ p ∧
  ∀ m, paid_balance <$> miners_ p' !! m = paid_balance <$> miners_ p !! m.

(** Every payment is pending and every paid balance is zero. *)
Definition nothing_paid (p : Pool) : Prop :=
  (∀ m miner, miners_ p !! m = Some miner → paid_balance miner = 0) ∧
  Forall (λ pay, status pay = "pending") (payment_history_ p).




(** * Further parts of the pool

    Functions of the source files that the properties above do not reach,
    with the same conventions. *)

(** ** Pay per share ([PayoutCalculator::CalculatePPS], pool.cpp) *)

(** One iteration of the loop: [payouts[share.miner_id] += reward_per_share]. *)
Definition pps_share (reward_per_share : Z) (payouts : gmap Z Z) (s : Share) : gmap Z Z :=
  if valid s
  then <[share_miner_id s :=
           wrap64 (default 0 (payouts !! share_miner_id s) + reward_per_share)]> payouts
  else payouts.

(** [None]: the conversion of the fee is undefined, or the division is by
    zero. *)
Definition CalculatePPS (shares : list Share) (expected_shares_per_block block_reward : Z)
    (pool_fee : float) : option (gmap Z Z) :=
  fee ← CalculateFee block_reward pool_fee;
  if expected_shares_per_block =? 0 then None
  else
    let reward_per_share := wrap64 (block_reward - fee) / expected_shares_per_block in
    Some (foldl (pps_share reward_per_share) ∅ shares).

(** ** Hash rate estimates ([HashrateCalculator], pool.cpp) *)

Definition CalculateExpectedShares (network_diff share_difficulty : Z) : Z :=
  if share_difficulty =? 0 then 0 else network_diff / share_difficulty.

(** ** The server of pool.cpp: queries and maintenance *)

Definition GetMiner (id : Z) (p : Pool) : option Miner := miners_ p !! id.

Definition GetWorker (id : Z) (p : Pool) : option Worker := workers_ p !! id.

Definition GetRecentShares (count : Z) (p : Pool) : list Share :=
  let l := recent_shares_ p in
  if Z.of_nat (length l) <=? count then l
  else drop (Z.to_nat (Z.of_nat (length l) - count)) l.

(** The loop of [GetMinerShares] over the stored shares, newest first:
    [acc] is the vector [miner_shares]. *)
Fixpoint miner_shares_loop (id count : Z) (newest_first acc : list Share) : list Share :=
  match newest_first with
  | [] => acc
  | s :: rest =>
      if Z.of_nat (length acc) <? count
      then miner_shares_loop id count rest
             (if share_miner_id s =? id then acc ++ [s] else acc)
      else acc
  end.

Definition GetMinerShares (id count : Z) (p : Pool) : list Share :=
  reverse (miner_shares_loop id count (reverse (recent_shares_ p)) []).

(** One iteration of the loop of [AdjustAllDifficulties] over [workers_];
    [None] when the conversion of the new difficulty is undefined. *)
Definition adjust_step (vd : VarDiffManager) (t : time_point)
    (acc : option (gmap Z Worker)) (e : Z * Worker) : option (gmap Z Worker) :=
  ws ← acc;
  if ShouldAdjust vd t e.2 then
    new_diff ← CalculateDifficulty vd e.2;
    if new_diff =? current_difficulty e.2 then Some ws
    else Some (<[e.1 := set_current_difficulty new_diff e.2]> ws)
  else Some ws.

Definition AdjustAllDifficulties (env : Env) (p : Pool) : option Pool :=
  ws ← foldl (adjust_step (vardiff_ p) (now env)) (Some (workers_ p))
             (map_entries (workers_ p));
  Some (set_workers ws p).

Definition CalculatePPLNSPayouts (reward : Z) (p : Pool) : option (gmap Z Z) :=
  CalculatePPLNS (recent_shares_ p) (pplns_window (config_ p)) reward
                 (pool_fee_percent (config_ p)).

Definition CalculatePPSPayouts (env : Env) (p : Pool) : option (gmap Z Z) :=
  let network_diff := network_difficulty env in
  let share_diff := initial_difficulty (config_ p) in
  let expected_shares := CalculateExpectedShares network_diff share_diff in
  let reward := 50 * 100000000 in
  CalculatePPS (recent_shares_ p) expected_shares reward (pool_fee_percent (config_ p)).

Definition GetMinerBalance (id : Z) (p : Pool) : Z :=
  match GetMiner id p with None => 0 | Some m => unpaid_balance m end.

Definition GetMinerEstimatedEarnings (id : Z) (p : Pool) : Z :=
  match GetMiner id p with None => 0 | Some m => estimated_earnings m end.

Definition GetPaymentHistory (limit : Z) (p : Pool) : list Payment :=
  let h := payment_history_ p in
  let count := Z.min limit (Z.of_nat (length h)) in
  if 0 <? count
  then reverse (drop (Z.to_nat (Z.of_nat (length h) - count)) h)
  else [].

(** The loop of [GetMinerPaymentHistory] over the payments, newest first. *)
Fixpoint miner_payments_loop (id limit : Z) (newest_first acc : list Payment)
    : list Payment :=
  match newest_first with
  | [] => acc
  | pay :: rest =>
      if Z.of_nat (length acc) <? limit
      then miner_payments_loop id limit rest
             (if payment_miner_id pay =? id then acc ++ [pay] else acc)
      else acc
  end.

Definition GetMinerPaymentHistory (id limit : Z) (p : Pool) : list Payment :=
  miner_payments_loop id limit (reverse (payment_history_ p)) [].

Definition GetRoundHistory (count : Z) (p : Pool) : list RoundStatistics :=
  let l := round_history_ p in
  if Z.of_nat (length l) <=? count then l
  else drop (Z.to_nat (Z.of_nat (length l) - count)) l.


(** [MiningPoolServer::HandleAuthorize] of pool.cpp. The name of the
    worker is display data and is left out. *)
Definition split_username (name : string) : string * string :=
  match String.index 0 "." name with
  | Some dot_pos =>
      (String.substring 0 dot_pos name,
       String.substring (S dot_pos) (String.length name - S dot_pos) name)
  | None => (name, "default")
  end.

Definition HandleAuthorize (env : Env) (name password : string) (p : Pool)
    : Pool * Result bool :=
  let wallet_address := (split_username name).1 in
  if bool_decide (wallet_address = "") || (Z.of_nat (String.length wallet_address) <? 20)
  then (p, Error "Invalid wallet address")
  else
    let '(id, p) :=
      match username_to_miner_id_ p !! wallet_address with
      | Some id => (id, p)
      | None =>
          let id := next_miner_id_ p in
          (id, set_usernames (<[wallet_address := id]> (username_to_miner_id_ p))
                             (wrap64 (id + 1)) p)
      end in
    let wid := next_worker_id_ p in
    let worker :=
      mkWorker wid id 0 0 0 0 0 (initial_difficulty (config_ p)) 0 [] (now env) true in
    let p := set_next_worker_id (wrap64 (wid + 1)) p in
    let p := set_workers (<[wid := worker]> (workers_ p)) p in
    let p := set_worker_to_miner (<[wid := id]> (worker_to_miner_ p)) p in
    (p, Ok true).

(** Whether the sweep pays a miner: both conditions of the loop body of
    [ProcessPayouts] let the iteration through. *)
Definition payout_due (env : Env) (config : PoolConfig) (miner : Miner) : bool :=
  (min_payout config <=? unpaid_balance miner)
  && (to_int64 (payout_interval config)
      <=? duration_cast_seconds (now env - last_payout miner)).

(** The payments of a list that go to miner [id]. *)
Definition payments_to (id : Z) (pays : list Payment) : list Payment :=
  filter (λ pay, payment_miner_id pay = id) pays.

(** What the index of user names and the registered miners have to do
    with each other. *)
Definition usernames_ok (p : Pool) : Prop :=
  0 <= next_miner_id_ p ∧
  (∀ id m, miners_ p !! id = Some m →
     miner_id m = id ∧ id < next_miner_id_ p ∧
     username_to_miner_id_ p !! username m = Some id) ∧
  (∀ name id, username_to_miner_id_ p !! name = Some id →
     ∃ m, miners_ p !! id = Some m ∧ username m = name).

(** ** The payout calculation of mining_pool_server.cpp

    [MiningPoolServer::CalculatePPLNSPayouts] of the second implementation
    computes the shares of the reward itself and credits them to the
    miners. Of the state it reads the configuration, the stored shares and
    the miners; the two counters it adds to are kept beside the pool. *)

Module AltPayouts.

Record Totals := mkTotals {
  total_paid_ : Z;
  pool_revenue_ : Z
}.

(** [it->second.unpaid_balance += amount] *)
Definition credit (amount : Z) (m : Miner) : Miner :=
  set_balances (wrap64 (unpaid_balance m + amount)) (paid_balance m) (last_payout m) m.

(** One iteration of the loop over [miner_share_count]. *)
Definition credit_payout (total_payout window_share_count : Z)
    (acc : Pool * gmap Z Z) (e : Z * Z) : Pool * gmap Z Z :=
  let miner_payout := wrap64 (total_payout * e.2) / window_share_count in
  (update_miner e.1 (credit miner_payout) acc.1, <[e.1 := miner_payout]> acc.2).

(** [None]: the conversion of the fee is undefined. *)
Definition CalculatePPLNSPayouts (block_reward : Z) (st : Pool * Totals)
    : option (Pool * Totals * gmap Z Z) :=
  let '(p, t) := st in
  fee ← CalculateFee block_reward (pool_fee_percent (config_ p));
  let total_payout := wrap64 (block_reward - fee) in
  let n_shares := pplns_window (config_ p) in
  let total_shares := Z.of_nat (length (recent_shares_ p)) in
  if total_shares =? 0 then Some (p, t, ∅)
  else
    let start_index := if n_shares <? total_shares then total_shares - n_shares else 0 in
    let '(miner_share_count, window_share_count) :=
      foldl count_share (∅, 0) (drop (Z.to_nat start_index) (recent_shares_ p)) in
    if window_share_count =? 0 then Some (p, t, ∅)
    else
      let '(p, payouts) :=
        foldl (credit_payout total_payout window_share_count) (p, ∅)
              (map_entries miner_share_count) in
      Some (p, mkTotals (wrap64 (total_paid_ t + total_payout))
                        (wrap64 (pool_revenue_ t + fee)), payouts).

End AltPayouts.

(** ** Hex conversions of the Stratum server (stratum_server.cpp)

    [std::stoul(s, nullptr, 16)] is the [strtoul] of the C library, taken
    in the C locale and with a 64-bit [unsigned long]: it skips leading
    white space, takes an optional sign and an optional prefix [0x] and
    then reads hexadecimal digits as far as they go; what follows the
    digits is ignored. [None] stands for the exceptions: no digit to read
    ([std::invalid_argument]) or a value above [ULONG_MAX]
    ([std::out_of_range]). *)

Module StratumHex.

Definition code (c : Ascii.ascii) : Z := Z.of_N (Ascii.N_of_ascii c).

Definition hex_value (c : Ascii.ascii) : option Z :=
  let n := code c in
  if (48 <=? n) && (n <=? 57) then Some (n - 48)
  else if (97 <=? n) && (n <=? 102) then Some (n - 87)
  else if (65 <=? n) && (n <=? 70) then Some (n - 55)
  else None.

(** [isspace]: space, and the control characters from tab to carriage
    return. *)
Definition is_space (c : Ascii.ascii) : bool :=
  let n := code c in (n =? 32) || ((9 <=? n) && (n <=? 13)).

Fixpoint skip_space (s : string) : string :=
  match s with
  | String c rest => if is_space c then skip_space rest else s
  | EmptyString => s
  end.

(** The value of the longest prefix of digits, continuing from [acc]. *)
Fixpoint hex_digits (s : string) (acc : Z) : Z :=
  match s with
  | String c rest =>
      match hex_value c with
      | Some d => hex_digits rest (acc * 16 + d)
      | None => acc
      end
  | EmptyString => acc
  end.

Definition starts_with_hex (s : string) : bool :=
  match s with
  | String c _ => bool_decide (is_Some (hex_value c))
  | EmptyString => false
  end.

Definition ULONG_MAX : Z := 2 ^ 64 - 1.

Definition stoul16 (s : string) : option Z :=
  let s := skip_space s in
  let '(negative, s) :=
    match s with
    | String c rest =>
        if code c =? 45 then (true, rest)
        else if code c =? 43 then (false, rest)
        else (false, s)
    | EmptyString => (false, s)
    end in
  let s :=
    match s with
    | String c0 (String x rest) =>
        if (code c0 =? 48) && ((code x =? 120) || (code x =? 88)) && starts_with_hex rest
        then rest else s
    | _ => s
    end in
  if starts_with_hex s then
    let v := hex_digits s 0 in
    if ULONG_MAX <? v then None
    else Some (if negative then wrap64 (- v) else v)
  else None.

(** [hex.substr(i, 2)] for [i = 0, 2, 4, ...]. *)
Fixpoint pairs (s : string) : list string :=
  match s with
  | String a (String b rest) => String a (String b EmptyString) :: pairs rest
  | _ => []
  end.

(** [static_cast<uint8_t>(std::stoul(byte_str, nullptr, 16))] *)
Definition parse_byte (byte_str : string) : option Z :=
  v ← stoul16 byte_str; Some (v mod 256).

(** The 256-bit value whose byte [i] is element [i] of the list. *)
Definition uint256_of_bytes (bytes : list Z) : uint256 :=
  foldr (λ b acc, b + 256 * acc) 0 bytes.

Definition HexToUint256 (hex : string) : Result uint256 :=
  if negb (Z.of_nat (String.length hex) =? 64)
  then Error "Invalid hex length for uint256"
  else
    match mapM parse_byte (pairs hex) with
    | Some bytes => Ok (uint256_of_bytes bytes)
    | None => Error "Invalid hex character"
    end.

Definition HexToUint32 (hex : string) : Result Z :=
  if negb (Z.of_nat (String.length hex) =? 8)
  then Error "Invalid hex length for uint32"
  else
    match stoul16 hex with
    | Some v => Ok (v mod 2 ^ 32)
    | None => Error "Invalid hex value"
    end.

Definition HexToBytes (hex : string) : Result (list Z) :=
  if negb (Z.of_nat (String.length hex) mod 2 =? 0)
  then Error "Invalid hex length (must be even)"
  else
    match mapM parse_byte (pairs hex) with
    | Some bytes => Ok bytes
    | None => Error "Invalid hex character"
    end.

(** A digit as [std::hex] prints it. *)
Definition hex_char (d : Z) : Ascii.ascii :=
  Ascii.ascii_of_N (Z.to_N (if d <? 10 then 48 + d else 87 + d)).

(** [ss << std::setw(2) << static_cast<int>(byte)] with fill character 0 *)
Definition hex2 (byte : Z) : string :=
  String (hex_char (byte / 16)) (String (hex_char (byte mod 16)) EmptyString).

Definition concat_strings (l : list string) : string := foldr String.append EmptyString l.

(** [ToHex(const uint256&, bool little_endian)] *)
Definition ToHex (h : uint256) (little_endian : bool) : string :=
  concat_strings
    ((λ i, hex2 (data h i))
       <$> (if little_endian then reverse (seqZ 0 32) else seqZ 0 32)).

(** [ToHex(uint32_t)]: eight digits, the most significant first. *)
Definition ToHex_uint32 (value : Z) : string :=
  foldr (λ i s, String (hex_char ((value / 16 ^ i) mod 16)) s) EmptyString
        (reverse (seqZ 0 8)).

(** [ToHex(const std::vector<uint8_t>&)] *)
Definition ToHex_bytes (bytes : list Z) : string := concat_strings (hex2 <$> bytes).

End StratumHex.

(** ** Checks of the hex conversions by evaluation *)

(** A digit is read back as printed, and is neither white space, nor a
    sign, nor the letter of the prefix. *)
Definition hex_char_ok (d : Z) : bool :=
  let c := StratumHex.hex_char d in
  bool_decide (StratumHex.hex_value c = Some d)
  && negb (StratumHex.is_space c)
  && negb (StratumHex.code c =? 45) && negb (StratumHex.code c =? 43)
  && negb (StratumHex.code c =? 120) && negb (StratumHex.code c =? 88).

(** A character with a digit value is neither white space nor a sign, its
    value is below 16, and only the digit 0 has the code 48. *)
Definition hex_value_ok (n : Z) : bool :=
  let c := Ascii.ascii_of_N (Z.to_N n) in
  match StratumHex.hex_value c with
  | Some v =>
      negb (StratumHex.is_space c)
      && negb (StratumHex.code c =? 45) && negb (StratumHex.code c =? 43)
      && (0 <=? v) && (v <? 16)
  | None =>
      negb (StratumHex.is_space c && ((StratumHex.code c =? 45) || (StratumHex.code c =? 43)))
  end.

(** A byte is read back as printed. *)
Definition byte_round_trip_ok (b : Z) : bool :=
  bool_decide (StratumHex.parse_byte (StratumHex.hex2 b) = Some b).

(** ** The pool database (pool_database.cpp)

    The in-memory tables of [PoolDatabase] that hold workers and shares;
    the tables of blocks and payments are left out. *)

Module PoolDatabase.

Record DB := mkDB {
  workers_ : gmap Z Worker;
  shares_ : list Share;
  next_share_id_ : Z
}.

(** The state the constructor builds. *)
Definition new_db : DB := mkDB ∅ [] 1.

Definition SaveWorker (worker : Worker) (db : DB) : DB :=
  mkDB (<[worker_id worker := worker]> (workers_ db)) (shares_ db) (next_share_id_ db).

Definition LoadWorker (id : Z) (db : DB) : Result Worker :=
  match workers_ db !! id with
  | None => Error "Worker not found"
  | Some w => Ok w
  end.

Definition RecordShare (share : Share) (db : DB) : DB :=
  let '(stored_share, next) :=
    if share_id share =? 0
    then (mkShare (next_share_id_ db) (share_miner_id share) (share_worker_id share)
            (job_id share) (nonce share) (share_hash share) (difficulty share)
            (is_block share) (timestamp share) (valid share) (error_msg share),
          wrap64 (next_share_id_ db + 1))
    else (share, next_share_id_ db) in
  let l := shares_ db ++ [stored_share] in
  mkDB (workers_ db) (if 10000 <? Z.of_nat (length l) then drop 1 l else l) next.

(** [limit] is an [int]; the comparison and the subtraction are done in
    [size_t]. *)
Definition GetRecentShares (limit : Z) (db : DB) : list Share :=
  let size := Z.of_nat (length (shares_ db)) in
  let start := if wrap64 limit <? size then wrap64 (size - wrap64 limit) else 0 in
  drop (Z.to_nat start) (shares_ db).

End PoolDatabase.

(** ** Query parameters of the HTTP API (http_api.cpp)

    [std::stoi(value)] is the [strtol] of the C library in base 10, taken
    in the C locale: leading white space, an optional sign, then decimal
    digits as far as they go. [None] stands for the exceptions: no digit
    to read, or a value that is no [int]. *)

Module HttpApi.

Definition dec_value (c : Ascii.ascii) : option Z :=
  let n := StratumHex.code c in
  if (48 <=? n) && (n <=? 57) then Some (n - 48) else None.

Fixpoint dec_digits (s : string) (acc : Z) : Z :=
  match s with
  | String c rest =>
      match dec_value c with
      | Some d => dec_digits rest (acc * 10 + d)
      | None => acc
      end
  | EmptyString => acc
  end.

Definition starts_with_dec (s : string) : bool :=
  match s with
  | String c _ => bool_decide (is_Some (dec_value c))
  | EmptyString => false
  end.

Definition INT_MIN : Z := - 2 ^ 31.
Definition INT_MAX : Z := 2 ^ 31 - 1.

Definition stoi (s : string) : option Z :=
  let s := StratumHex.skip_space s in
  let '(negative, s) :=
    match s with
    | String c rest =>
        if StratumHex.code c =? 45 then (true, rest)
        else if StratumHex.code c =? 43 then (false, rest)
        else (false, s)
    | EmptyString => (false, s)
    end in
  if starts_with_dec s then
    let v := dec_digits s 0 in
    let r := if negative then - v else v in
    if (r <? INT_MIN) || (INT_MAX <? r) then None else Some r
  else None.

(** The pieces [std::getline(stream, pair, &)] delivers one after the
    other; [cur] holds the characters read since the last delimiter. *)
Fixpoint getlines (s cur : string) : list string :=
  match s with
  | String c rest =>
      if StratumHex.code c =? 38 then cur :: getlines rest EmptyString
      else getlines rest (cur +:+ String c EmptyString)
  | EmptyString => if bool_decide (cur = EmptyString) then [] else [cur]
  end.

(** [s.find(c)] for a character given by its code. *)
Fixpoint find (c0 : Z) (s : string) : option nat :=
  match s with
  | String c rest => if StratumHex.code c =? c0 then Some O else S <$> find c0 rest
  | EmptyString => None
  end.

(** The loop of [GetQueryParam] over the pieces. *)
Fixpoint first_match (param : string) (pieces : list string) : option string :=
  match pieces with
  | [] => None
  | piece :: rest =>
      match find 61 piece with
      | Some eq_pos =>
          let key := String.substring 0 eq_pos piece in
          let value := String.substring (S eq_pos) (String.length piece - S eq_pos) piece in
          if bool_decide (key = param) then Some value else first_match param rest
      | None => first_match param rest
      end
  end.

Definition GetQueryParam (query_string param default_value : string) : string :=
  default default_value (first_match param (getlines query_string EmptyString)).

Definition GetQueryParam_int (query_string param : string) (default_value : Z) : Z :=
  let value := GetQueryParam query_string param EmptyString in
  if bool_decide (value = EmptyString) then default_value
  else default default_value (stoi value).

(** The payments [GetRecentPayments(int limit)] renders and the rounds
    [GetRecentBlocks(int limit)] renders: the [int] is converted to the
    [size_t] the pool takes. *)
Definition payments_shown (limit : Z) (p : Pool) : list Payment :=
  GetPaymentHistory (wrap64 limit) p.

Definition rounds_shown (limit : Z) (p : Pool) : list RoundStatistics :=
  filter (λ r, is_complete r = true) (GetRoundHistory (wrap64 limit) p).

End HttpApi.

(** ** Theorems *)

(** *** Machine integers *)


Lemma wrap64_le z : 0 <= z -> wrap64 z <= z.
Proof. intros Hz. unfold wrap64. apply Z.mod_le; lia. Qed.

Lemma wrap64_small z : 0 <= z < 2 ^ 64 -> wrap64 z = z.
Proof. intros Hz. unfold wrap64. apply Z.mod_small. exact Hz. Qed.



(** C1, at the failing input: the hash [2^224 - 1] (four zero bytes, then
    twenty-eight bytes [0xFF]) has exactly 32 leading zero bits; the
    approximation credits it with difficulty 65536 while the exact 256-bit
    quotient is 0, so the approximation does not round conservatively. *)
Theorem C1_share_difficulty_overcredits :
  uint256_wf (2 ^ 224 - 1) /\
  leading_zero_bits (2 ^ 224 - 1) = 32 /\
  CalculateShareDifficulty (2 ^ 224 - 1) = 65536 /\
  exact_share_difficulty (2 ^ 224 - 1) = 0 /\
  ~ (CalculateShareDifficulty (2 ^ 224 - 1) <= exact_share_difficulty (2 ^ 224 - 1)).
Proof.
  assert (Hlz : leading_zero_bits (2 ^ 224 - 1) = 32) by (vm_compute; reflexivity).
  assert (Hd : CalculateShareDifficulty (2 ^ 224 - 1) = 65536) by (vm_compute; reflexivity).
  assert (He : exact_share_difficulty (2 ^ 224 - 1) = 0) by (vm_compute; reflexivity).
  split; [unfold uint256_wf; lia |].
  split; [exact Hlz |]. split; [exact Hd |]. split; [exact He |].
  rewrite Hd, He. lia.
Qed.

(** *** Iteration over a [std::map] *)

Lemma elem_of_map_entries {A} (m : gmap Z A) k v :
  (k, v) ∈ map_entries m ↔ m !! k = Some v.
Proof.
  unfold map_entries. rewrite merge_sort_Permutation.
  apply elem_of_map_to_list.
Qed.

Lemma NoDup_fst_map_entries {A} (m : gmap Z A) : NoDup (map_entries m).*1.
Proof.
  unfold map_entries. rewrite merge_sort_Permutation.
  apply NoDup_fst_map_to_list.
Qed.

(** *** The payout loop *)

Lemma assign_payout_skip reward total (l : list (Z * Z)) acc k :
  k ∉ l.*1 → foldl (assign_payout reward total) acc l !! k = acc !! k.
Proof.
  revert acc. induction l as [|e l IH]; intros acc Hk; [done|].
  cbn in *. apply not_elem_of_cons in Hk as [Hne Hk].
  rewrite IH by done. unfold assign_payout. by rewrite lookup_insert_ne.
Qed.

Lemma assign_payout_hit reward total (l : list (Z * Z)) acc k c :
  NoDup l.*1 → (k, c) ∈ l →
  foldl (assign_payout reward total) acc l !! k = Some (wrap64 (reward * c) / total).
Proof.
  revert acc. induction l as [|e l IH]; intros acc Hnd Hin.
  - by apply elem_of_nil in Hin.
  - cbn in *. apply NoDup_cons in Hnd as [Hfresh Hnd].
    apply elem_of_cons in Hin as [<-|Hin].
    + rewrite assign_payout_skip by done.
      unfold assign_payout. cbn. by rewrite lookup_insert_eq.
    + by apply IH.
Qed.

Lemma assign_payouts_fmap reward total (ms : gmap Z Z) :
  foldl (assign_payout reward total) ∅ (map_entries ms)
  = (λ c, wrap64 (reward * c) / total) <$> ms.
Proof.
  apply map_eq. intros k. rewrite lookup_fmap.
  destruct (ms !! k) as [c|] eqn:Hk; cbn.
  - apply assign_payout_hit; [apply NoDup_fst_map_entries|].
    by apply elem_of_map_entries.
  - rewrite assign_payout_skip; [apply lookup_empty|].
    intros ([k' c]&->&Hin)%list_elem_of_fmap.
    apply elem_of_map_entries in Hin. cbn in Hk. congruence.
Qed.

(** *** Sums over payout maps *)

Lemma payout_sum_empty : payout_sum ∅ = 0.
Proof. unfold payout_sum. apply map_fold_empty. Qed.

Lemma payout_sum_insert_fresh (m : gmap Z Z) k v :
  m !! k = None → payout_sum (<[k:=v]> m) = v + payout_sum m.
Proof.
  intros Hk. unfold payout_sum.
  rewrite map_fold_insert_L; [done| |done].
  intros. lia.
Qed.


Lemma payout_sum_lookup_le (m : gmap Z Z) k c :
  (∀ j x, m !! j = Some x → 0 <= x) → m !! k = Some c → c <= payout_sum m.
Proof.
  induction m as [|j x m Hj IH] using map_ind; intros Hpos Hk.
  - by rewrite lookup_empty in Hk.
  - rewrite payout_sum_insert_fresh by done.
    assert (0 <= x) by (apply (Hpos j); apply lookup_insert_eq).
    assert (Hpos' : ∀ i y, m !! i = Some y → 0 <= y).
    { intros i y Hi. apply (Hpos i). rewrite lookup_insert_ne; [done|congruence]. }
    assert (0 <= payout_sum m).
    { clear -Hpos'. induction m as [|i y m Hi IHm] using map_ind.
      - rewrite payout_sum_empty. lia.
      - rewrite payout_sum_insert_fresh by done.
        assert (0 <= y) by (apply (Hpos' i); apply lookup_insert_eq).
        assert (0 <= payout_sum m); [|lia].
        apply IHm. intros i' y' Hi'. apply (Hpos' i').
        rewrite lookup_insert_ne; [done|congruence]. }
    destruct (decide (j = k)) as [->|Hne].
    + rewrite lookup_insert_eq in Hk. simplify_eq. lia.
    + rewrite lookup_insert_ne in Hk by done. specialize (IH Hpos' Hk). lia.
Qed.


(** *** The counting loop *)

Lemma miner_count_snoc m l x :
  miner_count m (l ++ [x])
  = miner_count m l + (if valid x && bool_decide (share_miner_id x = m) then 1 else 0).
Proof.
  unfold miner_count. rewrite filter_app, length_app, Nat2Z.inj_add. f_equal.
  destruct (valid x) eqn:Hv; [rewrite andb_true_l | rewrite andb_false_l].
  - case_bool_decide as Hm.
    + rewrite filter_cons_True; [done|]. split; [by rewrite Hv|done].
    + rewrite filter_cons_False; [done|]. by intros [_ ?].
  - rewrite filter_cons_False; [done|]. rewrite Hv. by intros [[] _].
Qed.


Lemma miner_count_range m l : 0 <= miner_count m l <= Z.of_nat (length l).
Proof.
  unfold miner_count.
  pose proof (length_filter (λ s, valid s ∧ share_miner_id s = m) l). lia.
Qed.




(** *** Both calculators: what the two loops produce together *)












(** *** The payout sweep *)

Lemma foldl_invariant {A B} (P : A → Prop) (f : A → B → A) (l : list B) a :
  P a → (∀ a b, b ∈ l → P a → P (f a b)) → P (foldl f a l).
Proof.
  revert a. induction l as [|b l IH]; intros a Ha Hstep; [done|].
  cbn. apply IH.
  - apply Hstep; [left|done].
  - intros a' b' Hb'. apply Hstep. by right.
Qed.









(** *** Block detection *)


(** *** Paid balances *)

(** C3, at the failing input. A miner with an unpaid balance of 5000 and no
    payment satisfies the invariant; the sweep of mining_pool_server.cpp
    then creates one payment in status pending and already adds its
    amount to [paid_balance], so that the paid balance (5000) differs from
    the sum of the confirmed payments (0). *)
Theorem C3_paid_balance_counts_pending :
  let p' := (AltServer.ProcessPayouts (demo_env 10000 1) demo_payout_pool).1 in
  paid_balance_invariant demo_payout_pool ∧
  status <$> payment_history_ p' = ["pending"] ∧
  (paid_balance <$> miners_ p' !! 1) = Some 5000 ∧
  confirmed_total 1 (payment_history_ p') = 0 ∧
  ¬ paid_balance_invariant p'.
Proof.
  cbv zeta. split; [|split; [|split; [|split]]].
  - intros m miner Hm. unfold demo_payout_pool in Hm. cbn in Hm.
    apply lookup_singleton_Some in Hm as [<- <-]. done.
  - by vm_compute.
  - by vm_compute.
  - by vm_compute.
  - intros Hinv.
    destruct (miners_ (AltServer.ProcessPayouts (demo_env 10000 1) demo_payout_pool).1
              !! 1) as [miner|] eqn:Hm; [|by vm_compute in Hm].
    specialize (Hinv 1 miner Hm).
    assert (Hp : paid_balance miner = 5000).
    { apply (f_equal (fmap paid_balance)) in Hm. vm_compute in Hm. by injection Hm. }
    rewrite Hp in Hinv. by vm_compute in Hinv.
Qed.

(** *** Share validation *)

Lemma IsDuplicateShare_spec share recent :
  IsDuplicateShare share recent = true
  ↔ ∃ s, s ∈ recent ∧ nonce s = nonce share ∧ job_id s = job_id share.
Proof.
  induction recent as [|s recent IH]; cbn.
  - split; [done|]. by intros (s & Hs%elem_of_nil & _).
  - destruct (Z.eqb_spec (nonce s) (nonce share)) as [Hn|Hn];
      destruct (Z.eqb_spec (job_id s) (job_id share)) as [Hj|Hj]; cbn.
    + split; [|done]. intros _. exists s. split; [left|done].
    + rewrite IH. split.
      * intros (s' & Hs' & ?). exists s'. split; [by right|done].
      * intros (s' & [->|Hs']%elem_of_cons & Hn' & Hj'); [done|]. by exists s'.
    + rewrite IH. split.
      * intros (s' & Hs' & ?). exists s'. split; [by right|done].
      * intros (s' & [->|Hs']%elem_of_cons & Hn' & Hj'); [done|]. by exists s'.
    + rewrite IH. split.
      * intros (s' & Hs' & ?). exists s'. split; [by right|done].
      * intros (s' & [->|Hs']%elem_of_cons & Hn' & Hj'); [done|]. by exists s'.
Qed.

(** C7, as the code has it. With a current job, [ValidateShare] rejects at
    the first failing check in the order: difficulty, job identity (stale
    work), timestamp window, duplicate. The duplicate check comes last and
    compares the pair (nonce, job_id) with the shares kept in
    [recent_shares_]; a share that fails the difficulty check is rejected
    for its difficulty whether or not it is a duplicate. *)
Theorem C7_validation_order p share work :
  current_work_ p = Some work →
  (ValidateDifficulty (share_hash share) (difficulty share) = false →
   ValidateShare p share = Error "Share does not meet difficulty requirement") ∧
  (ValidateDifficulty (share_hash share) (difficulty share) = true →
   ValidateWork share work = false →
   ValidateShare p share = Error "Share is for stale work") ∧
  (ValidateDifficulty (share_hash share) (difficulty share) = true →
   ValidateWork share work = true →
   ValidateTimestamp share work = false →
   ValidateShare p share = Error "Share timestamp invalid") ∧
  (ValidateShare p share = Error "Duplicate share" ↔
   ValidateDifficulty (share_hash share) (difficulty share) = true ∧
   ValidateWork share work = true ∧
   ValidateTimestamp share work = true ∧
   ∃ s, s ∈ recent_shares_ p ∧ nonce s = nonce share ∧ job_id s = job_id share) ∧
  (ValidateShare p share = Ok true ↔
   ValidateDifficulty (share_hash share) (difficulty share) = true ∧
   ValidateWork share work = true ∧
   ValidateTimestamp share work = true ∧
   ¬ ∃ s, s ∈ recent_shares_ p ∧ nonce s = nonce share ∧ job_id s = job_id share).
Proof.
  intros Hwork. unfold ValidateShare. rewrite Hwork.
  rewrite <-IsDuplicateShare_spec.
  destruct (ValidateDifficulty _ _), (ValidateWork _ _), (ValidateTimestamp _ _),
    (IsDuplicateShare _ _); cbn; split_and!; try done; try (split; [done|]);
    try (by intros (? & ? & ? & ?)); try (by intros [? [? [? []]]]).
Qed.

Lemma C7_validation_order_witness :
  current_work_ demo_pool_one_share = Some (mkWork 7 1 (2 ^ 62) 0 false) ∧
  ValidateShare demo_pool_one_share dup_low_share
  = Error "Share does not meet difficulty requirement".
Proof.
  assert (Hw : current_work_ demo_pool_one_share = Some (mkWork 7 1 (2 ^ 62) 0 false))
    by (vm_compute; reflexivity).
  split; [exact Hw|].
  apply (C7_validation_order demo_pool_one_share dup_low_share _ Hw).
  vm_compute. reflexivity.
Defined.

(** C7 as the specification states it fails: after one accepted share, a
    second submission of the same job and nonce whose hash is too weak is
    a duplicate and below the credited difficulty, and it is rejected for
    its difficulty, not as a duplicate. The duplicate check itself looks
    at the nonce and the job only: the same pair sent by another worker
    (another extranonce1) counts as a duplicate. *)
Lemma C7_duplicate_not_first :
  run (initial_pool demo_config 0) demo_one_share = Some demo_pool_one_share ∧
  IsDuplicateShare dup_low_share (recent_shares_ demo_pool_one_share) = true ∧
  ValidateDifficulty (share_hash dup_low_share) (difficulty dup_low_share) = false ∧
  ValidateShare demo_pool_one_share dup_low_share
  = Error "Share does not meet difficulty requirement" ∧
  ValidateShare demo_pool_one_share dup_low_share ≠ Error "Duplicate share" ∧
  (share_worker_id other_session_share
     ∉ share_worker_id <$> recent_shares_ demo_pool_one_share) ∧
  IsDuplicateShare other_session_share (recent_shares_ demo_pool_one_share) = true.
Proof.
  split; [vm_compute; reflexivity|].
  split; [vm_compute; reflexivity|].
  split; [vm_compute; reflexivity|].
  assert (Hv : ValidateShare demo_pool_one_share dup_low_share
               = Error "Share does not meet difficulty requirement")
    by (vm_compute; reflexivity).
  split; [exact Hv|]. split; [rewrite Hv; discriminate|].
  split; [|vm_compute; reflexivity].
  assert (Hl : share_worker_id <$> recent_shares_ demo_pool_one_share = [1])
    by (vm_compute; reflexivity).
  rewrite Hl. intros [=]%list_elem_of_singleton.
Qed.

(** *** Variable difficulty *)

Lemma all_from_spec n f d0 d :
  all_from n d0 f = true → d0 <= d < d0 + Z.of_nat n → f d = true.
Proof.
  revert d0. induction n as [|n IH]; intros d0 Hall Hd; [lia|].
  cbn [all_from] in Hall. apply andb_prop in Hall as [Hhere Hrest].
  destruct (decide (d = d0)) as [->|Hne]; [done|].
  apply (IH (d0 + 1)); [done|lia].
Qed.






(** *** What the operations of pool.cpp do to the miner table *)



Lemma ValidateShare_true p share v : ValidateShare p share = Ok v → v = true.
Proof.
  unfold ValidateShare. destruct (current_work_ p); [|done].
  repeat (match goal with |- context [if ?b then _ else _] => destruct b end);
    by intros [=].
Qed.

Lemma AdjustWorkerDifficulty_frame w p p' :
  AdjustWorkerDifficulty w p = Some p' →
  miners_ p' = miners_ p ∧ config_ p' = config_ p ∧
  recent_shares_ p' = recent_shares_ p ∧ current_work_ p' = current_work_ p.
Proof.
  unfold AdjustWorkerDifficulty. destruct (workers_ p !! w) as [wk|]; [|by intros [= <-]].
  destruct (CalculateDifficulty _ _) as [d|]; [|done]. cbn.
  destruct (d =? _); by intros [= <-].
Qed.

Lemma ProcessValidShare_frame env share p p' :
  ProcessValidShare env share p = Some p' →
  miners_ p' = alter (miner_accepted (now env)) (share_miner_id share) (miners_ p) ∧
  config_ p' = config_ p ∧
  recent_shares_ p' = recent_shares_ p ∧ current_work_ p' = current_work_ p.
Proof.
  unfold ProcessValidShare.
  destruct (workers_ p !! share_worker_id share) as [wk|]; cbn.
  - destruct (ShouldAdjust _ _ _).
    + destruct (AdjustWorkerDifficulty _ _) as [q|] eqn:Hadj; [|done]. cbn.
      apply AdjustWorkerDifficulty_frame in Hadj as (Hm & Hc & Hr & Hw).
      intros [= <-]. cbn. by rewrite Hm, Hc, Hr, Hw.
    + cbn. by intros [= <-].
  - by intros [= <-].
Qed.

Lemma CreateWork_frame env clean p :
  miners_ (CreateWork env clean p).1 = miners_ p ∧
  config_ (CreateWork env clean p).1 = config_ p ∧
  recent_shares_ (CreateWork env clean p).1 = recent_shares_ p.
Proof. unfold CreateWork. by destruct (block_template_result env). Qed.

Lemma UpdateWork_frame env p :
  miners_ (UpdateWork env p).1 = miners_ p ∧
  config_ (UpdateWork env p).1 = config_ p ∧
  recent_shares_ (UpdateWork env p).1 = recent_shares_ p.
Proof.
  unfold UpdateWork. pose proof (CreateWork_frame env true p) as Hc.
  by destruct (CreateWork env true p) as [q [?|?]].
Qed.

Lemma ProcessBlockFound_frame env share p :
  (miners_ (ProcessBlockFound env share p).1 = miners_ p ∨
   miners_ (ProcessBlockFound env share p).1
   = alter miner_found_block (share_miner_id share) (miners_ p)) ∧
  config_ (ProcessBlockFound env share p).1 = config_ p ∧
  recent_shares_ (ProcessBlockFound env share p).1 = recent_shares_ p.
Proof.
  unfold ProcessBlockFound. destruct (current_work_ p) as [work|]; [|by split; [left|]].
  destruct (add_block_result env); [|by split; [left|]].
  cbn [fst]. 
  match goal with |- context [UpdateWork env ?q] =>
    destruct (UpdateWork_frame env q) as (-> & -> & ->) end.
  by split; [right|].
Qed.

Lemma CheckInvalidShares_frame env m p :
  (miners_ (CheckInvalidShares env m p) = miners_ p ∨
   miners_ (CheckInvalidShares env m p)
   = alter (set_ban true (now env + ban_duration (config_ p) * ticks_per_second)) m
           (miners_ p)) ∧
  config_ (CheckInvalidShares env m p) = config_ p ∧
  workers_ (CheckInvalidShares env m p) = workers_ p ∧
  recent_shares_ (CheckInvalidShares env m p) = recent_shares_ p ∧
  current_round_ (CheckInvalidShares env m p) = current_round_ p ∧
  round_history_ (CheckInvalidShares env m p) = round_history_ p ∧
  stats_ (CheckInvalidShares env m p) = stats_ p.
Proof.
  unfold CheckInvalidShares. destruct (ban_on_invalid_share _); cbn; [|by split; [left|]].
  destruct (miners_ p !! m) as [x|]; [|by split; [left|]].
  destruct (_ <=? _); [|by split; [left|]]. by split; [right|].
Qed.






Lemma ProcessPayouts_config env p : config_ (ProcessPayouts env p).1 = config_ p.
Proof.
  unfold ProcessPayouts.
  apply (foldl_invariant (λ acc, config_ acc.1 = config_ p)); [done|].
  intros [q news] [id miner] _ Hacc. cbn [fst] in *. unfold payout_step.
  destruct (_ <? _); [done|]. by destruct (_ <? _).
Qed.




Lemma ends_with_rejections_0 vs : ends_with_rejections 0 vs.
Proof. done. Qed.


(** *** Runs *)




Lemma run_snoc p calls c : run p (calls ++ [c]) = run p calls ≫= λ q, exec q c.
Proof.
  revert p. induction calls as [|c' calls IH]; intros p; cbn.
  - by destruct (exec p c).
  - destruct (exec p c') as [q|]; [apply IH|done].
Qed.

Lemma verdicts_snoc m p calls q c :
  run p calls = Some q →
  verdicts m p (calls ++ [c]) = verdicts m p calls ++ verdict_here m q c.
Proof.
  revert p. induction calls as [|c' calls IH]; intros p; cbn.
  - intros [= ->]. destruct (exec q c); by rewrite app_nil_r.
  - destruct (exec p c') as [p1|]; [|done]. cbn. intros Hrun.
    by rewrite (IH p1 Hrun), app_assoc.
Qed.




(** *** Replies to rejected shares *)





(** *** The ledger of pool.cpp: paid balances and payments *)

Lemma same_ledger_refl p : same_ledger p p.
Proof. done. Qed.

Lemma same_ledger_trans p q r : same_ledger p q → same_ledger q r → same_ledger p r.
Proof.
  intros [Hh1 Hm1] [Hh2 Hm2]. split; [congruence|].
  intros m. by rewrite Hm2, Hm1.
Qed.

Lemma same_ledger_eq p q :
  payment_history_ q = payment_history_ p → miners_ q = miners_ p → same_ledger p q.
Proof. intros Hh Hm. split; [done|]. intros m. by rewrite Hm. Qed.

Lemma same_ledger_update_miner f id p :
  (∀ x, paid_balance (f x) = paid_balance x) → same_ledger p (update_miner id f p).
Proof.
  intros Hf. split; [done|]. intros m. cbn. rewrite lookup_alter.
  case_decide; [subst|done]. destruct (miners_ p !! m) as [x|]; [|done].
  cbn. by rewrite Hf.
Qed.

Lemma same_ledger_alter f id p q :
  (∀ x, paid_balance (f x) = paid_balance x) →
  payment_history_ q = payment_history_ p →
  miners_ q = alter f id (miners_ p) → same_ledger p q.
Proof.
  intros Hf Hh Hm. split; [done|]. intros m. rewrite Hm, lookup_alter.
  case_decide; [subst|done]. destruct (miners_ p !! m) as [x|]; [|done].
  cbn. by rewrite Hf.
Qed.

Lemma AdjustWorkerDifficulty_ledger w p p' :
  AdjustWorkerDifficulty w p = Some p' → same_ledger p p'.
Proof.
  unfold AdjustWorkerDifficulty. destruct (workers_ p !! w) as [wk|]; [|by intros [= <-]].
  destruct (CalculateDifficulty _ _) as [d|]; [|done]. cbn.
  destruct (d =? _); by intros [= <-].
Qed.

Lemma ProcessValidShare_ledger env share p p' :
  ProcessValidShare env share p = Some p' → same_ledger p p'.
Proof.
  unfold ProcessValidShare.
  assert (Hend : ∀ q, same_ledger p q →
            same_ledger p
              (set_stats
                 (mkStats (wrap64 (shares_this_round (stats_ q) + 1))
                    (wrap64 (total_shares (stats_ q) + 1)) (stats_blocks_found (stats_ q))
                    (blocks_pending (stats_ q)) (last_block_found (stats_ q)))
                 (set_rounds (round_add_share (share_miner_id share) (current_round_ q))
                    (round_history_ q) (next_round_id_ q)
                    (update_miner (share_miner_id share) (miner_accepted (now env)) q)))).
  { intros q Hq. apply (same_ledger_trans _ q); [done|].
    by apply (same_ledger_alter (miner_accepted (now env)) (share_miner_id share)). }
  destruct (workers_ p !! share_worker_id share) as [wk|]; cbn [mbind option_bind].
  - destruct (ShouldAdjust _ _ _).
    + destruct (AdjustWorkerDifficulty _ _) as [q|] eqn:Hadj; [|done].
      cbn [mbind option_bind].
      apply AdjustWorkerDifficulty_ledger in Hadj.
      intros [= <-]. apply (Hend q).
      eapply same_ledger_trans; [|apply Hadj]. by apply same_ledger_eq.
    + cbn [mbind option_bind]. intros [= <-].
      by apply (Hend (set_workers _ p)), same_ledger_eq.
  - intros [= <-]. by apply (Hend p), same_ledger_eq.
Qed.

Lemma ProcessBlockFound_ledger env share p :
  same_ledger p (ProcessBlockFound env share p).1.
Proof.
  pose proof (ProcessBlockFound_frame env share p) as (Hms & _).
  assert (Hh : payment_history_ (ProcessBlockFound env share p).1 = payment_history_ p).
  { unfold ProcessBlockFound. destruct (current_work_ p); [|done].
    destruct (add_block_result env); [|done]. cbn [fst].
    unfold UpdateWork, CreateWork. by destruct (block_template_result env). }
  destruct Hms as [Hms|Hms].
  - by apply same_ledger_eq.
  - by apply (same_ledger_alter miner_found_block (share_miner_id share)).
Qed.

Lemma CheckInvalidShares_ledger env m p : same_ledger p (CheckInvalidShares env m p).
Proof.
  unfold CheckInvalidShares. destruct (ban_on_invalid_share _); cbn; [|done].
  destruct (miners_ p !! m) as [x|]; [|done].
  destruct (_ <=? _); [|done]. by apply same_ledger_update_miner.
Qed.

Lemma SubmitShare_ledger env w j n h p p' r :
  SubmitShare env w j n h p = Some (p', r) → same_ledger p p'.
Proof.
  unfold SubmitShare.
  destruct (workers_ p !! w) as [worker|]; [|by intros [= <- <-]].
  set (m := default 0 (worker_to_miner_ p !! w)).
  cbn [miners_ set_worker_to_miner next_share_id_].
  destruct (miners_ p !! m) as [miner|]; [|by intros [= <- <-]].
  set (q0 := set_next_share_id _ _).
  destruct (ValidateShare q0 _) as [[|]|e].
  - destruct (ProcessValidShare _ _ _) as [q1|] eqn:Hpv; [|done].
    apply ProcessValidShare_ledger in Hpv. cbn [mbind option_bind].
    assert (H0 : same_ledger p q1) by done.
    destruct (IsValidBlock _ _).
    + match goal with |- context [ProcessBlockFound env ?s q1] =>
        pose proof (ProcessBlockFound_ledger env s q1) as Hbf;
        destruct (ProcessBlockFound env s q1) as [q2 [[]|e2]] end;
        cbn [fst] in Hbf; intros [= <- <-];
        by apply (same_ledger_trans _ q1); [|apply (same_ledger_trans _ q2)].
    + intros [= <- <-]. by apply (same_ledger_trans _ q1).
  - by intros [= <- <-].
  - intros [= <- <-].
    eapply same_ledger_trans; [|apply CheckInvalidShares_ledger].
    by apply (same_ledger_alter miner_rejected m).
Qed.

Lemma nothing_paid_same_ledger p q : same_ledger p q → nothing_paid p → nothing_paid q.
Proof.
  intros [Hh Hm] [Hpaid Hpend]. split; [|by rewrite Hh].
  intros m miner Hq. specialize (Hm m). rewrite Hq in Hm.
  destruct (miners_ p !! m) as [x|] eqn:Hx; [|done].
  cbn in Hm. injection Hm as ->. by apply (Hpaid m).
Qed.

Lemma ProcessPayouts_nothing_paid env p :
  nothing_paid p → nothing_paid (ProcessPayouts env p).1.
Proof.
  intros [Hpaid Hpend]. unfold ProcessPayouts.
  apply (foldl_invariant (λ acc, nothing_paid acc.1)); [done|].
  intros [q news] [id miner] Hin%elem_of_map_entries [Hq1 Hq2]. cbn [fst] in *.
  unfold payout_step.
  destruct (_ <? _); [done|]. destruct (_ <? _); [done|].
  cbn [fst]. split.
  - intros m x. cbn. destruct (decide (id = m)) as [->|Hne].
    + rewrite lookup_insert_eq. intros [= <-]. cbn. by apply (Hpaid m).
    + rewrite lookup_insert_ne by done. apply Hq1.
  - cbn. apply Forall_app. split; [done|]. by apply Forall_singleton.
Qed.

Lemma exec_nothing_paid p c p' : nothing_paid p → exec p c = Some p' → nothing_paid p'.
Proof.
  intros Hp Hexec. destruct c as [env call].
  destruct call as [u a|id a|id|wid|wid j n h|clean| |id d|id|cfg]; cbn in Hexec.
  - injection Hexec as <-. unfold RegisterMiner. case_decide; [done|].
    destruct (_ <=? _); [done|]. cbn [fst]. destruct Hp as [Hpaid Hpend].
    split; [|done]. intros m x. cbn.
    destruct (decide (next_miner_id_ p = m)) as [->|Hne].
    + rewrite lookup_insert_eq. by intros [= <-].
    + rewrite lookup_insert_ne by done. apply Hpaid.
  - injection Hexec as <-. unfold UpdatePayoutAddress.
    destruct (miners_ p !! id); [|done].
    apply (nothing_paid_same_ledger p); [by apply same_ledger_update_miner|done].
  - injection Hexec as <-. unfold AddWorker. destruct (miners_ p !! id); [|done].
    destruct (_ <=? _); [done|]. cbn [fst].
    apply (nothing_paid_same_ledger p); [|done].
    eapply same_ledger_trans; [|by apply same_ledger_update_miner].
    by apply same_ledger_eq.
  - injection Hexec as <-. unfold RemoveWorker. destruct (workers_ p !! wid); [|done].
    apply (nothing_paid_same_ledger p); [|done].
    apply (same_ledger_trans _
             (update_miner (default 0 (worker_to_miner_ p !! wid))
                (λ m, set_miner_workers (delete wid (workers m)) m) p));
      [by apply same_ledger_update_miner|by apply same_ledger_eq].
  - destruct (SubmitShare env wid j n h p) as [[q r]|] eqn:Hsub; [|done].
    cbn in Hexec. injection Hexec as ->.
    apply (nothing_paid_same_ledger p); [|done].
    by apply (SubmitShare_ledger _ _ _ _ _ _ _ _ Hsub).
  - injection Hexec as <-. unfold CreateWork. by destruct (block_template_result env).
  - injection Hexec as <-. by apply ProcessPayouts_nothing_paid.
  - injection Hexec as <-.
    apply (nothing_paid_same_ledger p); [by apply same_ledger_update_miner|done].
  - injection Hexec as <-.
    apply (nothing_paid_same_ledger p); [by apply same_ledger_update_miner|done].
  - by injection Hexec as <-.
Qed.

Lemma confirmed_total_pending m history :
  Forall (λ pay, status pay = "pending") history → confirmed_total m history = 0.
Proof.
  induction 1 as [|pay history Hpay _ IH]; [done|].
  unfold confirmed_total in *. cbn [foldr]. rewrite IH.
  case_bool_decide as Hc; [|done].
  destruct Hc as [_ Hc]. by rewrite Hpay in Hc.
Qed.

Lemma run_nothing_paid p calls q :
  nothing_paid p → run p calls = Some q → nothing_paid q.
Proof.
  revert p. induction calls as [|c calls IH]; intros p Hp; cbn.
  - by intros [= <-].
  - destruct (exec p c) as [p1|] eqn:Hexec; [|done]. cbn.
    apply IH. by apply (exec_nothing_paid p c).
Qed.

(** In the server of pool.cpp the paid balance of every miner equals the
    sum of its confirmed payments in every state a run reaches: no
    payment is ever confirmed and no paid balance is ever raised. *)
Lemma pool_cpp_paid_balance_invariant config start calls p :
  run (initial_pool config start) calls = Some p → paid_balance_invariant p.
Proof.
  intros Hrun.
  assert (H0 : nothing_paid (initial_pool config start)) by (by split).
  destruct (run_nothing_paid _ _ _ H0 Hrun) as [Hpaid Hpend].
  intros m miner Hm. rewrite (Hpaid m miner Hm).
  by rewrite confirmed_total_pending.
Qed.

(** *** Leading zero bits and the credited difficulty *)

Lemma byte_zeros_checked : all_from 255 1 byte_zeros_ok = true.
Proof. vm_compute. reflexivity. Qed.

Lemma count_bits_acc bits byte acc :
  count_bits bits byte acc = acc + count_bits bits byte 0.
Proof.
  revert acc. induction bits as [|bit bits IH]; intros acc; cbn [count_bits]; [lia|].
  destruct (_ =? 0); [|lia]. rewrite (IH (acc + 1)), (IH (0 + 1)). lia.
Qed.

Lemma count_bits_spec byte acc :
  1 <= byte < 256 →
  ∃ c, count_bits [7; 6; 5; 4; 3; 2; 1; 0] byte acc = acc + c ∧
       0 <= c <= 7 ∧ 2 ^ (7 - c) <= byte < 2 ^ (8 - c).
Proof.
  intros Hb. rewrite count_bits_acc. eexists. split; [reflexivity|].
  pose proof (all_from_spec 255 byte_zeros_ok 1 byte byte_zeros_checked ltac:(lia)) as Hok.
  unfold byte_zeros_ok in Hok. cbv zeta in Hok.
  apply andb_prop in Hok as [[[H1%Z.leb_le H2%Z.leb_le]%andb_prop H3%Z.leb_le]%andb_prop
                               H4%Z.ltb_lt].
  lia.
Qed.

Lemma data_div h i : 0 <= i → data h i = (h / 2 ^ (8 * i)) mod 256.
Proof.
  intros Hi. unfold data. rewrite Z.shiftr_div_pow2 by lia.
  change 255 with (Z.ones 8). by rewrite Z.land_ones by lia.
Qed.

Lemma count_bytes_spec h n i :
  0 <= i → i + Z.of_nat n = 32 → 0 < h < 2 ^ (256 - 8 * i) →
  ∃ lz, count_bytes (seqZ i (Z.of_nat n)) h (8 * i) = lz ∧
        8 * i <= lz < 256 ∧ 2 ^ (255 - lz) <= h < 2 ^ (256 - lz).
Proof.
  revert i. induction n as [|n IH]; intros i Hi Hn Hh.
  - replace i with 32 in Hh by lia. cbn in Hh. lia.
  - rewrite Nat2Z.inj_succ, seqZ_cons by lia. cbn [count_bytes].
    replace (Z.pred (Z.succ (Z.of_nat n))) with (Z.of_nat n) by lia.
    rewrite data_div by lia.
    set (s := 8 * (31 - i)).
    assert (Hs : 0 <= s) by (unfold s; lia).
    assert (Hpow : 2 ^ (256 - 8 * i) = 2 ^ s * 256).
    { replace (256 - 8 * i) with (s + 8) by (unfold s; lia).
      rewrite Z.pow_add_r by lia. done. }
    assert (Hps : 0 < 2 ^ s) by (apply Z.pow_pos_nonneg; lia).
    assert (Hq : 0 <= h / 2 ^ s < 256).
    { split; [apply Z.div_pos; lia|]. apply Z.div_lt_upper_bound; lia. }
    rewrite (Z.mod_small _ 256) by done.
    pose proof (Z.mul_div_le h (2 ^ s) Hps) as Hlow.
    pose proof (Z.mul_succ_div_gt h (2 ^ s) Hps) as Hup.
    destruct (Z.eqb_spec (h / 2 ^ s) 0) as [Hz|Hnz].
    + destruct (IH (i + 1)) as (lz & Hlz & Hrange & Hbound); [lia|lia| |].
      { replace (256 - 8 * (i + 1)) with s by (unfold s; lia). lia. }
      exists lz. replace (8 * i + 8) with (8 * (i + 1)) by lia.
      replace (Z.succ i) with (i + 1) by lia. split; [done|]. split; [lia|done].
    + destruct (count_bits_spec (h / 2 ^ s) (8 * i) ltac:(lia))
        as (c & -> & Hc & Hbyte).
      exists (8 * i + c). split; [done|]. split; [lia|].
      replace (255 - (8 * i + c)) with (s + (7 - c)) by (unfold s; lia).
      replace (256 - (8 * i + c)) with (s + (8 - c)) by (unfold s; lia).
      rewrite !Z.pow_add_r by lia. nia.
Qed.

(** The count is the position of the highest set bit. *)
Lemma leading_zero_bits_spec h :
  0 < h < 2 ^ 256 →
  0 <= leading_zero_bits h < 256 ∧
  2 ^ (255 - leading_zero_bits h) <= h < 2 ^ (256 - leading_zero_bits h).
Proof.
  intros Hh. unfold leading_zero_bits.
  destruct (count_bytes_spec h 32 0 ltac:(lia) ltac:(lia) ltac:(done))
    as (lz & Hlz & Hrange & Hbound).
  change (Z.of_nat 32) with 32 in Hlz. change (8 * 0) with 0 in Hlz.
  rewrite Hlz. split; [lia|done].
Qed.

(** The approximation never rounds conservatively: for every hash from
    [2^176] on (fewer than 80 leading zero bits) it lies strictly above
    the exact quotient. *)
Lemma CalculateShareDifficulty_overcredits h :
  2 ^ 176 <= h < 2 ^ 256 → exact_share_difficulty h < CalculateShareDifficulty h.
Proof.
  intros Hh.
  destruct (leading_zero_bits_spec h ltac:(lia)) as [Hlz [Hlow Hup]].
  unfold CalculateShareDifficulty, exact_share_difficulty.
  set (lz := leading_zero_bits h) in *.
  assert (Hlt80 : lz < 80).
  { destruct (Z.lt_ge_cases lz 80) as [?|Hge]; [done|].
    assert (2 ^ (256 - lz) <= 2 ^ 176) by (apply Z.pow_le_mono_r; lia). lia. }
  assert (Hexact : wrap64 (pool_diff1_target / h) <= pool_diff1_target / 2 ^ (255 - lz)).
  { etrans; [apply wrap64_le; apply Z.div_pos; unfold pool_diff1_target; lia|].
    apply Z.div_le_compat_l; [unfold pool_diff1_target; lia|].
    split; [apply Z.pow_pos_nonneg; lia|done]. }
  assert (Hd1 : pool_diff1_target < 2 ^ 224) by (unfold pool_diff1_target; lia).
  cbv zeta. destruct (Z.ltb_spec lz 32) as [Hsmall|Hbig]; cbv iota.
  - assert (2 ^ 224 <= 2 ^ (255 - lz)) by (apply Z.pow_le_mono_r; lia).
    rewrite (Z.div_small pool_diff1_target h) by (unfold pool_diff1_target in *; lia).
    done.
  - assert (Hq : pool_diff1_target / 2 ^ (255 - lz) < 2 ^ (lz - 31)).
    { apply Z.div_lt_upper_bound; [apply Z.pow_pos_nonneg; lia|].
      rewrite <-Z.pow_add_r by lia. by replace (255 - lz + (lz - 31)) with 224 by lia. }
    assert (Hcode : 2 ^ (lz - 31) <= 65536 * 2 ^ (lz - 32)).
    { replace (lz - 31) with (1 + (lz - 32)) by lia. rewrite Z.pow_add_r by lia.
      assert (0 < 2 ^ (lz - 32)) by (apply Z.pow_pos_nonneg; lia). lia. }
    assert (Hfit : 65536 * 2 ^ (lz - 32) < 2 ^ 64).
    { change 65536 with (2 ^ 16). rewrite <-Z.pow_add_r by lia.
      apply Z.pow_lt_mono_r; lia. }
    destruct (Z.ltb_spec 0 (lz - 32)) as [Hpos|Hzero]; cbn [andb]; cbv iota.
    + destruct (Z.leb_spec 48 (lz - 32)); [lia|]. cbv iota.
      rewrite Z.shiftl_mul_pow2 by lia.
      assert (0 < 2 ^ (lz - 32)) by (apply Z.pow_pos_nonneg; lia).
      rewrite (wrap64_small (65536 * 2 ^ (lz - 32))) by lia. lia.
    + replace (lz - 32) with 0 in Hcode by lia. change (2 ^ 0) with 1 in Hcode. lia.
Qed.

(** * Properties of the further parts *)

(** *** Pay per share *)

Lemma wrap64_add_l a b : wrap64 (wrap64 a + b) = wrap64 (a + b).
Proof. unfold wrap64. by rewrite Zplus_mod_idemp_l. Qed.

Lemma pps_fold rps (l : list Share) m :
  foldl (pps_share rps) ∅ l !! m
  = if decide (miner_count m l = 0) then None
    else Some (wrap64 (miner_count m l * rps)).
Proof.
  induction l as [|x l IH] using rev_ind.
  - done.
  - rewrite foldl_snoc, miner_count_snoc. unfold pps_share at 1.
    pose proof (miner_count_range m l) as Hrange.
    destruct (valid x) eqn:Hvalid; cbn [andb].
    + destruct (decide (share_miner_id x = m)) as [->|Hne].
      * rewrite lookup_insert_eq, bool_decide_eq_true_2 by done.
        rewrite IH. destruct (decide (miner_count m l = 0)) as [Hz|Hz].
        -- rewrite Hz. cbn. rewrite decide_False by lia. do 2 f_equal. lia.
        -- cbn. rewrite decide_False by lia. rewrite wrap64_add_l. do 2 f_equal. lia.
      * rewrite lookup_insert_ne, bool_decide_eq_false_2 by done.
        rewrite IH, Z.add_0_r. done.
    + rewrite IH, Z.add_0_r. done.
Qed.

(** X1. PayoutCalculator::CalculatePPS pays every miner its number of valid
    shares times the per-share reward (block_reward - fee) /
    expected_shares_per_block (integer division; the product is taken modulo
    2^64), and a miner without a valid share gets no entry. With
    expected_shares_per_block = 0 the division is by zero and the call has
    no defined result. The conversion of the fee is assumed to be defined. *)
Theorem CalculatePPS_per_share shares expected reward pool_fee fee :
  CalculateFee reward pool_fee = Some fee →
  (expected = 0 → CalculatePPS shares expected reward pool_fee = None) ∧
  (expected ≠ 0 →
   ∃ payouts,
     CalculatePPS shares expected reward pool_fee = Some payouts ∧
     ∀ m, payouts !! m
          = if decide (miner_count m shares = 0) then None
            else Some (wrap64 (miner_count m shares
                               * (wrap64 (reward - fee) / expected)))).
Proof.
  intros Hfee. unfold CalculatePPS. rewrite Hfee. cbn. split.
  - intros ->. done.
  - intros Hne. destruct (Z.eqb_spec expected 0) as [|_]; [done|].
    eexists. split; [done|]. intros m. apply pps_fold.
Qed.

Lemma CalculatePPS_per_share_witness :
  CalculateFee 100000000 1 = Some 1000000 ∧
  ∃ payouts,
    CalculatePPS literal_shares 1000 100000000 1 = Some payouts ∧
    payouts !! 1 = Some 29700000 ∧ payouts !! 4 = None.
Proof.
  split; [by vm_compute|].
  destruct (CalculatePPS_per_share literal_shares 1000 100000000 1 1000000)
    as [_ H]; [by vm_compute|].
  destruct H as (payouts & Heq & Hall); [done|].
  exists payouts. split; [done|]. split.
  - rewrite Hall. by vm_compute.
  - rewrite Hall. by vm_compute.
Defined.

(** X2. MiningPoolServer::CalculatePPSPayouts of pool.cpp has a defined
    result exactly when 0 < initial_difficulty <= network difficulty: with
    an initial difficulty of 0, or one above the network difficulty,
    CalculateExpectedShares returns 0 and CalculatePPS divides by zero. The
    conversion of the fee is assumed to be defined and both difficulties
    non-negative. *)
Theorem CalculatePPSPayouts_defined env p fee :
  CalculateFee (50 * 100000000) (pool_fee_percent (config_ p)) = Some fee →
  0 <= network_difficulty env →
  0 <= initial_difficulty (config_ p) →
  (is_Some (CalculatePPSPayouts env p)
   ↔ 0 < initial_difficulty (config_ p) <= network_difficulty env).
Proof.
  intros Hfee Hnd Hinit. unfold CalculatePPSPayouts, CalculatePPS, CalculateExpectedShares.
  rewrite Hfee. cbn.
  destruct (Z.eqb_spec (initial_difficulty (config_ p)) 0) as [Hz|Hz].
  - rewrite Hz. cbn. split; [by intros [? ?]|lia].
  - destruct (Z.eqb_spec (network_difficulty env / initial_difficulty (config_ p)) 0)
      as [Hq|Hq].
    + split; [by intros [? ?]|]. intros [? Hle].
      apply Z.div_small_iff in Hq; lia.
    + split; [|by eexists]. intros _. split; [lia|].
      destruct (Z.le_gt_cases (initial_difficulty (config_ p)) (network_difficulty env));
        [done|].
      rewrite Z.div_small in Hq by lia. done.
Qed.

Lemma CalculatePPSPayouts_defined_witness :
  CalculatePPSPayouts (demo_env 0 999) demo_pool_ready = None ∧
  is_Some (CalculatePPSPayouts (demo_env 0 1000) demo_pool_ready).
Proof.
  split.
  - destruct (CalculatePPSPayouts (demo_env 0 999) demo_pool_ready) eqn:Heq; [|done].
    exfalso.
    assert (is_Some (CalculatePPSPayouts (demo_env 0 999) demo_pool_ready)) as Hs
      by (by rewrite Heq).
    apply (CalculatePPSPayouts_defined _ _ 50000000) in Hs;
      [vm_compute in Hs; destruct Hs as [_ Hs]; by apply Hs
      |by vm_compute|by vm_compute|by vm_compute].
  - apply (CalculatePPSPayouts_defined _ _ 50000000);
      [by vm_compute|by vm_compute|by vm_compute|by vm_compute].
Defined.

(** *** Queries over the stored shares and payments *)

Lemma miner_shares_loop_spec id count (l acc : list Share) :
  Z.of_nat (length acc) <= count →
  miner_shares_loop id count l acc
  = acc ++ take (Z.to_nat (count - Z.of_nat (length acc)))
                (filter (λ s, share_miner_id s = id) l).
Proof.
  revert acc. induction l as [|s l IH]; intros acc Hacc; cbn [miner_shares_loop].
  - by rewrite filter_nil, take_nil, app_nil_r.
  - destruct (Z.ltb_spec (Z.of_nat (length acc)) count) as [Hlt|Hge].
    + destruct (Z.eqb_spec (share_miner_id s) id) as [Heq|Hne].
      * rewrite IH by (rewrite length_app; cbn; lia).
        rewrite filter_cons_True by done.
        rewrite length_app. cbn [length].
        replace (Z.to_nat (count - Z.of_nat (length acc)))
          with (S (Z.to_nat (count - Z.of_nat (length acc + 1)))) by lia.
        cbn [take]. by rewrite <- app_assoc.
      * rewrite IH by done. by rewrite filter_cons_False.
    + replace (Z.to_nat (count - Z.of_nat (length acc))) with 0%nat by lia.
      by rewrite take_0, app_nil_r.
Qed.

(** X3. GetMinerShares(miner_id, count) returns the last count stored shares
    of that miner (all of them when there are fewer), in the order in which
    they were stored. *)
Theorem GetMinerShares_last id count p :
  0 <= count →
  let mine := filter (λ s, share_miner_id s = id) (recent_shares_ p) in
  GetMinerShares id count p = drop (length mine - Z.to_nat count) mine.
Proof.
  intros Hcount mine. unfold GetMinerShares.
  rewrite miner_shares_loop_spec by (cbn; lia).
  cbn [length app].
  rewrite Z.sub_0_r, filter_reverse, reverse_take, reverse_involutive, length_reverse.
  done.
Qed.

Lemma GetMinerShares_last_witness :
  GetMinerShares 1 1 demo_pool_one_share
  = drop (length (filter (λ s, share_miner_id s = 1) (recent_shares_ demo_pool_one_share))
          - Z.to_nat 1)
         (filter (λ s, share_miner_id s = 1) (recent_shares_ demo_pool_one_share)).
Proof. apply (GetMinerShares_last 1 1 demo_pool_one_share). lia. Defined.

Lemma miner_payments_loop_spec id limit (l acc : list Payment) :
  Z.of_nat (length acc) <= limit →
  miner_payments_loop id limit l acc
  = acc ++ take (Z.to_nat (limit - Z.of_nat (length acc)))
                (filter (λ pay, payment_miner_id pay = id) l).
Proof.
  revert acc. induction l as [|s l IH]; intros acc Hacc; cbn [miner_payments_loop].
  - by rewrite filter_nil, take_nil, app_nil_r.
  - destruct (Z.ltb_spec (Z.of_nat (length acc)) limit) as [Hlt|Hge].
    + destruct (Z.eqb_spec (payment_miner_id s) id) as [Heq|Hne].
      * rewrite IH by (rewrite length_app; cbn; lia).
        rewrite filter_cons_True by done.
        rewrite length_app. cbn [length].
        replace (Z.to_nat (limit - Z.of_nat (length acc)))
          with (S (Z.to_nat (limit - Z.of_nat (length acc + 1)))) by lia.
        cbn [take]. by rewrite <- app_assoc.
      * rewrite IH by done. by rewrite filter_cons_False.
    + replace (Z.to_nat (limit - Z.of_nat (length acc))) with 0%nat by lia.
      by rewrite take_0, app_nil_r.
Qed.

(** X4. GetPaymentHistory(limit) returns the limit most recent payments,
    newest first; GetMinerPaymentHistory(miner_id, limit) returns the limit
    most recent payments of that miner, newest first. *)
Theorem payment_history_newest_first id limit p :
  0 <= limit →
  GetPaymentHistory limit p = take (Z.to_nat limit) (reverse (payment_history_ p)) ∧
  GetMinerPaymentHistory id limit p
  = take (Z.to_nat limit)
         (filter (λ pay, payment_miner_id pay = id) (reverse (payment_history_ p))).
Proof.
  intros Hlimit. split.
  - unfold GetPaymentHistory. cbv zeta.
    destruct (Z.ltb_spec 0 (Z.min limit (Z.of_nat (length (payment_history_ p)))))
      as [Hpos|Hzero].
    + rewrite reverse_drop.
      destruct (Z.min_spec limit (Z.of_nat (length (payment_history_ p))))
        as [[? ->]|[? ->]].
      * f_equal. lia.
      * rewrite !take_ge by (rewrite length_reverse; lia). done.
    + destruct (payment_history_ p) as [|pay h] eqn:Hh.
      * by destruct (Z.to_nat limit).
      * cbn [length] in Hzero.
        replace (Z.to_nat limit) with 0%nat by lia. done.
  - unfold GetMinerPaymentHistory.
    rewrite miner_payments_loop_spec by (cbn; lia).
    cbn [length app]. by rewrite Z.sub_0_r.
Qed.

Lemma payment_history_newest_first_witness :
  GetPaymentHistory 1 (ProcessPayouts (demo_env 10000 1) demo_payout_pool).1
  = [demo_payment] ∧
  GetMinerPaymentHistory 1 1 (ProcessPayouts (demo_env 10000 1) demo_payout_pool).1
  = [demo_payment].
Proof.
  destruct (payment_history_newest_first 1 1
              (ProcessPayouts (demo_env 10000 1) demo_payout_pool).1) as [H1 H2]; [lia|].
  rewrite H1, H2. by vm_compute.
Defined.

(** *** The states an operation of pool.cpp can leave *)

Lemma set_workers_id p : set_workers (workers_ p) p = p.
Proof. by destruct p. Qed.

Lemma AdjustWorkerDifficulty_cases w p p' :
  AdjustWorkerDifficulty w p = Some p' →
  p' = p ∨ ∃ d, p' = update_worker w (set_current_difficulty d) p ∧ 1000 <= d.
Proof.
  unfold AdjustWorkerDifficulty. destruct (workers_ p !! w) as [wk|]; [|intros [= <-]; by left].
  destruct (CalculateDifficulty _ _) as [d|] eqn:Hd; [|done]. cbn.
  destruct (d =? _) eqn:Heq; intros [= <-]; [by left|].
  right. exists d. split; [done|].
  unfold CalculateDifficulty in Hd. destruct (_ <? 3) eqn:Hlen.
  - injection Hd as <-. by rewrite Z.eqb_refl in Heq.
  - cbv zeta in Hd.
    destruct (if PrimFloat.ltb _ _ then _ else _) as [x|]; [|done].
    cbn in Hd. injection Hd as <-. lia.
Qed.

Lemma ProcessValidShare_cases env share p p' :
  ProcessValidShare env share p = Some p' →
  ∃ ws,
    (ws = workers_ p ∨
     ∃ wk, workers_ p !! share_worker_id share = Some wk ∧
       (ws = <[share_worker_id share := worker_accepted (timestamp share) wk]> (workers_ p) ∨
        ∃ d, 1000 <= d ∧
             ws = alter (set_current_difficulty d) (share_worker_id share)
                    (<[share_worker_id share := worker_accepted (timestamp share) wk]>
                       (workers_ p)))) ∧
    p' = set_stats (mkStats (wrap64 (shares_this_round (stats_ p) + 1))
                            (wrap64 (total_shares (stats_ p) + 1))
                            (stats_blocks_found (stats_ p)) (blocks_pending (stats_ p))
                            (last_block_found (stats_ p)))
           (set_rounds (round_add_share (share_miner_id share) (current_round_ p))
                       (round_history_ p) (next_round_id_ p)
              (update_miner (share_miner_id share) (miner_accepted (now env))
                 (set_workers ws p))).
Proof.
  unfold ProcessValidShare.
  destruct (workers_ p !! share_worker_id share) as [wk|] eqn:Hwk; cbn [mbind option_bind].
  - destruct (ShouldAdjust _ _ _).
    + destruct (AdjustWorkerDifficulty _ _) as [q|] eqn:Hadj; [|done].
      apply AdjustWorkerDifficulty_cases in Hadj as [->|(d & -> & Hd)]; intros [= <-].
      * eexists. split; [right; exists wk; split; [done|by left]|done].
      * eexists. split; [right; exists wk; split; [done|right; by exists d]|done].
    + intros [= <-]. eexists. split; [right; exists wk; split; [done|by left]|done].
  - intros [= <-]. exists (workers_ p). split; [by left|]. by rewrite set_workers_id.
Qed.

Lemma UpdateWork_cases env p :
  (UpdateWork env p).1 = p ∨
  (UpdateWork env p).1
  = set_current_work (Some (mkWork (random_job_id env) (wrap64 (best_height env + 1))
                                   (network_difficulty env) (now env) true)) p.
Proof.
  unfold UpdateWork, CreateWork. destruct (block_template_result env); [by right|by left].
Qed.

Lemma ProcessBlockFound_cases env share p :
  ((ProcessBlockFound env share p).1 = p ∧ IsOk (ProcessBlockFound env share p).2 = false) ∨
  ∃ work q,
    current_work_ p = Some work ∧
    IsOk (ProcessBlockFound env share p).2 = true ∧
    q = set_rounds (mkRound (next_round_id_ p) (now env) 0 0 0 0 0 ∅ false)
          (round_history_ p
           ++ [mkRound (round_id (current_round_ p)) (started_at (current_round_ p))
                 (now env) (round_shares_submitted (current_round_ p)) (work_height work)
                 (assembled_block_hash env) (50 * 100000000)
                 (miner_shares (current_round_ p)) true])
          (wrap64 (next_round_id_ p + 1))
          (set_stats (mkStats (shares_this_round (stats_ p)) (total_shares (stats_ p))
                        (wrap64 (stats_blocks_found (stats_ p) + 1))
                        (wrap64 (blocks_pending (stats_ p) + 1)) (now env))
             (update_miner (share_miner_id share) miner_found_block
                (update_worker (share_worker_id share) worker_found_block p))) ∧
    ((ProcessBlockFound env share p).1 = q ∨
     (ProcessBlockFound env share p).1
     = set_current_work (Some (mkWork (random_job_id env) (wrap64 (best_height env + 1))
                                      (network_difficulty env) (now env) true)) q).
Proof.
  unfold ProcessBlockFound. destruct (current_work_ p) as [work|]; [|by left].
  destruct (add_block_result env); [|by left].
  right. eexists work, _. split; [done|]. split; [done|]. split; [reflexivity|].
  cbn [fst]. apply UpdateWork_cases.
Qed.

Lemma CheckInvalidShares_cases env m p :
  CheckInvalidShares env m p = p ∨
  CheckInvalidShares env m p
  = update_miner m (set_ban true (now env + ban_duration (config_ p) * ticks_per_second)) p.
Proof.
  unfold CheckInvalidShares. destruct (ban_on_invalid_share _); cbn; [|by left].
  destruct (miners_ p !! m) as [x|]; [|by left].
  destruct (_ <=? _); [by right|by left].
Qed.

Lemma ValidateShare_ext p q share :
  current_work_ q = current_work_ p → recent_shares_ q = recent_shares_ p →
  ValidateShare q share = ValidateShare p share.
Proof. unfold ValidateShare. by intros -> ->. Qed.

(** The states [SubmitShare] can leave, by the path taken. *)
Lemma SubmitShare_cases env w j n h p p' r :
  SubmitShare env w j n h p = Some (p', r) →
  (workers_ p !! w = None ∧ p' = p ∧ r = Error "Worker not found") ∨
  ∃ worker m p0 share q0,
    workers_ p !! w = Some worker ∧
    m = default 0 (worker_to_miner_ p !! w) ∧
    p0 = set_worker_to_miner (<[w := m]> (worker_to_miner_ p)) p ∧
    share = new_share env p worker m w j n h ∧
    q0 = set_next_share_id (wrap64 (next_share_id_ p + 1)) p0 ∧
    ((miners_ p !! m = None ∧ p' = p0 ∧ r = Error "Miner not found") ∨
     (is_Some (miners_ p !! m) ∧
      ((∃ e, ValidateShare p share = Error e ∧
             r = Error ("Share rejected: " ++ e) ∧
             p' = CheckInvalidShares env m
                    (update_miner m miner_rejected
                       (update_worker w worker_rejected q0))) ∨
       (ValidateShare p share = Ok true ∧
        ∃ q1, ProcessValidShare env (set_share_valid true "" share) q0 = Some q1 ∧
          ((IsValidBlock h (network_difficulty env) = false ∧ r = Ok tt ∧
            p' = store_share (set_share_valid true "" share) q1) ∨
           (IsValidBlock h (network_difficulty env) = true ∧
            p' = (ProcessBlockFound env (set_is_block true (set_share_valid true "" share))
                    q1).1 ∧
            IsOk (ProcessBlockFound env (set_is_block true (set_share_valid true "" share))
                    q1).2 = false ∧
            ∃ e, r = Error ("Share accepted but block processing failed: " ++ e)) ∨
           (IsValidBlock h (network_difficulty env) = true ∧ r = Ok tt ∧
            IsOk (ProcessBlockFound env (set_is_block true (set_share_valid true "" share))
                    q1).2 = true ∧
            p' = store_share (set_is_block true (set_share_valid true "" share))
                   (ProcessBlockFound env
                      (set_is_block true (set_share_valid true "" share)) q1).1)))))).
Proof.
  unfold SubmitShare.
  destruct (workers_ p !! w) as [worker|] eqn:Hw; [|intros [= <- <-]; by left].
  intros H. right.
  set (m := default 0 (worker_to_miner_ p !! w)) in *.
  set (p0 := set_worker_to_miner _ p) in *.
  exists worker, m, p0. do 2 eexists.
  split; [done|]. split; [done|]. split; [done|]. split; [reflexivity|].
  split; [reflexivity|].
  change (miners_ p0) with (miners_ p) in H.
  destruct (miners_ p !! m) as [miner|] eqn:Hm; [|injection H as <- <-; by left].
  right. split; [done|].
  change (new_share env p0 worker m w j n h) with (new_share env p worker m w j n h) in H.
  change (next_share_id_ p0) with (next_share_id_ p) in H.
  rewrite (ValidateShare_ext p) in H by done.
  destruct (ValidateShare p _) as [v|e] eqn:Hval.
  - pose proof (ValidateShare_true _ _ _ Hval) as ->. right. split; [done|].
    destruct (ProcessValidShare env _ _) as [q1|] eqn:Hpv; [|done].
    cbn [mbind option_bind] in H. exists q1. split; [done|].
    destruct (IsValidBlock h (network_difficulty env)).
    + destruct (ProcessBlockFound env _ q1) as [q2 [[]|e2]] eqn:Hpb;
        injection H as <- <-.
      * right. right. done.
      * right. left. split_and!; try done. by exists e2.
    + injection H as <- <-. by left.
  - injection H as <- <-. left. by exists e.
Qed.

(** *** Properties of single workers and miners along a run *)

Lemma map_Forall_alter_local {A} (P : Z → A → Prop) (f : A → A) i (m : gmap Z A) :
  (∀ x, P i x → P i (f x)) → map_Forall P m → map_Forall P (alter f i m).
Proof.
  intros Hf Hm j y. rewrite lookup_alter. case_decide as Hij.
  - subst j. destruct (m !! i) as [x|] eqn:Hx; [|done]. intros [= <-].
    apply Hf. by apply Hm.
  - apply Hm.
Qed.

Lemma run_invariant (I : Pool → Prop) p calls q :
  (∀ p c p', I p → exec p c = Some p' → I p') →
  I p → run p calls = Some q → I q.
Proof.
  intros Hstep. revert p. induction calls as [|c calls IH]; intros p Hp; cbn.
  - by intros [= <-].
  - destruct (exec p c) as [p'|] eqn:Hexec; [|done]. cbn. apply IH. by eapply Hstep.
Qed.

Lemma ProcessPayouts_frame env p :
  workers_ (ProcessPayouts env p).1 = workers_ p ∧
  worker_to_miner_ (ProcessPayouts env p).1 = worker_to_miner_ p ∧
  recent_shares_ (ProcessPayouts env p).1 = recent_shares_ p ∧
  stats_ (ProcessPayouts env p).1 = stats_ p ∧
  current_round_ (ProcessPayouts env p).1 = current_round_ p ∧
  round_history_ (ProcessPayouts env p).1 = round_history_ p ∧
  current_work_ (ProcessPayouts env p).1 = current_work_ p ∧
  username_to_miner_id_ (ProcessPayouts env p).1 = username_to_miner_id_ p ∧
  next_share_id_ (ProcessPayouts env p).1 = next_share_id_ p.
Proof.
  unfold ProcessPayouts.
  apply (foldl_invariant (λ acc,
    workers_ acc.1 = workers_ p ∧ worker_to_miner_ acc.1 = worker_to_miner_ p ∧
    recent_shares_ acc.1 = recent_shares_ p ∧ stats_ acc.1 = stats_ p ∧
    current_round_ acc.1 = current_round_ p ∧ round_history_ acc.1 = round_history_ p ∧
    current_work_ acc.1 = current_work_ p ∧
    username_to_miner_id_ acc.1 = username_to_miner_id_ p ∧
    next_share_id_ acc.1 = next_share_id_ p)); [done|].
  intros [q news] [id miner] _ Hacc. cbn [fst] in *. unfold payout_step.
  destruct (_ <? _); [done|]. by destruct (_ <? _).
Qed.

Section worker_invariant.
Context (P : Z → Worker → Prop).
Hypothesis P_fresh : ∀ id m d t, P id (mkWorker id m 0 0 0 0 0 d 0 [] t true).
Hypothesis P_rejected : ∀ id w, P id w → P id (worker_rejected w).
Hypothesis P_accepted : ∀ id t w, P id w → P id (worker_accepted t w).
Hypothesis P_difficulty :
  ∀ id d w, P id w → 1000 <= d → P id (set_current_difficulty d w).
Hypothesis P_block : ∀ id w, P id w → P id (worker_found_block w).

Lemma ProcessValidShare_workers env share p p' :
  map_Forall P (workers_ p) →
  ProcessValidShare env share p = Some p' → map_Forall P (workers_ p').
Proof using P_accepted P_difficulty.
  intros Hp (ws & Hws & ->)%ProcessValidShare_cases. cbn.
  destruct Hws as [->|(wk & Hwk & [->|(d & Hd & ->)])]; [done|..].
  - apply map_Forall_insert_2; [|done]. apply P_accepted. by eapply Hp.
  - apply map_Forall_alter_local; [intros x Hx; by apply P_difficulty|].
    apply map_Forall_insert_2; [|done]. apply P_accepted. by eapply Hp.
Qed.

Lemma ProcessBlockFound_workers env share p :
  map_Forall P (workers_ p) → map_Forall P (workers_ (ProcessBlockFound env share p).1).
Proof using P_block.
  intros Hp.
  destruct (ProcessBlockFound_cases env share p)
    as [[-> _]|(work & q & _ & _ & -> & [->| ->])]; [done|..];
    cbn; (apply map_Forall_alter_local; [intros x; apply P_block|done]).
Qed.

Lemma SubmitShare_workers_local env wid j n h p q r :
  map_Forall P (workers_ p) →
  SubmitShare env wid j n h p = Some (q, r) → map_Forall P (workers_ q).
Proof using P_rejected P_accepted P_difficulty P_block.
  intros Hp Hsub.
  apply SubmitShare_cases in Hsub
    as [(_ & -> & _)|(worker & m & p0 & share & q0 & Hw & Hm & Hp0 & Hshare & Hq0 & Hsub)];
    [done|].
  assert (workers_ q0 = workers_ p) as Hq0w by (by rewrite Hq0, Hp0).
  destruct Hsub as [(_ & -> & _)|(_ & [(e & _ & _ & ->)|(_ & q1 & Hpv & Hsub)])].
  - by rewrite Hp0.
  - destruct (CheckInvalidShares_frame env m
                (update_miner m miner_rejected (update_worker wid worker_rejected q0)))
      as (_ & _ & -> & _).
    cbn. rewrite Hq0w.
    apply map_Forall_alter_local; [intros x; apply P_rejected|done].
  - apply ProcessValidShare_workers in Hpv; [|by rewrite Hq0w].
    destruct Hsub as [(_ & _ & ->)|[(_ & -> & _)|(_ & _ & _ & ->)]].
    + done.
    + by apply ProcessBlockFound_workers.
    + unfold store_share. cbn [workers_ set_recent_shares].
      by apply ProcessBlockFound_workers.
Qed.

Lemma exec_workers_local p c p' :
  map_Forall P (workers_ p) → exec p c = Some p' → map_Forall P (workers_ p').
Proof using All.
  intros Hp Hexec. destruct c as [env call].
  destruct call as [u a|id a|id|wid|wid j n h|clean| |id d|id|cfg]; cbn in Hexec.
  - injection Hexec as <-. unfold RegisterMiner. case_decide; [done|].
    by destruct (_ <=? _).
  - injection Hexec as <-. unfold UpdatePayoutAddress. by destruct (miners_ p !! id).
  - injection Hexec as <-. unfold AddWorker. destruct (miners_ p !! id); [|done].
    destruct (_ <=? _); [done|]. cbn. by apply map_Forall_insert_2.
  - injection Hexec as <-. unfold RemoveWorker. destruct (workers_ p !! wid); [|done].
    cbn. by apply map_Forall_delete.
  - destruct (SubmitShare env wid j n h p) as [[q r]|] eqn:Hsub; [|done].
    injection Hexec as <-. by eapply SubmitShare_workers_local.
  - injection Hexec as <-. unfold CreateWork. by destruct (block_template_result env).
  - injection Hexec as <-. by destruct (ProcessPayouts_frame env p) as (-> & _).
  - by injection Hexec as <-.
  - by injection Hexec as <-.
  - by injection Hexec as <-.
Qed.

Lemma run_workers_local config start calls p :
  run (initial_pool config start) calls = Some p → map_Forall P (workers_ p).
Proof using All.
  apply (run_invariant (λ p, map_Forall P (workers_ p))).
  - intros ???. apply exec_workers_local.
  - apply map_Forall_empty.
Qed.
End worker_invariant.

Lemma ProcessPayouts_miner_cases env p id miner' :
  miners_ (ProcessPayouts env p).1 !! id = Some miner' →
  ∃ miner, miners_ p !! id = Some miner ∧
    (miner' = miner ∨ miner' = set_balances 0 (paid_balance miner) (now env) miner).
Proof.
  unfold ProcessPayouts.
  apply (foldl_invariant (λ acc, ∀ id miner',
    miners_ acc.1 !! id = Some miner' →
    ∃ miner, miners_ p !! id = Some miner ∧
      (miner' = miner ∨ miner' = set_balances 0 (paid_balance miner) (now env) miner))).
  - intros i x Hx. exists x. split; [done|by left].
  - intros [q news] [i x] Hin%elem_of_map_entries Hacc. cbn [fst] in *.
    unfold payout_step. destruct (_ <? _); [done|]. destruct (_ <? _); [done|].
    cbn. intros k y. destruct (decide (i = k)) as [->|Hne].
    + rewrite lookup_insert_eq. intros [= <-]. exists x. split; [done|by right].
    + rewrite lookup_insert_ne by done. apply Hacc.
Qed.

Section miner_invariant.
Context (P : Z → Miner → Prop).
Hypothesis P_fresh :
  ∀ id u a t, P id (mkMiner id u a ∅ 0 0 0 0 0 0 0 0 0 false 0 t t).
Hypothesis P_address : ∀ id a m, P id m → P id (set_payout_address a m).
Hypothesis P_add :
  ∀ id wid d t m,
    P id m →
    P id (set_miner_workers
            (<[wid := mkWorker wid id 0 0 0 0 0 d 0 [] t true]> (workers m)) m).
Hypothesis P_remove :
  ∀ id wid m, P id m → P id (set_miner_workers (delete wid (workers m)) m).
Hypothesis P_rejected : ∀ id m, P id m → P id (miner_rejected m).
Hypothesis P_accepted : ∀ id t m, P id m → P id (miner_accepted t m).
Hypothesis P_block : ∀ id m, P id m → P id (miner_found_block m).
Hypothesis P_ban : ∀ id b t m, P id m → P id (set_ban b t m).
Hypothesis P_paid : ∀ id t m, P id m → P id (set_balances 0 (paid_balance m) t m).

Lemma ProcessValidShare_miners env share p p' :
  map_Forall P (miners_ p) →
  ProcessValidShare env share p = Some p' → map_Forall P (miners_ p').
Proof using P_accepted.
  intros Hp (ws & _ & ->)%ProcessValidShare_cases. cbn.
  apply map_Forall_alter_local; [|done]. intros x. apply P_accepted.
Qed.

Lemma ProcessBlockFound_miners env share p :
  map_Forall P (miners_ p) → map_Forall P (miners_ (ProcessBlockFound env share p).1).
Proof using P_block.
  intros Hp.
  destruct (ProcessBlockFound_cases env share p)
    as [[-> _]|(work & q & _ & _ & -> & [->| ->])]; [done|..];
    cbn; (apply map_Forall_alter_local; [intros x; apply P_block|done]).
Qed.

Lemma CheckInvalidShares_miners_local env m p :
  map_Forall P (miners_ p) → map_Forall P (miners_ (CheckInvalidShares env m p)).
Proof using P_ban.
  intros Hp. destruct (CheckInvalidShares_cases env m p) as [-> | ->]; [done|].
  cbn. apply map_Forall_alter_local; [intros x; apply P_ban|done].
Qed.

Lemma SubmitShare_miners_local env wid j n h p q r :
  map_Forall P (miners_ p) →
  SubmitShare env wid j n h p = Some (q, r) → map_Forall P (miners_ q).
Proof using P_rejected P_accepted P_block P_ban.
  intros Hp Hsub.
  apply SubmitShare_cases in Hsub
    as [(_ & -> & _)|(worker & m & p0 & share & q0 & Hw & Hm & Hp0 & Hshare & Hq0 & Hsub)];
    [done|].
  assert (miners_ q0 = miners_ p) as Hq0m by (by rewrite Hq0, Hp0).
  destruct Hsub as [(_ & -> & _)|(_ & [(e & _ & _ & ->)|(_ & q1 & Hpv & Hsub)])].
  - by rewrite Hp0.
  - apply CheckInvalidShares_miners_local. cbn. rewrite Hq0m.
    apply map_Forall_alter_local; [intros x; apply P_rejected|done].
  - apply ProcessValidShare_miners in Hpv; [|by rewrite Hq0m].
    destruct Hsub as [(_ & _ & ->)|[(_ & -> & _)|(_ & _ & _ & ->)]].
    + done.
    + by apply ProcessBlockFound_miners.
    + unfold store_share. cbn [miners_ set_recent_shares].
      by apply ProcessBlockFound_miners.
Qed.

Lemma exec_miners_kept p env call p' :
  (∀ u a, call ≠ CallRegisterMiner u a) →
  map_Forall P (miners_ p) → exec p (env, call) = Some p' → map_Forall P (miners_ p').
Proof using P_address P_add P_remove P_rejected P_accepted P_block P_ban P_paid.
  intros Hcall Hp Hexec.
  destruct call as [u a|id a|id|wid|wid j n h|clean| |id d|id|cfg]; cbn in Hexec.
  - by destruct (Hcall u a).
  - injection Hexec as <-. unfold UpdatePayoutAddress.
    destruct (miners_ p !! id); [|done]. cbn.
    apply map_Forall_alter_local; [|done]. intros x. apply P_address.
  - injection Hexec as <-. unfold AddWorker. destruct (miners_ p !! id); [|done].
    destruct (_ <=? _); [done|]. cbn.
    apply map_Forall_alter_local; [|done]. intros x. apply P_add.
  - injection Hexec as <-. unfold RemoveWorker. destruct (workers_ p !! wid); [|done].
    cbn. apply map_Forall_alter_local; [|done]. intros x. apply P_remove.
  - destruct (SubmitShare env wid j n h p) as [[q r]|] eqn:Hsub; [|done].
    injection Hexec as <-. by eapply SubmitShare_miners_local.
  - injection Hexec as <-. unfold CreateWork. by destruct (block_template_result env).
  - injection Hexec as <-. intros i x Hx.
    apply ProcessPayouts_miner_cases in Hx as (x0 & Hx0 & [->| ->]).
    + by eapply Hp.
    + apply P_paid. by eapply Hp.
  - injection Hexec as <-. cbn.
    apply map_Forall_alter_local; [|done]. intros x. apply P_ban.
  - injection Hexec as <-. cbn.
    apply map_Forall_alter_local; [|done]. intros x. apply P_ban.
  - by injection Hexec as <-.
Qed.

Lemma exec_miners_local p c p' :
  map_Forall P (miners_ p) → exec p c = Some p' → map_Forall P (miners_ p').
Proof using All.
  intros Hp Hexec. destruct c as [env call].
  assert ((∃ u a, call = CallRegisterMiner u a) ∨ ∀ u a, call ≠ CallRegisterMiner u a)
    as [(u & a & ->)|Hcall] by (destruct call; (left; by eauto) || by right).
  - cbn in Hexec. injection Hexec as <-. unfold RegisterMiner. case_decide; [done|].
    destruct (_ <=? _); [done|]. cbn. by apply map_Forall_insert_2.
  - by eapply exec_miners_kept.
Qed.

Lemma run_miners_local config start calls p :
  run (initial_pool config start) calls = Some p → map_Forall P (miners_ p).
Proof using All.
  apply (run_invariant (λ p, map_Forall P (miners_ p))).
  - intros ???. apply exec_miners_local.
  - apply map_Forall_empty.
Qed.
End miner_invariant.

(** *** The stored shares along a run *)











(** *** Counters along a run *)





(** X9. None of the ten operations (see X5) writes Worker::last_share_time:
    in every reachable state it is still the epoch, so the elapsed-time test
    of VarDiffManager::ShouldAdjust compares the retarget time with the
    clock reading itself (the seconds since the epoch) and not with the time
    since the last share. HandleSubmit of pool.cpp, which is not among the
    ten operations, does set the field. *)
Theorem last_share_time_never_set config start calls p id w t :
  run (initial_pool config start) calls = Some p →
  workers_ p !! id = Some w →
  last_share_time w = 0 ∧
  ShouldAdjust (vardiff_ p) t w
  = PrimFloat.leb (retarget_time_ (vardiff_ p)) (Double.of_i64 (duration_cast_seconds t))
    && (3 <=? Z.of_nat (length (recent_shares w))).
Proof.
  intros Hrun Hw.
  assert (last_share_time w = 0) as Hzero.
  { revert Hrun id w Hw. apply (run_workers_local (λ _ w, last_share_time w = 0));
      by intros. }
  split; [done|]. unfold ShouldAdjust. by rewrite Hzero, Z.sub_0_r.
Qed.

Lemma last_share_time_never_set_witness :
  run (initial_pool demo_config 0) demo_one_share = Some demo_pool_one_share ∧
  (last_share_time <$> workers_ demo_pool_one_share !! 1) = Some 0 ∧
  (recent_shares <$> workers_ demo_pool_one_share !! 1) = Some [10 * ticks_per_second].
Proof.
  split; [by vm_compute|]. split; [|by vm_compute].
  destruct (workers_ demo_pool_one_share !! 1) as [w|] eqn:Hw; [|by vm_compute in Hw].
  cbn. f_equal.
  apply (last_share_time_never_set demo_config 0 demo_one_share demo_pool_one_share 1 w 0);
    [by vm_compute|done].
Defined.

(** *** Balances along a run *)

Lemma ProcessPayouts_amounts env p :
  payment_history_ (ProcessPayouts env p).1 = payment_history_ p ++ (ProcessPayouts env p).2 ∧
  ∀ pay, pay ∈ (ProcessPayouts env p).2 →
    ∃ miner, miners_ p !! payment_miner_id pay = Some miner ∧
             amount pay = unpaid_balance miner ∧
             min_payout (config_ p) <= unpaid_balance miner.
Proof.
  unfold ProcessPayouts.
  apply (foldl_invariant (λ acc,
    config_ acc.1 = config_ p ∧
    payment_history_ acc.1 = payment_history_ p ++ acc.2 ∧
    ∀ pay, pay ∈ acc.2 →
      ∃ miner, miners_ p !! payment_miner_id pay = Some miner ∧
               amount pay = unpaid_balance miner ∧
               min_payout (config_ p) <= unpaid_balance miner)).
  - split; [done|]. split; [by rewrite app_nil_r|]. by intros pay ?%elem_of_nil.
  - intros [q news] [id miner] Hin%elem_of_map_entries (Hcfg & Hhist & Hpays).
    cbn [fst snd] in *. unfold payout_step.
    destruct (Z.ltb_spec (unpaid_balance miner) (min_payout (config_ q))) as [|Hmin];
      [done|].
    destruct (_ <? _); [done|]. cbn [fst snd config_ set_miners set_payments payment_history_].
    split; [done|]. split; [by rewrite Hhist, app_assoc|].
    intros pay [Hpay|Hpay%list_elem_of_singleton]%elem_of_app; [by apply Hpays|].
    subst pay. cbn. exists miner. rewrite <- Hcfg. done.
Qed.

Lemma exec_payment_history p c p' :
  exec p c = Some p' →
  payment_history_ p' = payment_history_ p ∨
  ∃ env, payment_history_ p' = payment_history_ p ++ (ProcessPayouts env p).2.
Proof.
  intros Hexec. destruct c as [env call].
  destruct call as [u a|id a|id|wid|wid j n h|clean| |id d|id|cfg]; cbn in Hexec.
  - injection Hexec as <-. left. unfold RegisterMiner. case_decide; [done|].
    by destruct (_ <=? _).
  - injection Hexec as <-. left. unfold UpdatePayoutAddress. by destruct (miners_ p !! id).
  - injection Hexec as <-. left. unfold AddWorker. destruct (miners_ p !! id); [|done].
    by destruct (_ <=? _).
  - injection Hexec as <-. left. unfold RemoveWorker. by destruct (workers_ p !! wid).
  - destruct (SubmitShare env wid j n h p) as [[q r]|] eqn:Hsub; [|done].
    injection Hexec as <-. left. by apply SubmitShare_ledger in Hsub as [? _].
  - injection Hexec as <-. left. unfold CreateWork. by destruct (block_template_result env).
  - injection Hexec as <-. right. exists env. apply ProcessPayouts_amounts.
  - injection Hexec as <-. by left.
  - injection Hexec as <-. by left.
  - injection Hexec as <-. by left.
Qed.

Lemma run_balances_zero config start calls p :
  run (initial_pool config start) calls = Some p →
  map_Forall (λ _ m, unpaid_balance m = 0 ∧ paid_balance m = 0
                     ∧ estimated_earnings m = 0) (miners_ p).
Proof.
  apply (run_miners_local (λ _ m, unpaid_balance m = 0 ∧ paid_balance m = 0
                                  ∧ estimated_earnings m = 0)); try (by intros).
  intros _ t m (? & ? & ?). done.
Qed.

(** X10. The server of pool.cpp never credits a miner: in every state
    reached by the ten operations (see X5) every miner has unpaid balance 0
    and estimated earnings 0 (GetMinerBalance and GetMinerEstimatedEarnings
    return 0), every payment in the history has amount 0, and with
    min_payout > 0 ProcessPayouts creates no payment. *)
Theorem pool_cpp_never_credits config start calls p :
  run (initial_pool config start) calls = Some p →
  (∀ id, GetMinerBalance id p = 0 ∧ GetMinerEstimatedEarnings id p = 0) ∧
  Forall (λ pay, amount pay = 0) (payment_history_ p) ∧
  (∀ env, 0 < min_payout (config_ p) → (ProcessPayouts env p).2 = []).
Proof.
  intros Hrun. pose proof (run_balances_zero _ _ _ _ Hrun) as Hzero. split; [|split].
  - intros id. unfold GetMinerBalance, GetMinerEstimatedEarnings, GetMiner.
    destruct (miners_ p !! id) as [m|] eqn:Hm; [|done].
    by destruct (Hzero id m Hm) as (-> & _ & ->).
  - clear Hzero. revert Hrun.
    assert (∀ calls q, run (initial_pool config start) calls = Some q →
              map_Forall (λ _ m, unpaid_balance m = 0 ∧ paid_balance m = 0
                                 ∧ estimated_earnings m = 0) (miners_ q)
              ∧ Forall (λ pay, amount pay = 0) (payment_history_ q)) as Hboth;
      [|intros Hrun; by apply (Hboth calls p)].
    clear calls p. intros calls q Hrun. split; [by eapply run_balances_zero|].
    revert q Hrun. induction calls as [|c calls IH] using rev_ind; intros q.
    + cbn. by intros [= <-].
    + rewrite run_snoc. destruct (run (initial_pool config start) calls) as [q0|] eqn:Hq0;
        [|done].
      cbn. intros Hexec.
      pose proof (run_balances_zero _ _ _ _ Hq0) as Hzero.
      apply exec_payment_history in Hexec as [->|[env ->]]; [by apply IH|].
      apply Forall_app. split; [by apply IH|].
      apply Forall_forall. intros pay Hpay.
      apply ProcessPayouts_amounts in Hpay as (m & Hm & -> & _).
      by destruct (Hzero _ m Hm) as (-> & _).
  - intros env Hmin.
    destruct ((ProcessPayouts env p).2) as [|pay l] eqn:Hl; [done|].
    assert (pay ∈ (ProcessPayouts env p).2) as Hpay by (rewrite Hl; left).
    apply ProcessPayouts_amounts in Hpay as (m & Hm & _ & Hle).
    destruct (Hzero _ m Hm) as (Hu & _). lia.
Qed.

Lemma pool_cpp_never_credits_witness :
  run (initial_pool demo_config 0) demo_one_share = Some demo_pool_one_share ∧
  (total_shares_accepted <$> miners_ demo_pool_one_share !! 1) = Some 1 ∧
  GetMinerBalance 1 demo_pool_one_share = 0 ∧
  (ProcessPayouts (demo_env 10000 1) demo_pool_one_share).2 = [].
Proof.
  split; [by vm_compute|]. split; [by vm_compute|].
  destruct (pool_cpp_never_credits demo_config 0 demo_one_share demo_pool_one_share)
    as (Hbal & _ & Hsweep); [by vm_compute|].
  split; [exact (proj1 (Hbal 1))|].
  refine (Hsweep (demo_env 10000 1) _). by vm_compute.
Defined.

(** *** Rounds along a run *)

Lemma wrap64_idemp z : wrap64 (wrap64 z) = wrap64 z.
Proof. unfold wrap64. by rewrite Zmod_mod. Qed.




(** *** Workers and their miners *)

Lemma alter_is_Some {A} (f : A → A) i j (m : gmap Z A) :
  is_Some (alter f i m !! j) ↔ is_Some (m !! j).
Proof.
  rewrite lookup_alter. case_decide; [subst|done].
  destruct (m !! j); cbn; split; intros [? ?]; done || by eexists.
Qed.

Lemma SubmitShare_miners_dom env w j n h p p' r m :
  SubmitShare env w j n h p = Some (p', r) →
  is_Some (miners_ p' !! m) ↔ is_Some (miners_ p !! m).
Proof.
  intros Hsub.
  apply SubmitShare_cases in Hsub
    as [(_ & -> & _)|(worker & m0 & p0 & share & q0 & Hw & Hm & Hp0 & Hshare & Hq0 & Hsub)];
    [done|].
  assert (miners_ q0 = miners_ p) as Hq0m by (by rewrite Hq0, Hp0).
  destruct Hsub as [(_ & -> & _)|(_ & [(e & _ & _ & ->)|(_ & q1 & Hpv & Hsub)])].
  - by rewrite Hp0.
  - destruct (CheckInvalidShares_frame env m0
                (update_miner m0 miner_rejected (update_worker w worker_rejected q0)))
      as ([-> | ->] & _); cbn; rewrite ?alter_is_Some, Hq0m; by rewrite ?alter_is_Some.
  - apply ProcessValidShare_frame in Hpv as (Hq1 & _). rewrite Hq0m in Hq1.
    assert (is_Some (miners_ q1 !! m) ↔ is_Some (miners_ p !! m)) as H1
      by (by rewrite Hq1, alter_is_Some).
    assert (∀ s, is_Some (miners_ (ProcessBlockFound env s q1).1 !! m)
                 ↔ is_Some (miners_ p !! m)) as H2.
    { intros s. destruct (ProcessBlockFound_frame env s q1) as ([-> | ->] & _);
        by rewrite ?alter_is_Some. }
    destruct Hsub as [(_ & _ & ->)|[(_ & -> & _)|(_ & _ & _ & ->)]];
      unfold store_share; cbn [miners_ set_recent_shares]; done.
Qed.

Lemma SubmitShare_worker_to_miner env w j n h p p' r :
  SubmitShare env w j n h p = Some (p', r) →
  worker_to_miner_ p' = worker_to_miner_ p ∨
  worker_to_miner_ p' = <[w := default 0 (worker_to_miner_ p !! w)]> (worker_to_miner_ p).
Proof.
  intros Hsub.
  apply SubmitShare_cases in Hsub
    as [(_ & -> & _)|(worker & m0 & p0 & share & q0 & Hw & Hm & Hp0 & Hshare & Hq0 & Hsub)];
    [by left|].
  right. rewrite <- Hm.
  assert (worker_to_miner_ q0 = <[w := m0]> (worker_to_miner_ p)) as Hq0m
    by (by rewrite Hq0, Hp0).
  destruct Hsub as [(_ & -> & _)|(_ & [(e & _ & _ & ->)|(_ & q1 & Hpv & Hsub)])].
  - by rewrite Hp0.
  - match goal with |- context [CheckInvalidShares env m0 ?q] =>
      destruct (CheckInvalidShares_cases env m0 q) as [-> | ->] end; cbn; by rewrite Hq0m.
  - apply ProcessValidShare_cases in Hpv as (ws & _ & Hq1).
    assert (worker_to_miner_ q1 = <[w := m0]> (worker_to_miner_ p)) as H1
      by (rewrite Hq1; cbn; by rewrite Hq0m).
    assert (∀ s, worker_to_miner_ (ProcessBlockFound env s q1).1
                 = <[w := m0]> (worker_to_miner_ p)) as H2.
    { intros s. destruct (ProcessBlockFound_cases env s q1)
        as [[-> _]|(work & q2 & _ & _ & -> & [->| ->])]; [done|..]; cbn; by rewrite H1. }
    destruct Hsub as [(_ & _ & ->)|[(_ & -> & _)|(_ & _ & _ & ->)]];
      unfold store_share; cbn [worker_to_miner_ set_recent_shares]; done.
Qed.

Lemma SubmitShare_workers_view env w j n h p p' r id wk' :
  SubmitShare env w j n h p = Some (p', r) →
  workers_ p' !! id = Some wk' →
  ∃ wk, workers_ p !! id = Some wk ∧
        worker_id wk' = worker_id wk ∧ worker_miner_id wk' = worker_miner_id wk.
Proof.
  intros Hsub.
  revert id wk'.
  refine (SubmitShare_workers_local
            (λ id wk', ∃ wk, workers_ p !! id = Some wk ∧
                             worker_id wk' = worker_id wk ∧
                             worker_miner_id wk' = worker_miner_id wk)
            _ _ _ _ env w j n h p p' r _ Hsub).
  - intros id x (wk & ? & ? & ?). by exists wk.
  - intros id t x (wk & ? & ? & ?). by exists wk.
  - intros id d x (wk & ? & ? & ?) _. by exists wk.
  - intros id x (wk & ? & ? & ?). by exists wk.
  - intros id wk Hwk. by exists wk.
Qed.

Lemma ProcessPayouts_miners_dom env p m :
  is_Some (miners_ p !! m) → is_Some (miners_ (ProcessPayouts env p).1 !! m).
Proof.
  intros Hm. unfold ProcessPayouts.
  apply (foldl_invariant (λ acc, is_Some (miners_ acc.1 !! m))); [done|].
  intros [q news] [i x] _ Hacc. cbn [fst] in *. unfold payout_step.
  destruct (_ <? _); [done|]. destruct (_ <? _); [done|]. cbn.
  by apply lookup_insert_is_Some'; right.
Qed.

(** X12. In every state reached by the ten operations (see X5) each worker
    in workers_ is stored under its own worker_id, worker_to_miner_ maps it
    to its miner_id, and that miner exists; so SubmitShare for an existing
    worker never answers Worker not found or Miner not found. *)
Theorem workers_belong_to_miners config start calls p w wk :
  run (initial_pool config start) calls = Some p →
  workers_ p !! w = Some wk →
  worker_id wk = w ∧
  worker_to_miner_ p !! w = Some (worker_miner_id wk) ∧
  is_Some (GetMiner (worker_miner_id wk) p) ∧
  ∀ env j n h p' r,
    SubmitShare env w j n h p = Some (p', r) →
    r ≠ Error "Worker not found" ∧ r ≠ Error "Miner not found".
Proof.
  intros Hrun Hwk.
  assert (worker_id wk = w ∧
          worker_to_miner_ p !! w = Some (worker_miner_id wk) ∧
          is_Some (miners_ p !! worker_miner_id wk)) as (Hid & Hw2m & Hminer).
  { revert Hrun w wk Hwk.
    apply (run_invariant (λ p, ∀ w wk, workers_ p !! w = Some wk →
      worker_id wk = w ∧
      worker_to_miner_ p !! w = Some (worker_miner_id wk) ∧
      is_Some (miners_ p !! worker_miner_id wk))); [|done].
    intros q c q' Hq Hexec.
    assert (∀ q',
      (∀ w wk', workers_ q' !! w = Some wk' →
         ∃ wk, workers_ q !! w = Some wk ∧
               worker_id wk' = worker_id wk ∧ worker_miner_id wk' = worker_miner_id wk) →
      (∀ w, is_Some (workers_ q !! w) → worker_to_miner_ q' !! w = worker_to_miner_ q !! w) →
      (∀ m, is_Some (miners_ q !! m) → is_Some (miners_ q' !! m)) →
      ∀ w wk, workers_ q' !! w = Some wk →
        worker_id wk = w ∧
        worker_to_miner_ q' !! w = Some (worker_miner_id wk) ∧
        is_Some (miners_ q' !! worker_miner_id wk)) as Hframe.
    { intros q2 Hws Hw2m Hms w wk' Hwk'.
      destruct (Hws w wk' Hwk') as (wk & Hwk & -> & ->).
      destruct (Hq w wk Hwk) as (? & ? & ?). split; [done|].
      split; [by rewrite Hw2m|]. by apply Hms. }
    destruct c as [env call].
    destruct call as [u a|id a|id|wid|wid j n h|clean| |id d|id|cfg]; cbn in Hexec.
    - injection Hexec as <-. unfold RegisterMiner. case_decide; [done|].
      destruct (_ <=? _); [done|]. cbn [fst]. apply Hframe; cbn.
      + intros w wk' ?. by exists wk'.
      + done.
      + intros m0 Hm. by apply lookup_insert_is_Some'; right.
    - injection Hexec as <-. unfold UpdatePayoutAddress.
      destruct (miners_ q !! id) as [miner|]; [|done]. cbn [fst]. apply Hframe; cbn.
      + intros w wk' ?. by exists wk'.
      + done.
      + intros m0 Hm. by apply alter_is_Some.
    - injection Hexec as <-. unfold AddWorker.
      destruct (miners_ q !! id) as [miner|] eqn:Hminer; [|done].
      destruct (_ <=? _); [done|]. cbn. intros w wk'.
      destruct (decide (next_worker_id_ q = w)) as [<-|Hne].
      + rewrite !lookup_insert_eq. intros [= <-]. cbn.
        split; [done|]. split; [done|]. apply alter_is_Some. by rewrite Hminer.
      + rewrite !lookup_insert_ne by done. intros Hwk'.
        destruct (Hq w wk' Hwk') as (? & ? & ?). split; [done|]. split; [done|].
        by apply alter_is_Some.
    - injection Hexec as <-. unfold RemoveWorker.
      destruct (workers_ q !! wid) as [wk0|] eqn:Hwid; [|done]. cbn. intros w wk'.
      destruct (decide (wid = w)) as [<-|Hne].
      + by rewrite lookup_delete_eq.
      + rewrite !lookup_delete_ne by done. intros Hwk'.
        destruct (Hq w wk' Hwk') as (? & ? & ?). split; [done|]. split; [done|].
        by apply alter_is_Some.
    - destruct (SubmitShare env wid j n h q) as [[q2 r]|] eqn:Hsub; [|done].
      injection Hexec as <-. apply Hframe.
      + intros w wk'. by eapply SubmitShare_workers_view.
      + intros w [wk Hwk].
        destruct (SubmitShare_worker_to_miner _ _ _ _ _ _ _ _ Hsub) as [-> | ->]; [done|].
        destruct (decide (wid = w)) as [<-|Hne]; [|by rewrite lookup_insert_ne].
        rewrite lookup_insert_eq. destruct (Hq wid wk Hwk) as (_ & -> & _). done.
      + intros m0 Hm. by eapply SubmitShare_miners_dom.
    - injection Hexec as <-. unfold CreateWork. by destruct (block_template_result env).
    - injection Hexec as <-. apply Hframe.
      + intros w wk'. destruct (ProcessPayouts_frame env q) as (-> & _).
        intros ?. by exists wk'.
      + intros w _. by destruct (ProcessPayouts_frame env q) as (_ & -> & _).
      + intros m0. apply ProcessPayouts_miners_dom.
    - injection Hexec as <-. apply Hframe; cbn.
      + intros w wk' ?. by exists wk'.
      + done.
      + intros m0 Hm. by apply alter_is_Some.
    - injection Hexec as <-. apply Hframe; cbn.
      + intros w wk' ?. by exists wk'.
      + done.
      + intros m0 Hm. by apply alter_is_Some.
    - by injection Hexec as <-. }
  split; [done|]. split; [done|]. split; [done|].
  intros env j n h p' r Hsub.
  apply SubmitShare_cases in Hsub
    as [(Hnone & _)|(worker & m & p0 & share & q0 & _ & Hm & _ & _ & _ & Hsub)];
    [by rewrite Hwk in Hnone|].
  rewrite Hw2m in Hm. cbn in Hm. subst m.
  destruct Hsub as [(Hnone & _)|(_ & [(e & _ & -> & _)|(_ & q1 & _ & Hsub)])].
  - rewrite Hnone in Hminer. by destruct Hminer.
  - done.
  - destruct Hsub as [(_ & -> & _)|[(_ & _ & _ & e & ->)|(_ & -> & _)]]; done.
Qed.

Lemma workers_belong_to_miners_witness :
  run (initial_pool demo_config 0) demo_setup = Some demo_pool_ready ∧
  workers_ demo_pool_ready !! 1
  = Some (mkWorker 1 1 0 0 0 0 0 1000 0 [] 0 true) ∧
  worker_to_miner_ demo_pool_ready !! 1 = Some 1 ∧
  is_Some (GetMiner 1 demo_pool_ready).
Proof.
  split; [by vm_compute|]. split; [by vm_compute|].
  destruct (workers_belong_to_miners demo_config 0 demo_setup demo_pool_ready 1
              (mkWorker 1 1 0 0 0 0 0 1000 0 [] 0 true)) as (_ & H1 & H2 & _);
    [by vm_compute|by vm_compute|].
  split; [exact H1|exact H2].
Defined.

(** *** The payout sweep, miner by miner *)

Lemma sweep_step_with_due new_paid env (acc : Pool * list Payment) id miner :
  sweep_step_with new_paid env acc (id, miner)
  = if payout_due env (config_ acc.1) miner
    then (set_miners (<[id := set_balances 0 (new_paid miner) (now env) miner]>
                        (miners_ acc.1))
            (set_payments
               (payment_history_ acc.1
                ++ [mkPayment (next_payment_id_ acc.1) id (payout_address miner)
                      (unpaid_balance miner) (now env) false "pending"])
               (wrap64 (next_payment_id_ acc.1 + 1)) acc.1),
          acc.2 ++ [mkPayment (next_payment_id_ acc.1) id (payout_address miner)
                      (unpaid_balance miner) (now env) false "pending"])
    else acc.
Proof.
  destruct acc as [q news]. unfold sweep_step_with, payout_due. cbn [fst snd].
  rewrite (Z.leb_antisym (unpaid_balance miner)), (Z.leb_antisym (duration_cast_seconds _)).
  destruct (_ <? _); [done|]. by destruct (_ <? _).
Qed.

Lemma payments_to_app id l k : payments_to id (l ++ k) = payments_to id l ++ payments_to id k.
Proof. unfold payments_to. apply filter_app. Qed.

Lemma sweep_fold new_paid env cfg (l : list (Z * Miner)) acc :
  NoDup l.*1 → config_ acc.1 = cfg →
  config_ (foldl (sweep_step_with new_paid env) acc l).1 = cfg ∧
  ∀ id,
    (id ∉ l.*1 →
     miners_ (foldl (sweep_step_with new_paid env) acc l).1 !! id = miners_ acc.1 !! id ∧
     payments_to id (foldl (sweep_step_with new_paid env) acc l).2 = payments_to id acc.2) ∧
    (∀ miner, (id, miner) ∈ l →
       if payout_due env cfg miner
       then miners_ (foldl (sweep_step_with new_paid env) acc l).1 !! id
            = Some (set_balances 0 (new_paid miner) (now env) miner) ∧
            ∃ pid, payments_to id (foldl (sweep_step_with new_paid env) acc l).2
                   = payments_to id acc.2
                     ++ [mkPayment pid id (payout_address miner) (unpaid_balance miner)
                           (now env) false "pending"]
       else miners_ (foldl (sweep_step_with new_paid env) acc l).1 !! id
            = miners_ acc.1 !! id ∧
            payments_to id (foldl (sweep_step_with new_paid env) acc l).2
            = payments_to id acc.2).
Proof.
  revert acc. induction l as [|[i x] l IH]; intros acc Hnodup Hcfg.
  - cbn. split; [done|]. intros id. split; [done|]. by intros miner ?%elem_of_nil.
  - cbn [foldl]. cbn [fmap list_fmap fst] in Hnodup.
    apply NoDup_cons in Hnodup as [Hi Hnodup].
    set (acc' := sweep_step_with new_paid env acc (i, x)).
    assert (config_ acc'.1 = cfg) as Hcfg'.
    { subst acc'. rewrite sweep_step_with_due. by destruct (payout_due _ _ _). }
    assert (∀ id, id ≠ i → miners_ acc'.1 !! id = miners_ acc.1 !! id ∧
                           payments_to id acc'.2 = payments_to id acc.2) as Hother.
    { intros id Hne. subst acc'. rewrite sweep_step_with_due.
      destruct (payout_due _ _ _); [|done]. cbn [fst snd miners_ set_miners].
      rewrite lookup_insert_ne by done.
      split; [done|]. rewrite payments_to_app. unfold payments_to at 2.
      rewrite filter_cons_False by (cbn; congruence). by rewrite filter_nil, app_nil_r. }
    destruct (IH acc' Hnodup Hcfg') as [Hres Hall]. split; [done|].
    intros id. destruct (Hall id) as [Hout Hin]. split.
    + intros Hid. apply not_elem_of_cons in Hid as [Hne Hid].
      destruct (Hout Hid) as [-> ->]. by apply Hother.
    + intros miner [[= -> ->]|Hmem]%elem_of_cons.
      * destruct (Hall i) as [Houti _]. destruct (Houti Hi) as [-> ->].
        subst acc'. rewrite sweep_step_with_due, Hcfg.
        destruct (payout_due env cfg x); [|done]. cbn [fst snd miners_ set_miners].
        rewrite lookup_insert_eq.
        split; [done|]. eexists. rewrite payments_to_app. f_equal.
        unfold payments_to. by rewrite filter_cons_True, filter_nil.
      * assert (id ≠ i) as Hne.
        { intros ->. apply Hi. apply list_elem_of_fmap. by exists (i, miner). }
        destruct (Hother id Hne) as [<- <-]. by apply Hin.
Qed.

Lemma sweep_per_miner new_paid env p id miner :
  miners_ p !! id = Some miner →
  let res := foldl (sweep_step_with new_paid env) (p, []) (map_entries (miners_ p)) in
  if payout_due env (config_ p) miner
  then miners_ res.1 !! id = Some (set_balances 0 (new_paid miner) (now env) miner) ∧
       ∃ pid, payments_to id res.2
              = [mkPayment pid id (payout_address miner) (unpaid_balance miner)
                   (now env) false "pending"]
  else miners_ res.1 !! id = Some miner ∧ payments_to id res.2 = [].
Proof.
  intros Hm res.
  destruct (sweep_fold new_paid env (config_ p) (map_entries (miners_ p)) (p, []))
    as [_ Hall]; [apply NoDup_fst_map_entries|done|].
  destruct (Hall id) as [_ Hin]. specialize (Hin miner).
  rewrite elem_of_map_entries in Hin. specialize (Hin Hm). fold res in Hin.
  destruct (payout_due env (config_ p) miner); cbn in Hin; by rewrite ?Hm in Hin.
Qed.

(** X13. One call of ProcessPayouts treats each miner on its own. A miner
    whose unpaid balance is at least min_payout and whose last payout is at
    least payout_interval ago gets exactly one pending payment of the whole
    unpaid balance to its payout address; its unpaid balance becomes 0 and
    last_payout the current time (mining_pool_server.cpp also adds the
    amount to paid_balance, pool.cpp leaves paid_balance as it is). Every
    other miner is left unchanged and gets no payment. *)
Theorem payout_sweep_per_miner env p id miner :
  miners_ p !! id = Some miner →
  let payment pid :=
    mkPayment pid id (payout_address miner) (unpaid_balance miner) (now env)
              false "pending" in
  if payout_due env (config_ p) miner
  then (miners_ (ProcessPayouts env p).1 !! id
        = Some (set_balances 0 (paid_balance miner) (now env) miner) ∧
        ∃ pid, payments_to id (ProcessPayouts env p).2 = [payment pid]) ∧
       (miners_ (AltServer.ProcessPayouts env p).1 !! id
        = Some (set_balances 0 (wrap64 (paid_balance miner + unpaid_balance miner))
                             (now env) miner) ∧
        ∃ pid, payments_to id (AltServer.ProcessPayouts env p).2 = [payment pid])
  else (miners_ (ProcessPayouts env p).1 !! id = Some miner ∧
        payments_to id (ProcessPayouts env p).2 = []) ∧
       (miners_ (AltServer.ProcessPayouts env p).1 !! id = Some miner ∧
        payments_to id (AltServer.ProcessPayouts env p).2 = []).
Proof.
  intros Hm payment.
  pose proof (sweep_per_miner paid_balance env p id miner Hm) as H1.
  pose proof (sweep_per_miner (λ m, wrap64 (paid_balance m + unpaid_balance m))
                env p id miner Hm) as H2.
  cbv zeta in H1, H2. destruct (payout_due env (config_ p) miner); by split.
Qed.

Lemma payout_sweep_per_miner_witness :
  miners_ demo_payout_pool !! 1
  = Some (mkMiner 1 "alice" "addr1" ∅ 0 0 0 0 5000 0 0 0 0 false 0 0 0) ∧
  payout_due (demo_env 10000 1) (config_ demo_payout_pool)
    (mkMiner 1 "alice" "addr1" ∅ 0 0 0 0 5000 0 0 0 0 false 0 0 0) = true ∧
  miners_ (ProcessPayouts (demo_env 10000 1) demo_payout_pool).1 !! 1
  = Some (mkMiner 1 "alice" "addr1" ∅ 0 0 0 0 0 0 0 (10000 * ticks_per_second) 0 false
            0 0 0) ∧
  miners_ (AltServer.ProcessPayouts (demo_env 10000 1) demo_payout_pool).1 !! 1
  = Some (mkMiner 1 "alice" "addr1" ∅ 0 0 0 0 0 5000 0 (10000 * ticks_per_second) 0 false
            0 0 0).
Proof.
  split; [by vm_compute|]. split; [by vm_compute|].
  pose proof (payout_sweep_per_miner (demo_env 10000 1) demo_payout_pool 1
                (mkMiner 1 "alice" "addr1" ∅ 0 0 0 0 5000 0 0 0 0 false 0 0 0)) as H.
  assert (payout_due (demo_env 10000 1) (config_ demo_payout_pool)
            (mkMiner 1 "alice" "addr1" ∅ 0 0 0 0 5000 0 0 0 0 false 0 0 0) = true) as Hdue
    by (by vm_compute).
  cbv zeta in H. rewrite Hdue in H.
  destruct H as [[H1 _] [H2 _]]; [by vm_compute|]. split.
  - rewrite H1. by vm_compute.
  - rewrite H2. by vm_compute.
Defined.

Lemma sweep_noop new_paid env q :
  (∀ id m, miners_ q !! id = Some m → payout_due env (config_ q) m = false) →
  foldl (sweep_step_with new_paid env) (q, []) (map_entries (miners_ q)) = (q, []).
Proof.
  intros Hq.
  apply (foldl_invariant (λ acc, acc = (q, []))); [done|].
  intros acc [id m] Hin%elem_of_map_entries ->.
  rewrite sweep_step_with_due. cbn [fst]. by rewrite (Hq id m Hin).
Qed.

Lemma sweep_twice new_paid env p :
  0 < min_payout (config_ p) ∨ 0 < to_int64 (payout_interval (config_ p)) →
  let res := foldl (sweep_step_with new_paid env) (p, []) (map_entries (miners_ p)) in
  foldl (sweep_step_with new_paid env) (res.1, []) (map_entries (miners_ res.1))
  = (res.1, []).
Proof.
  intros Hpos res.
  destruct (sweep_fold new_paid env (config_ p) (map_entries (miners_ p)) (p, []))
    as [Hcfg Hall]; [apply NoDup_fst_map_entries|done|]. fold res in Hcfg, Hall.
  apply sweep_noop. intros id m' Hm'. rewrite Hcfg.
  destruct (Hall id) as [Hout Hin].
  destruct (miners_ p !! id) as [m|] eqn:Hm.
  - specialize (Hin m). rewrite elem_of_map_entries in Hin. specialize (Hin Hm).
    destruct (payout_due env (config_ p) m) eqn:Hdue.
    + destruct Hin as [Hres _]. rewrite Hres in Hm'. injection Hm' as <-.
      unfold payout_due. cbn. rewrite Z.sub_diag.
      change (duration_cast_seconds 0) with 0.
      destruct (Z.leb_spec (min_payout (config_ p)) 0);
        destruct (Z.leb_spec (to_int64 (payout_interval (config_ p))) 0); cbn; try done.
      lia.
    + destruct Hin as [Hres _]. cbn [fst] in Hres. rewrite Hres, Hm in Hm'.
      by injection Hm' as <-.
  - destruct Hout as [Hres _].
    { intros (e & -> & He)%list_elem_of_fmap. destruct e as [i x].
      apply elem_of_map_entries in He. cbn in Hm. by rewrite Hm in He. }
    cbn [fst] in Hres. by rewrite Hres, Hm in Hm'.
Qed.

(** X14. If min_payout > 0 or payout_interval > 0, a second ProcessPayouts
    at the same clock reading changes nothing and creates no payment, in
    pool.cpp and in mining_pool_server.cpp. *)
Theorem payout_sweep_idempotent env p :
  0 < min_payout (config_ p) ∨ 0 < to_int64 (payout_interval (config_ p)) →
  ProcessPayouts env (ProcessPayouts env p).1 = ((ProcessPayouts env p).1, []) ∧
  AltServer.ProcessPayouts env (AltServer.ProcessPayouts env p).1
  = ((AltServer.ProcessPayouts env p).1, []).
Proof.
  intros Hpos. split.
  - apply (sweep_twice paid_balance env p Hpos).
  - apply (sweep_twice (λ m, wrap64 (paid_balance m + unpaid_balance m)) env p Hpos).
Qed.

Lemma payout_sweep_idempotent_witness :
  (ProcessPayouts (demo_env 10000 1) demo_payout_pool).2 = [demo_payment] ∧
  (ProcessPayouts (demo_env 10000 1)
     (ProcessPayouts (demo_env 10000 1) demo_payout_pool).1).2 = [].
Proof.
  split; [by vm_compute|].
  destruct (payout_sweep_idempotent (demo_env 10000 1) demo_payout_pool) as [H _];
    [left; by vm_compute|].
  by rewrite H.
Defined.

(** *** The index of user names *)

Lemma ProcessPayouts_usernames env p :
  username_to_miner_id_ (ProcessPayouts env p).1 = username_to_miner_id_ p ∧
  next_miner_id_ (ProcessPayouts env p).1 = next_miner_id_ p.
Proof.
  unfold ProcessPayouts.
  apply (foldl_invariant (λ acc,
    username_to_miner_id_ acc.1 = username_to_miner_id_ p ∧
    next_miner_id_ acc.1 = next_miner_id_ p)); [done|].
  intros [q news] [id miner] _ Hacc. cbn [fst] in *. unfold payout_step.
  destruct (_ <? _); [done|]. by destruct (_ <? _).
Qed.

Lemma SubmitShare_usernames env w j n h p p' r :
  SubmitShare env w j n h p = Some (p', r) →
  username_to_miner_id_ p' = username_to_miner_id_ p ∧
  next_miner_id_ p' = next_miner_id_ p.
Proof.
  intros Hsub.
  apply SubmitShare_cases in Hsub
    as [(_ & -> & _)|(worker & m0 & p0 & share & q0 & Hw & Hm & Hp0 & Hshare & Hq0 & Hsub)];
    [done|].
  assert (username_to_miner_id_ q0 = username_to_miner_id_ p ∧
          next_miner_id_ q0 = next_miner_id_ p) as [Hq0u Hq0n]
    by (by rewrite Hq0, Hp0).
  destruct Hsub as [(_ & -> & _)|(_ & [(e & _ & _ & ->)|(_ & q1 & Hpv & Hsub)])].
  - by rewrite Hp0.
  - match goal with |- context [CheckInvalidShares env m0 ?q] =>
      destruct (CheckInvalidShares_cases env m0 q) as [-> | ->] end; cbn;
      by rewrite Hq0u, Hq0n.
  - apply ProcessValidShare_cases in Hpv as (ws & _ & Hq1).
    assert (username_to_miner_id_ q1 = username_to_miner_id_ p ∧
            next_miner_id_ q1 = next_miner_id_ p) as [H1u H1n]
      by (rewrite Hq1; cbn; by rewrite Hq0u, Hq0n).
    assert (∀ s, username_to_miner_id_ (ProcessBlockFound env s q1).1
                 = username_to_miner_id_ p ∧
                 next_miner_id_ (ProcessBlockFound env s q1).1 = next_miner_id_ p) as H2.
    { intros s. destruct (ProcessBlockFound_cases env s q1)
        as [[-> _]|(work & q2 & _ & _ & -> & [->| ->])]; [done|..]; cbn;
        by rewrite H1u, H1n. }
    destruct Hsub as [(_ & _ & ->)|[(_ & -> & _)|(_ & _ & _ & ->)]];
      unfold store_share;
      cbn [username_to_miner_id_ next_miner_id_ set_recent_shares]; done.
Qed.

Lemma exec_usernames_kept p env call p' :
  (∀ u a, call ≠ CallRegisterMiner u a) →
  exec p (env, call) = Some p' →
  username_to_miner_id_ p' = username_to_miner_id_ p ∧
  next_miner_id_ p' = next_miner_id_ p.
Proof.
  intros Hcall Hexec.
  destruct call as [u a|id a|id|wid|wid j n h|clean| |id d|id|cfg]; cbn in Hexec.
  - by destruct (Hcall u a).
  - injection Hexec as <-. unfold UpdatePayoutAddress. by destruct (miners_ p !! id).
  - injection Hexec as <-. unfold AddWorker. destruct (miners_ p !! id); [|done].
    by destruct (_ <=? _).
  - injection Hexec as <-. unfold RemoveWorker. by destruct (workers_ p !! wid).
  - destruct (SubmitShare env wid j n h p) as [[q r]|] eqn:Hsub; [|done].
    injection Hexec as <-. by eapply SubmitShare_usernames.
  - injection Hexec as <-. unfold CreateWork. by destruct (block_template_result env).
  - injection Hexec as <-. apply ProcessPayouts_usernames.
  - by injection Hexec as <-.
  - by injection Hexec as <-.
  - by injection Hexec as <-.
Qed.

Lemma exec_miners_dom p c p' m :
  exec p c = Some p' → is_Some (miners_ p !! m) → is_Some (miners_ p' !! m).
Proof.
  intros Hexec Hm. destruct c as [env call].
  destruct call as [u a|id a|id|wid|wid j n h|clean| |id d|id|cfg]; cbn in Hexec.
  - injection Hexec as <-. unfold RegisterMiner. case_decide; [done|].
    destruct (_ <=? _); [done|]. cbn. by apply lookup_insert_is_Some'; right.
  - injection Hexec as <-. unfold UpdatePayoutAddress.
    destruct (miners_ p !! id); [|done]. cbn. by apply alter_is_Some.
  - injection Hexec as <-. unfold AddWorker. destruct (miners_ p !! id); [|done].
    destruct (_ <=? _); [done|]. cbn. by apply alter_is_Some.
  - injection Hexec as <-. unfold RemoveWorker. destruct (workers_ p !! wid); [|done].
    cbn. by apply alter_is_Some.
  - destruct (SubmitShare env wid j n h p) as [[q r]|] eqn:Hsub; [|done].
    injection Hexec as <-. by eapply SubmitShare_miners_dom.
  - injection Hexec as <-. unfold CreateWork. by destruct (block_template_result env).
  - injection Hexec as <-. by apply ProcessPayouts_miners_dom.
  - injection Hexec as <-. cbn. by apply alter_is_Some.
  - injection Hexec as <-. cbn. by apply alter_is_Some.
  - by injection Hexec as <-.
Qed.

(** What a call other than a registration leaves of a miner: the record
    under an identifier comes from the record that was there, with the
    same identifier and name. *)
Lemma exec_miners_view p env call p' id m' :
  (∀ u a, call ≠ CallRegisterMiner u a) →
  exec p (env, call) = Some p' →
  miners_ p' !! id = Some m' →
  ∃ m, miners_ p !! id = Some m ∧ miner_id m' = miner_id m ∧ username m' = username m.
Proof.
  intros Hcall Hexec. revert id m'.
  refine (exec_miners_kept
            (λ id m', ∃ m, miners_ p !! id = Some m ∧
                           miner_id m' = miner_id m ∧ username m' = username m)
            _ _ _ _ _ _ _ _ p env call p' Hcall _ Hexec).
  - intros id a x (m & ? & ? & ?). by exists m.
  - intros id wid d t x (m & ? & ? & ?). by exists m.
  - intros id wid x (m & ? & ? & ?). by exists m.
  - intros id x (m & ? & ? & ?). by exists m.
  - intros id t x (m & ? & ? & ?). by exists m.
  - intros id x (m & ? & ? & ?). by exists m.
  - intros id b t x (m & ? & ? & ?). by exists m.
  - intros id t x (m & ? & ? & ?). by exists m.
  - intros id m Hm. by exists m.
Qed.

Lemma exec_usernames_ok p c p' :
  usernames_ok p → next_miner_id_ p + 1 < 2 ^ 64 → exec p c = Some p' →
  usernames_ok p' ∧ next_miner_id_ p' <= next_miner_id_ p + 1.
Proof.
  intros (Hnext & Hminers & Hindex) Hbound Hexec. destruct c as [env call].
  assert ((∃ u a, call = CallRegisterMiner u a) ∨ ∀ u a, call ≠ CallRegisterMiner u a)
    as [(u & a & ->)|Hcall] by (destruct call; (left; by eauto) || by right).
  - cbn in Hexec. injection Hexec as <-. unfold RegisterMiner.
    case_decide as Hu; [cbn [fst]; split; [done|lia]|].
    destruct (_ <=? _); [cbn [fst]; split; [done|lia]|]. cbn.
    assert (username_to_miner_id_ p !! u = None) as Hnone
      by (by destruct (username_to_miner_id_ p !! u); [destruct Hu|]).
    rewrite wrap64_small by lia. split; [|lia]. unfold usernames_ok. cbn.
    split; [lia|]. split.
    + intros id m. destruct (decide (next_miner_id_ p = id)) as [<-|Hne].
      * rewrite lookup_insert_eq. intros [= <-]. cbn. rewrite lookup_insert_eq.
        split; [done|]. split; [lia|done].
      * rewrite lookup_insert_ne by done. intros Hm.
        destruct (Hminers id m Hm) as (? & ? & Hname). split; [done|]. split; [lia|].
        rewrite lookup_insert_ne; [done|]. intros ->. by rewrite Hnone in Hname.
    + intros name id. destruct (decide (u = name)) as [<-|Hne].
      * rewrite lookup_insert_eq. intros [= <-]. rewrite lookup_insert_eq. by eexists.
      * rewrite lookup_insert_ne by done. intros Hname.
        destruct (Hindex name id Hname) as (m & Hm & ?). exists m. split; [|done].
        rewrite lookup_insert_ne; [done|]. intros <-.
        destruct (Hminers _ m Hm) as (_ & ? & _). lia.
  - destruct (exec_usernames_kept p env call p' Hcall Hexec) as [Hu Hn].
    rewrite Hn. split; [|lia]. split; [lia|]. rewrite Hu, Hn. split.
    + intros id m' Hm'.
      destruct (exec_miners_view p env call p' id m' Hcall Hexec Hm')
        as (m & Hm & -> & ->). by apply Hminers.
    + intros name id Hname. destruct (Hindex name id Hname) as (m & Hm & <-).
      destruct (exec_miners_dom p (env, call) p' id Hexec) as [m' Hm']; [by eexists|].
      exists m'. split; [done|].
      destruct (exec_miners_view p env call p' id m' Hcall Hexec Hm')
        as (m0 & Hm0 & _ & ->). congruence.
Qed.

Lemma run_usernames_ok calls : ∀ p q,
  usernames_ok p → next_miner_id_ p + Z.of_nat (length calls) < 2 ^ 64 →
  run p calls = Some q → usernames_ok q.
Proof.
  induction calls as [|c calls IH]; intros p q Hp Hbound; cbn.
  - by intros [= <-].
  - destruct (exec p c) as [p'|] eqn:Hexec; [|done]. cbn.
    cbn [length] in Hbound.
    destruct (exec_usernames_ok p c p' Hp) as [Hp' Hle]; [lia|done|].
    apply IH; [done|lia].
Qed.

(** X15. After fewer than 2^64 - 1 calls of the ten operations (see X5),
    username_to_miner_id_ and miners_ agree: every miner is stored under its
    own miner_id and its username maps to that id; every username in the
    index maps to an existing miner with that username; two different miners
    never have the same username; and a successful RegisterMiner returns an
    id that was not in use. *)
Theorem usernames_identify_miners config start calls p :
  run (initial_pool config start) calls = Some p →
  Z.of_nat (length calls) < 2 ^ 64 - 1 →
  (∀ id m, GetMiner id p = Some m →
     miner_id m = id ∧ username_to_miner_id_ p !! username m = Some id) ∧
  (∀ name id, username_to_miner_id_ p !! name = Some id →
     ∃ m, GetMiner id p = Some m ∧ username m = name) ∧
  (∀ id1 id2 m1 m2, GetMiner id1 p = Some m1 → GetMiner id2 p = Some m2 →
     username m1 = username m2 → id1 = id2) ∧
  (∀ env name address p' id,
     RegisterMiner env name address p = (p', Ok id) → GetMiner id p = None).
Proof.
  intros Hrun Hlen.
  assert (usernames_ok p) as (Hnext & Hminers & Hindex).
  { apply (run_usernames_ok calls (initial_pool config start) p); [|cbn; lia|done].
    split; [cbn; lia|]. split; [by intros id m ?|by intros name id ?]. }
  unfold GetMiner. split; [|split; [|split]].
  - intros id m Hm. by destruct (Hminers id m Hm) as (? & _ & ?).
  - done.
  - intros id1 id2 m1 m2 Hm1 Hm2 Heq.
    destruct (Hminers id1 m1 Hm1) as (_ & _ & H1).
    destruct (Hminers id2 m2 Hm2) as (_ & _ & H2). congruence.
  - intros env name address p' id. unfold RegisterMiner. case_decide; [done|].
    destruct (_ <=? _); [done|]. intros [= _ <-].
    destruct (miners_ p !! next_miner_id_ p) as [m|] eqn:Hm; [|done].
    destruct (Hminers _ m Hm) as (_ & ? & _). lia.
Qed.

Lemma usernames_identify_miners_witness :
  run (initial_pool demo_config 0) demo_setup = Some demo_pool_ready ∧
  username_to_miner_id_ demo_pool_ready !! "alice" = Some 1 ∧
  ∃ m, GetMiner 1 demo_pool_ready = Some m ∧ username m = "alice".
Proof.
  split; [by vm_compute|]. split; [by vm_compute|].
  destruct (usernames_identify_miners demo_config 0 demo_setup demo_pool_ready)
    as (_ & H & _); [by vm_compute|cbn; lia|].
  apply (H "alice" 1). by vm_compute.
Defined.

(** *** The share difficulty as a function of the hash *)

Lemma CalculateShareDifficulty_zero : CalculateShareDifficulty 0 = UINT64_MAX.
Proof. by vm_compute. Qed.

Lemma CalculateShareDifficulty_log2 h :
  0 < h < 2 ^ 256 →
  CalculateShareDifficulty h
  = if 224 <=? Z.log2 h then 1
    else if Z.log2 h <? 176 then UINT64_MAX
    else 2 ^ (239 - Z.log2 h).
Proof.
  intros Hh. destruct (leading_zero_bits_spec h Hh) as [Hlz Hbound].
  unfold CalculateShareDifficulty. set (lz := leading_zero_bits h) in *.
  assert (Z.log2 h = 255 - lz) as ->.
  { apply Z.log2_unique; [lia|]. by replace (Z.succ (255 - lz)) with (256 - lz) by lia. }
  cbv zeta.
  destruct (Z.ltb_spec lz 32), (Z.leb_spec 224 (255 - lz)); try lia.
  destruct (Z.ltb_spec 0 (lz - 32)), (Z.leb_spec 48 (lz - 32)),
    (Z.ltb_spec (255 - lz) 176); cbn [andb]; try lia; try done.
  - rewrite Z.shiftl_mul_pow2 by lia. change 65536 with (2 ^ 16).
    rewrite <- Z.pow_add_r by lia. replace (16 + (lz - 32)) with (239 - (255 - lz)) by lia.
    assert (2 ^ 16 <= 2 ^ (239 - (255 - lz)) <= 2 ^ 63)
      by (split; apply Z.pow_le_mono_r; lia).
    rewrite wrap64_small by lia. lia.
  - replace (239 - (255 - lz)) with 16 by lia. done.
Qed.

(** X16. For a 256-bit hash h, CalculateShareDifficulty returns 2^64 - 1
    when h < 2^176, 1 when h >= 2^224, and 2^(239 - floor(log2 h)) in
    between; it never increases when the hash grows. *)
Theorem share_difficulty_by_hash_size h1 h2 :
  uint256_wf h1 → uint256_wf h2 →
  CalculateShareDifficulty h1
  = (if h1 <? 2 ^ 176 then UINT64_MAX
     else if 2 ^ 224 <=? h1 then 1
     else 2 ^ (239 - Z.log2 h1)) ∧
  (h1 <= h2 → CalculateShareDifficulty h2 <= CalculateShareDifficulty h1).
Proof.
  assert (∀ h, uint256_wf h →
    CalculateShareDifficulty h
    = if h <? 2 ^ 176 then UINT64_MAX
      else if 2 ^ 224 <=? h then 1
      else 2 ^ (239 - Z.log2 h)) as Hform.
  { intros h [Hlo Hhi]. destruct (decide (h = 0)) as [->|Hne]; [by vm_compute|].
    rewrite CalculateShareDifficulty_log2 by lia.
    destruct (Z.ltb_spec h (2 ^ 176)) as [Hs|Hs].
    - apply Z.log2_lt_pow2 in Hs; [|lia].
      destruct (Z.leb_spec 224 (Z.log2 h)); [lia|].
      by destruct (Z.ltb_spec (Z.log2 h) 176); [|lia].
    - apply Z.log2_le_pow2 in Hs; [|lia].
      destruct (Z.leb_spec (2 ^ 224) h) as [Hb|Hb].
      + apply Z.log2_le_pow2 in Hb; [|lia]. by destruct (Z.leb_spec 224 (Z.log2 h)); [|lia].
      + apply Z.log2_lt_pow2 in Hb; [|lia].
        destruct (Z.leb_spec 224 (Z.log2 h)); [lia|].
        by destruct (Z.ltb_spec (Z.log2 h) 176); [lia|]. }
  intros Hwf1 Hwf2. split; [by apply Hform|]. intros Hle.
  rewrite (Hform h1 Hwf1), (Hform h2 Hwf2). destruct Hwf1, Hwf2.
  destruct (Z.ltb_spec h1 (2 ^ 176)), (Z.ltb_spec h2 (2 ^ 176)); try lia.
  - destruct (Z.leb_spec (2 ^ 224) h2); [by vm_compute|].
    assert (176 <= Z.log2 h2) by (apply Z.log2_le_pow2; lia).
    assert (2 ^ (239 - Z.log2 h2) <= 2 ^ 63) by (apply Z.pow_le_mono_r; lia).
    unfold UINT64_MAX. lia.
  - destruct (Z.leb_spec (2 ^ 224) h1), (Z.leb_spec (2 ^ 224) h2); try lia.
    + assert (Z.log2 h1 < 224) by (apply Z.log2_lt_pow2; lia).
      assert (2 ^ 0 <= 2 ^ (239 - Z.log2 h1)) by (apply Z.pow_le_mono_r; lia). lia.
    + assert (Z.log2 h1 <= Z.log2 h2) by (by apply Z.log2_le_mono).
      assert (Z.log2 h2 < 224) by (apply Z.log2_lt_pow2; lia).
      apply Z.pow_le_mono_r; lia.
Qed.

Lemma share_difficulty_by_hash_size_witness :
  CalculateShareDifficulty (2 ^ 200) = 2 ^ 39 ∧
  CalculateShareDifficulty (2 ^ 201 - 1) <= CalculateShareDifficulty (2 ^ 200).
Proof.
  destruct (share_difficulty_by_hash_size (2 ^ 200) (2 ^ 201 - 1)) as [H1 H2];
    [unfold uint256_wf; lia..|].
  split; [rewrite H1; by vm_compute|apply H2; lia].
Defined.

(** X17. For a difficulty d with 1 < d <= 2^63, ValidateDifficulty(h, d) and
    IsValidBlock(h, d) hold exactly when h < 2^(240 - max(16, ceil(log2
    d))): every difficulty up to 65536 demands the same 32 leading zero
    bits, and above that only the next power of two counts. *)
Theorem difficulty_check_threshold h d :
  uint256_wf h → 1 < d <= 2 ^ 63 →
  (ValidateDifficulty h d = true ↔ h < 2 ^ (240 - Z.max 16 (Z.log2_up d))) ∧
  (IsValidBlock h d = true ↔ h < 2 ^ (240 - Z.max 16 (Z.log2_up d))).
Proof.
  intros [Hlo Hhi] Hd.
  assert ((d <=? CalculateShareDifficulty h) = true
          ↔ h < 2 ^ (240 - Z.max 16 (Z.log2_up d))) as Hiff.
  { rewrite Z.leb_le.
    assert (1 <= Z.log2_up d <= 63) as Hk.
    { pose proof (Z.log2_up_pos d). split; [lia|]. apply Z.log2_up_le_pow2; lia. }
    destruct (Z.log2_up_spec d ltac:(lia)) as [Hk1 Hk2].
    set (k := Z.log2_up d) in *.
    destruct (decide (h = 0)) as [->|Hne].
    { rewrite CalculateShareDifficulty_zero. unfold UINT64_MAX.
      split; [intros _; apply Z.pow_pos_nonneg; lia|lia]. }
    rewrite CalculateShareDifficulty_log2 by lia.
    assert (∀ e, 0 <= e → (h < 2 ^ e ↔ Z.log2 h < e)) as Hlog.
    { intros e He. split; [intros; apply Z.log2_lt_pow2; lia|].
      intros Hl. apply Z.log2_lt_pow2; lia. }
    rewrite Hlog by lia.
    destruct (Z.leb_spec 224 (Z.log2 h)); [lia|].
    destruct (Z.ltb_spec (Z.log2 h) 176).
    { unfold UINT64_MAX. split; [lia|]. intros _.
      assert (2 ^ 63 < 2 ^ 64 - 1) by lia. lia. }
    split.
    - intros Hle.
      assert (2 ^ Z.pred k < 2 ^ (239 - Z.log2 h)) as Hlt by lia.
      apply Z.pow_lt_mono_r_iff in Hlt; lia.
    - intros Hlt. etrans; [apply Hk2|]. apply Z.pow_le_mono_r; lia. }
  unfold ValidateDifficulty, IsValidBlock. by cbv zeta.
Qed.

Lemma difficulty_check_threshold_witness :
  ValidateDifficulty (2 ^ 224 - 1) 1000 = true ∧ ValidateDifficulty (2 ^ 224) 1000 = false.
Proof.
  destruct (difficulty_check_threshold (2 ^ 224 - 1) 1000) as [[_ H] _];
    [unfold uint256_wf; lia|lia|].
  split; [apply H; by vm_compute|by vm_compute].
Defined.

(** *** Shares that come in through the Stratum server *)




(** *** What the answer to a submission depends on *)






(** *** Authorization through the server of pool.cpp *)

(** X20. MiningPoolServer::HandleAuthorize of pool.cpp, when it succeeds for
    a wallet address that is not registered yet (and whose new id is not in
    use), records the address under the new miner id and creates a worker
    for that id but no Miner record; every SubmitShare for that worker is
    answered with Miner not found. *)
Theorem HandleAuthorize_creates_no_miner env name password p p' :
  HandleAuthorize env name password p = (p', Ok true) →
  username_to_miner_id_ p !! (split_username name).1 = None →
  GetMiner (next_miner_id_ p) p = None →
  username_to_miner_id_ p' !! (split_username name).1 = Some (next_miner_id_ p) ∧
  GetMiner (next_miner_id_ p) p' = None ∧
  GetWorker (next_worker_id_ p) p'
  = Some (mkWorker (next_worker_id_ p) (next_miner_id_ p) 0 0 0 0 0
            (initial_difficulty (config_ p)) 0 [] (now env) true) ∧
  ∀ env' j n h, ∃ q,
    SubmitShare env' (next_worker_id_ p) j n h p' = Some (q, Error "Miner not found").
Proof.
  unfold HandleAuthorize, GetMiner, GetWorker. cbv zeta.
  destruct (_ || _); [done|]. intros Hauth Hname Hminer. rewrite Hname in Hauth.
  injection Hauth as <-. cbn. rewrite !lookup_insert_eq. split_and!; try done.
  intros env' j n h. unfold SubmitShare. cbn. rewrite !lookup_insert_eq. cbn.
  rewrite Hminer. by eexists.
Qed.

Lemma HandleAuthorize_creates_no_miner_witness :
  ∃ p' q,
    HandleAuthorize (demo_env 0 1) "int1qqqqqqqqqqqqqqqqqqqq.rig1" ""
      (initial_pool demo_config 0) = (p', Ok true) ∧
    SubmitShare (demo_env 1 1) 1 7 42 0 p' = Some (q, Error "Miner not found").
Proof.
  eexists.
  destruct (HandleAuthorize_creates_no_miner (demo_env 0 1)
              "int1qqqqqqqqqqqqqqqqqqqq.rig1" "" (initial_pool demo_config 0) _ eq_refl)
    as (_ & _ & _ & H); [by vm_compute|by vm_compute|].
  destruct (H (demo_env 1 1) 7 42 0) as [q Hq]. exists q. split; [reflexivity|exact Hq].
Defined.

(** *** The payout calculation of mining_pool_server.cpp *)

Lemma credit_payout_snd reward total (l : list (Z * Z)) acc :
  (foldl (AltPayouts.credit_payout reward total) acc l).2
  = foldl (assign_payout reward total) acc.2 l.
Proof. revert acc. induction l as [|e l IH]; intros acc; [done|]. cbn. by rewrite IH. Qed.

Lemma credit_payout_miners reward total (l : list (Z * Z)) acc id :
  NoDup l.*1 →
  (id ∉ l.*1 →
   miners_ (foldl (AltPayouts.credit_payout reward total) acc l).1 !! id
   = miners_ acc.1 !! id) ∧
  (∀ c, (id, c) ∈ l →
   miners_ (foldl (AltPayouts.credit_payout reward total) acc l).1 !! id
   = AltPayouts.credit (wrap64 (reward * c) / total) <$> miners_ acc.1 !! id).
Proof.
  revert acc. induction l as [|[k c0] l IH]; intros acc Hnd.
  - split; [done|]. by intros c ?%elem_of_nil.
  - cbn [foldl]. cbn [fmap list_fmap fst] in Hnd.
    apply NoDup_cons in Hnd as [Hk Hnd].
    destruct (IH (AltPayouts.credit_payout reward total acc (k, c0)) Hnd) as [Hout Hin].
    split.
    + intros [Hne Hid]%not_elem_of_cons. rewrite Hout by done. cbn.
      by rewrite lookup_alter_ne.
    + intros c [[= -> ->]|Hmem]%elem_of_cons.
      * rewrite Hout by done. cbn. by rewrite lookup_alter_eq.
      * rewrite (Hin c Hmem). cbn. rewrite lookup_alter_ne; [done|].
        intros ->. apply Hk. apply list_elem_of_fmap. by exists (id, c).
Qed.

(** X21. CalculatePPLNSPayouts of mining_pool_server.cpp returns the same
    payouts as PayoutCalculator::CalculatePPLNS on the stored shares with
    the configured window and fee (what CalculatePPLNSPayouts of pool.cpp
    returns), and it adds to the unpaid balance of each existing miner
    exactly its payout, modulo 2^64; miners without a payout are left
    unchanged. *)
Theorem alt_pplns_credits_balances block_reward p t p' t' payouts :
  AltPayouts.CalculatePPLNSPayouts block_reward (p, t) = Some (p', t', payouts) →
  CalculatePPLNSPayouts block_reward p = Some payouts ∧
  ∀ id, miners_ p' !! id
        = match payouts !! id with
          | Some amount => AltPayouts.credit amount <$> miners_ p !! id
          | None => miners_ p !! id
          end.
Proof.
  unfold AltPayouts.CalculatePPLNSPayouts, CalculatePPLNSPayouts, CalculatePPLNS.
  destruct (CalculateFee _ _) as [fee|]; [|done]. cbn [mbind option_bind]. cbv zeta.
  destruct (Z.eqb_spec (Z.of_nat (length (recent_shares_ p))) 0) as [Hz|Hnz].
  { intros [= <- _ <-]. destruct (recent_shares_ p); [|cbn [length] in Hz; lia].
    rewrite drop_nil. cbn. split; [done|]. intros id. by rewrite lookup_empty. }
  destruct (foldl count_share _ _) as [ms total].
  destruct (total =? 0); [by intros [= <- _ <-]|].
  destruct (foldl (AltPayouts.credit_payout _ _) _ _) as [q pays] eqn:Hfold.
  intros [= <- _ <-].
  pose proof (credit_payout_snd (wrap64 (block_reward - fee)) total (map_entries ms)
                (p, ∅)) as Hsnd.
  rewrite Hfold in Hsnd. cbn [snd] in Hsnd. split; [by rewrite Hsnd|].
  intros id.
  destruct (credit_payout_miners (wrap64 (block_reward - fee)) total (map_entries ms)
              (p, ∅) id (NoDup_fst_map_entries ms)) as [Hout Hin].
  rewrite Hfold in Hout, Hin. cbn [fst] in Hout, Hin.
  rewrite Hsnd, assign_payouts_fmap, lookup_fmap.
  destruct (ms !! id) as [c|] eqn:Hc; cbn.
  - apply Hin. by apply elem_of_map_entries.
  - apply Hout. intros ([k c] & -> & Hmem)%list_elem_of_fmap.
    apply elem_of_map_entries in Hmem. cbn in Hc. congruence.
Qed.

Lemma alt_pplns_credits_balances_witness :
  ∃ p' t',
    AltPayouts.CalculatePPLNSPayouts 100000000
      (demo_pool_one_share, AltPayouts.mkTotals 0 0)
    = Some (p', t', {[1 := 99000000]}) ∧
    (unpaid_balance <$> miners_ demo_pool_one_share !! 1) = Some 0 ∧
    (unpaid_balance <$> miners_ p' !! 1) = Some 99000000.
Proof.
  do 2 eexists. split; [by vm_compute|]. split; [by vm_compute|].
  match goal with |- context [miners_ ?q !! 1] =>
    destruct (alt_pplns_credits_balances 100000000 demo_pool_one_share
                (AltPayouts.mkTotals 0 0) q (AltPayouts.mkTotals 99000000 1000000)
                {[1 := 99000000]}) as [_ H]; [by vm_compute|] end.
  rewrite (H 1). by vm_compute.
Defined.

(** *** Hex conversions *)

Lemma hex_chars_checked : all_from 16 0 hex_char_ok = true.
Proof. by vm_compute. Qed.

Lemma hex_values_checked : all_from 256 0 hex_value_ok = true.
Proof. by vm_compute. Qed.

Lemma bytes_round_trip_checked : all_from 256 0 byte_round_trip_ok = true.
Proof. by vm_compute. Qed.

Lemma hex_char_spec d :
  0 <= d < 16 →
  StratumHex.hex_value (StratumHex.hex_char d) = Some d ∧
  StratumHex.is_space (StratumHex.hex_char d) = false ∧
  (StratumHex.code (StratumHex.hex_char d) =? 45) = false ∧
  (StratumHex.code (StratumHex.hex_char d) =? 43) = false ∧
  (StratumHex.code (StratumHex.hex_char d) =? 120) = false ∧
  (StratumHex.code (StratumHex.hex_char d) =? 88) = false.
Proof.
  intros Hd.
  pose proof (all_from_spec 16 hex_char_ok 0 d hex_chars_checked ltac:(lia)) as Hok.
  unfold hex_char_ok in Hok. cbv zeta in Hok.
  repeat (apply andb_prop in Hok as [Hok ?]).
  apply bool_decide_eq_true in Hok.
  split_and!; try done; by apply negb_true_iff.
Qed.

Lemma code_range c : 0 <= StratumHex.code c < 256.
Proof.
  unfold StratumHex.code. pose proof (Ascii.N_ascii_bounded c). lia.
Qed.

Lemma hex_value_spec c v :
  StratumHex.hex_value c = Some v →
  StratumHex.is_space c = false ∧
  (StratumHex.code c =? 45) = false ∧ (StratumHex.code c =? 43) = false ∧
  0 <= v < 16.
Proof.
  intros Hv.
  pose proof (all_from_spec 256 hex_value_ok 0 (StratumHex.code c) hex_values_checked
                ltac:(pose proof (code_range c); lia)) as Hok.
  assert (Ascii.ascii_of_N (Z.to_N (StratumHex.code c)) = c) as Hc
    by (unfold StratumHex.code; by rewrite N2Z.id, Ascii.ascii_N_embedding).
  unfold hex_value_ok in Hok. cbv zeta in Hok. rewrite Hc, Hv in Hok.
  apply andb_prop in Hok as [[[[H1 H2]%andb_prop H3]%andb_prop H4%Z.leb_le]%andb_prop
                               H5%Z.ltb_lt].
  split_and!; try (by apply negb_true_iff); lia.
Qed.

(** A string that starts with a digit, and not with a prefix that is
    taken off, is read as its leading digits. *)
Lemma stoul16_digits c s v :
  StratumHex.hex_value c = Some v →
  match s with
  | String x rest =>
      (StratumHex.code c =? 48)
      && ((StratumHex.code x =? 120) || (StratumHex.code x =? 88))
      && StratumHex.starts_with_hex rest = false
  | EmptyString => True
  end →
  StratumHex.stoul16 (String c s)
  = if StratumHex.ULONG_MAX <? StratumHex.hex_digits (String c s) 0 then None
    else Some (StratumHex.hex_digits (String c s) 0).
Proof.
  intros Hv Hprefix. destruct (hex_value_spec c v Hv) as (Hsp & Hminus & Hplus & _).
  unfold StratumHex.stoul16. cbn [StratumHex.skip_space]. rewrite Hsp, Hminus, Hplus.
  assert (StratumHex.starts_with_hex (String c s) = true) as Hstart
    by (cbn; rewrite Hv; by apply bool_decide_eq_true_2).
  destruct s as [|x rest]; [by rewrite Hstart|]. by rewrite Hprefix, Hstart.
Qed.

Lemma parse_byte_hex2 b :
  0 <= b < 256 → StratumHex.parse_byte (StratumHex.hex2 b) = Some b.
Proof.
  intros Hb.
  pose proof (all_from_spec 256 byte_round_trip_ok 0 b bytes_round_trip_checked
                ltac:(lia)) as Hok.
  by apply bool_decide_eq_true in Hok.
Qed.

Lemma pairs_hex2 (l : list Z) :
  StratumHex.pairs (StratumHex.concat_strings (StratumHex.hex2 <$> l))
  = StratumHex.hex2 <$> l.
Proof.
  induction l as [|b l IH]; [done|].
  change (StratumHex.pairs (String (StratumHex.hex_char (b / 16))
            (String (StratumHex.hex_char (b mod 16))
               (StratumHex.concat_strings (StratumHex.hex2 <$> l))))
          = StratumHex.hex2 b :: (StratumHex.hex2 <$> l)).
  cbn [StratumHex.pairs]. by rewrite IH.
Qed.

Lemma length_hex2 (l : list Z) :
  Z.of_nat (String.length (StratumHex.concat_strings (StratumHex.hex2 <$> l)))
  = 2 * Z.of_nat (length l).
Proof.
  induction l as [|b l IH]; [done|].
  change (Z.of_nat (S (S (String.length
            (StratumHex.concat_strings (StratumHex.hex2 <$> l)))))
          = 2 * Z.of_nat (S (length l))).
  lia.
Qed.

Lemma mapM_parse_hex2 (l : list Z) :
  Forall (λ b, 0 <= b < 256) l →
  mapM StratumHex.parse_byte (StratumHex.hex2 <$> l) = Some l.
Proof.
  induction 1 as [|b l Hb Hl IH]; [done|].
  cbn [fmap list_fmap mapM]. rewrite parse_byte_hex2 by done. cbn. by rewrite IH.
Qed.

Lemma data_byte h i : 0 <= data h i < 256.
Proof.
  unfold data. change 255 with (Z.ones 8). rewrite Z.land_ones by lia.
  apply Z.mod_pos_bound. lia.
Qed.

Lemma data_div_256 h i : 0 <= i → data h i = (h / 256 ^ i) mod 256.
Proof.
  intros Hi. unfold data. change 255 with (Z.ones 8). rewrite Z.land_ones by lia.
  rewrite Z.shiftr_div_pow2 by lia. rewrite Z.pow_mul_r by lia. done.
Qed.

Lemma uint256_of_bytes_data (l : list Z) (i : nat) b :
  Forall (λ b, 0 <= b < 256) l → l !! i = Some b →
  data (StratumHex.uint256_of_bytes l) (Z.of_nat i) = b.
Proof.
  intros Hl. revert i b. induction Hl as [|b0 l Hb0 Hl IH]; intros i b; [done|].
  cbn [StratumHex.uint256_of_bytes foldr].
  fold (StratumHex.uint256_of_bytes l). destruct i as [|i]; cbn [lookup list_lookup].
  - intros [= <-]. rewrite data_div_256 by lia. change (256 ^ Z.of_nat 0) with 1.
    rewrite Z.div_1_r. generalize (StratumHex.uint256_of_bytes l). intros u. unfold uint256 in u. Z.div_mod_to_equations. lia.
  - intros Hi. rewrite <- (IH i b Hi), !data_div_256 by lia.
    replace (Z.of_nat (S i)) with (1 + Z.of_nat i) by lia.
    rewrite Z.pow_add_r by lia. change (256 ^ 1) with 256.
    rewrite <- Z.div_div by (try apply Z.pow_pos_nonneg; lia).
    f_equal. f_equal. generalize (StratumHex.uint256_of_bytes l). intros u. unfold uint256 in u. Z.div_mod_to_equations. lia.
Qed.

Lemma uint256_of_bytes_seq h (n : nat) k :
  0 <= h → 0 <= k →
  StratumHex.uint256_of_bytes (data h <$> seqZ k (Z.of_nat n))
  = (h / 256 ^ k) mod 256 ^ Z.of_nat n.
Proof.
  intros Hh. revert k. induction n as [|n IH]; intros k Hk.
  - cbn. by rewrite Z.mod_1_r.
  - rewrite seqZ_cons by lia. cbn [fmap list_fmap StratumHex.uint256_of_bytes foldr].
    fold (StratumHex.uint256_of_bytes (data h <$> seqZ (Z.succ k) (Z.pred (Z.of_nat (S n))))).
    replace (Z.pred (Z.of_nat (S n))) with (Z.of_nat n) by lia.
    rewrite IH by lia. rewrite data_div_256 by lia.
    replace (Z.succ k) with (k + 1) by lia. rewrite Z.pow_add_r by lia.
    change (256 ^ 1) with 256.
    rewrite <- Z.div_div by (try apply Z.pow_pos_nonneg; lia).
    replace (Z.of_nat (S n)) with (1 + Z.of_nat n) by lia.
    rewrite (Z.pow_add_r 256 1) by lia. change (256 ^ 1) with 256.
    rewrite (Z.rem_mul_r _ 256) by (try apply Z.pow_pos_nonneg; lia). done.
Qed.

(** X22. HexToBytes(ToHex(bytes)) returns bytes, for every vector of bytes. *)
Theorem hex_bytes_round_trip (bytes : list Z) :
  Forall (λ b, 0 <= b < 256) bytes →
  StratumHex.HexToBytes (StratumHex.ToHex_bytes bytes) = Ok bytes.
Proof.
  intros Hbytes. unfold StratumHex.HexToBytes, StratumHex.ToHex_bytes.
  rewrite length_hex2, Z.mul_comm, Z_mod_mult. cbn [negb Z.eqb].
  by rewrite pairs_hex2, mapM_parse_hex2.
Qed.

Lemma hex_bytes_round_trip_witness :
  StratumHex.ToHex_bytes [0; 10; 255] = "000aff" ∧
  StratumHex.HexToBytes "000aff" = Ok [0; 10; 255].
Proof.
  split; [by vm_compute|].
  change "000aff" with (StratumHex.ToHex_bytes [0; 10; 255]).
  apply hex_bytes_round_trip. repeat constructor; lia.
Defined.

(** X23. HexToUint256(ToHex(h)) returns h for every 256-bit value h; with
    little_endian = true the value read back has the bytes of h in reverse
    order. *)
Theorem hex_uint256_round_trip h :
  uint256_wf h →
  StratumHex.HexToUint256 (StratumHex.ToHex h false) = Ok h ∧
  ∃ r, StratumHex.HexToUint256 (StratumHex.ToHex h true) = Ok r ∧
       ∀ i, 0 <= i < 32 → data r i = data h (31 - i).
Proof.
  intros [Hlo Hhi].
  assert (∀ idx : list Z, length idx = 32%nat →
    StratumHex.HexToUint256
      (StratumHex.concat_strings ((λ i, StratumHex.hex2 (data h i)) <$> idx))
    = Ok (StratumHex.uint256_of_bytes (data h <$> idx))) as Hparse.
  { intros idx Hlen. unfold StratumHex.HexToUint256.
    change ((λ i, StratumHex.hex2 (data h i)) <$> idx)
      with ((StratumHex.hex2 ∘ data h) <$> idx).
    rewrite (list_fmap_compose (data h) StratumHex.hex2 idx).
    rewrite length_hex2, length_fmap, Hlen. cbn [negb Z.eqb Z.of_nat Z.mul].
    change (Z.of_nat 32) with 32. cbn [Z.mul Pos.mul Z.eqb Pos.eqb negb].
    rewrite pairs_hex2, mapM_parse_hex2; [done|].
    apply Forall_fmap, Forall_forall. intros i _. apply data_byte. }
  split.
  - unfold StratumHex.ToHex. rewrite Hparse by done.
    pose proof (uint256_of_bytes_seq h 32 0 Hlo ltac:(lia)) as Hs.
    change (Z.of_nat 32) with 32 in Hs. rewrite Hs.
    change (256 ^ 0) with 1. rewrite Z.div_1_r.
    change (256 ^ 32) with (2 ^ 256). by rewrite Z.mod_small.
  - eexists. unfold StratumHex.ToHex. split; [by apply Hparse|].
    intros i Hi. replace i with (Z.of_nat (Z.to_nat i)) at 1 by lia.
    apply uint256_of_bytes_data.
    + apply Forall_fmap, Forall_forall. intros k _. apply data_byte.
    + rewrite list_lookup_fmap, reverse_lookup by (rewrite length_seqZ; lia).
      rewrite length_seqZ, lookup_seqZ_lt by lia. cbn. f_equal. f_equal. lia.
Qed.

Lemma hex_uint256_round_trip_witness :
  StratumHex.ToHex 258 false
  = "0201000000000000000000000000000000000000000000000000000000000000" ∧
  StratumHex.HexToUint256
    "0201000000000000000000000000000000000000000000000000000000000000" = Ok 258.
Proof.
  split; [by vm_compute|].
  change "0201000000000000000000000000000000000000000000000000000000000000"
    with (StratumHex.ToHex 258 false).
  apply (hex_uint256_round_trip 258). unfold uint256_wf. lia.
Defined.

(** X24. ToHex of a 32-bit value has 8 characters, and HexToUint32 reads it
    back as the same value. *)
Theorem hex_uint32_round_trip v :
  0 <= v < 2 ^ 32 →
  String.length (StratumHex.ToHex_uint32 v) = 8%nat ∧
  StratumHex.HexToUint32 (StratumHex.ToHex_uint32 v) = Ok v.
Proof.
  intros Hv. split; [done|].
  unfold StratumHex.HexToUint32, StratumHex.ToHex_uint32.
  change (reverse (seqZ 0 8)) with [7; 6; 5; 4; 3; 2; 1; 0]. cbn [foldr].
  cbn [String.length Z.of_nat Z.eqb Pos.of_succ_nat Pos.succ Pos.eqb negb].
  assert (∀ i, 0 <= (v / 16 ^ i) mod 16 < 16) as Hd
    by (intros i; apply Z.mod_pos_bound; lia).
  erewrite stoul16_digits; [|apply hex_char_spec, Hd|].
  2:{ destruct (hex_char_spec ((v / 16 ^ 6) mod 16) (Hd 6)) as (_ & _ & _ & _ & -> & ->).
      by rewrite andb_false_r. }
  cbn [StratumHex.hex_digits].
  repeat match goal with |- context [StratumHex.hex_value (StratumHex.hex_char ?d)] =>
    rewrite (proj1 (hex_char_spec d ltac:(apply Z.mod_pos_bound; lia))) end.
  change (16 ^ 7) with 268435456. change (16 ^ 6) with 16777216.
  change (16 ^ 5) with 1048576. change (16 ^ 4) with 65536. change (16 ^ 3) with 4096.
  change (16 ^ 2) with 256. change (16 ^ 1) with 16. change (16 ^ 0) with 1.
  assert ((((((((0 * 16 + (v / 268435456) mod 16) * 16 + (v / 16777216) mod 16) * 16
                 + (v / 1048576) mod 16) * 16 + (v / 65536) mod 16) * 16
               + (v / 4096) mod 16) * 16 + (v / 256) mod 16) * 16
             + (v / 16) mod 16) * 16 + (v / 1) mod 16 = v) as ->
    by (change (2 ^ 32) with 4294967296 in Hv; Z.div_mod_to_equations; lia).
  unfold StratumHex.ULONG_MAX.
  destruct (Z.ltb_spec (2 ^ 64 - 1) v); [lia|]. by rewrite Z.mod_small.
Qed.

Lemma hex_uint32_round_trip_witness :
  StratumHex.ToHex_uint32 439041101 = "1a2b3c4d" ∧
  StratumHex.HexToUint32 "1a2b3c4d" = Ok 439041101.
Proof.
  split; [by vm_compute|].
  change "1a2b3c4d" with (StratumHex.ToHex_uint32 439041101).
  apply (hex_uint32_round_trip 439041101). lia.
Defined.

Lemma HexToBytes_Ok hex bytes :
  StratumHex.HexToBytes hex = Ok bytes ↔
  Z.of_nat (String.length hex) mod 2 = 0 ∧
  mapM StratumHex.parse_byte (StratumHex.pairs hex) = Some bytes.
Proof.
  unfold StratumHex.HexToBytes.
  destruct (Z.eqb_spec (Z.of_nat (String.length hex) mod 2) 0) as [Heven|Hodd]; cbn [negb].
  - destruct (mapM _ _) as [l|]; split; try done.
    + intros [= ->]. done.
    + intros [_ [= ->]]. done.
    + by intros [_ ?].
  - split; [done|]. by intros [? _].
Qed.

Lemma string_length_app s1 s2 :
  String.length (s1 +:+ s2) = (String.length s1 + String.length s2)%nat.
Proof.
  induction s1 as [|a s1 IH]; [done|].
  change (String a s1 +:+ s2) with (String a (s1 +:+ s2)).
  cbn [String.length]. by rewrite IH.
Qed.

Lemma mapM_app_Some {A B} (f : A → option B) l1 l2 k1 k2 :
  mapM f l1 = Some k1 → mapM f l2 = Some k2 → mapM f (l1 ++ l2) = Some (k1 ++ k2).
Proof. rewrite !mapM_Some. apply Forall2_app. Qed.

Lemma pairs_app s1 s2 :
  Z.of_nat (String.length s1) mod 2 = 0 →
  StratumHex.pairs (s1 +:+ s2) = StratumHex.pairs s1 ++ StratumHex.pairs s2.
Proof.
  remember (String.length s1) as n eqn:Hn. revert s1 Hn.
  induction (lt_wf n) as [n _ IH]. intros s1 Hn Heven.
  destruct s1 as [|a [|b s1]].
  - done.
  - subst n. by cbn in Heven.
  - change (StratumHex.pairs (String a (String b (s1 +:+ s2)))
            = (String a (String b EmptyString) :: StratumHex.pairs s1)
              ++ StratumHex.pairs s2).
    cbn [StratumHex.pairs app]. f_equal.
    apply (IH (String.length s1)); [subst n; cbn; lia|done|].
    subst n. cbn [String.length] in Heven.
    replace (Z.of_nat (S (S (String.length s1)))) with (Z.of_nat (String.length s1) + 1 * 2)
      in Heven by lia.
    by rewrite Z_mod_plus_full in Heven.
Qed.

(** X25. HexToBytes decodes the concatenation of two strings it accepts to
    the concatenation of their bytes, and it accepts pairs that are not two
    hex digits: a digit followed by any character that is no digit counts as
    that digit alone; white space or a plus sign followed by a digit counts
    as the digit; a minus sign followed by a digit v counts as (256 - v) mod
    256. The reason is std::stoul, which skips white space, takes a sign and
    ignores what follows the digits. *)
Theorem hex_decoder_leniency s1 s2 bytes1 bytes2 c x v :
  StratumHex.HexToBytes s1 = Ok bytes1 →
  StratumHex.HexToBytes s2 = Ok bytes2 →
  StratumHex.hex_value c = Some v →
  StratumHex.HexToBytes (s1 +:+ s2) = Ok (bytes1 ++ bytes2) ∧
  (StratumHex.hex_value x = None →
   StratumHex.HexToBytes (s1 +:+ String c (String x EmptyString) +:+ s2)
   = Ok (bytes1 ++ [v] ++ bytes2)) ∧
  (StratumHex.is_space x = true ∨ StratumHex.code x = 43 →
   StratumHex.HexToBytes (s1 +:+ String x (String c EmptyString) +:+ s2)
   = Ok (bytes1 ++ [v] ++ bytes2)) ∧
  (StratumHex.code x = 45 →
   StratumHex.HexToBytes (s1 +:+ String x (String c EmptyString) +:+ s2)
   = Ok (bytes1 ++ [(256 - v) mod 256] ++ bytes2)).
Proof.
  intros [He1 Hm1]%HexToBytes_Ok [He2 Hm2]%HexToBytes_Ok Hc.
  destruct (hex_value_spec c v Hc) as (Hsp & Hminus & Hplus & Hv).
  assert (∀ pair b, StratumHex.parse_byte pair = Some b → String.length pair = 2%nat →
    (∃ a1 a2, pair = String a1 (String a2 EmptyString)) →
    StratumHex.HexToBytes (s1 +:+ pair +:+ s2) = Ok (bytes1 ++ [b] ++ bytes2)) as Hmid.
  { intros pair b Hb Hlen (a1 & a2 & ->). apply HexToBytes_Ok. split.
    - rewrite !string_length_app. cbn [String.length]. rewrite !Nat2Z.inj_add.
      rewrite Z.add_mod, He1, (Z.add_mod (Z.of_nat 2)), He2 by lia. done.
    - rewrite pairs_app by done.
      change (String a1 (String a2 EmptyString) +:+ s2) with (String a1 (String a2 s2)).
      cbn [StratumHex.pairs]. apply mapM_app_Some; [done|].
      cbn [mapM]. rewrite Hb, Hm2. done. }
  split_and!.
  - apply HexToBytes_Ok. split.
    + rewrite string_length_app, Nat2Z.inj_add, Z.add_mod, He1, He2 by lia. done.
    + rewrite pairs_app by done. by apply mapM_app_Some.
  - intros Hx. apply Hmid; [|done|by eauto].
    unfold StratumHex.parse_byte. rewrite (stoul16_digits c _ v Hc).
    + cbn [StratumHex.hex_digits]. rewrite Hc, Hx. replace (0 * 16 + v) with v by lia.
      unfold StratumHex.ULONG_MAX. destruct (Z.ltb_spec (2 ^ 64 - 1) v); [lia|].
      cbn [mbind option_bind]. by rewrite Z.mod_small by lia.
    + cbn. by rewrite andb_false_r.
  - intros Hx. apply Hmid; [|done|by eauto].
    unfold StratumHex.parse_byte, StratumHex.stoul16. cbn [StratumHex.skip_space].
    destruct Hx as [Hx|Hx].
    + rewrite Hx. cbn [StratumHex.skip_space]. rewrite Hsp, Hminus, Hplus.
      cbn [StratumHex.starts_with_hex StratumHex.hex_digits]. rewrite Hc.
      rewrite bool_decide_eq_true_2 by done. replace (0 * 16 + v) with v by lia.
      unfold StratumHex.ULONG_MAX. destruct (Z.ltb_spec (2 ^ 64 - 1) v); [lia|].
      cbn [mbind option_bind]. by rewrite Z.mod_small by lia.
    + assert (StratumHex.is_space x = false) as ->
        by (unfold StratumHex.is_space; rewrite Hx; done).
      rewrite Hx. cbn [Z.eqb Pos.eqb].
      cbn [StratumHex.starts_with_hex StratumHex.hex_digits]. rewrite Hc.
      rewrite bool_decide_eq_true_2 by done. replace (0 * 16 + v) with v by lia.
      unfold StratumHex.ULONG_MAX. destruct (Z.ltb_spec (2 ^ 64 - 1) v); [lia|].
      cbn [mbind option_bind]. by rewrite Z.mod_small by lia.
  - intros Hx. apply Hmid; [|done|by eauto].
    unfold StratumHex.parse_byte, StratumHex.stoul16. cbn [StratumHex.skip_space].
    assert (StratumHex.is_space x = false) as ->
      by (unfold StratumHex.is_space; rewrite Hx; done).
    rewrite Hx. cbn [Z.eqb Pos.eqb].
    cbn [StratumHex.starts_with_hex StratumHex.hex_digits]. rewrite Hc.
    rewrite bool_decide_eq_true_2 by done. replace (0 * 16 + v) with v by lia.
    unfold StratumHex.ULONG_MAX. destruct (Z.ltb_spec (2 ^ 64 - 1) v); [lia|].
    cbn [mbind option_bind]. f_equal. unfold wrap64.
    change (2 ^ 64) with (256 * 72057594037927936).
    Z.div_mod_to_equations. lia.
Qed.

Lemma hex_decoder_leniency_witness :
  StratumHex.HexToBytes "ff1g00" = Ok [255; 1; 0] ∧
  StratumHex.HexToBytes "ff-100" = Ok [255; 255; 0].
Proof.
  destruct (hex_decoder_leniency "ff" "00" [255] [0] (Ascii.ascii_of_nat 49) (Ascii.ascii_of_nat 103) 1) as (_ & H1 & _);
    [by vm_compute..|].
  destruct (hex_decoder_leniency "ff" "00" [255] [0] (Ascii.ascii_of_nat 49) (Ascii.ascii_of_nat 45) 1) as (_ & _ & _ & H2);
    [by vm_compute..|].
  split; [apply H1; by vm_compute|apply H2; by vm_compute].
Defined.

(** *** The share table of the pool database *)

Lemma RecordShare_shares (l : list Share) :
  Forall (λ s, share_id s ≠ 0) l →
  PoolDatabase.shares_ (foldl (λ db s, PoolDatabase.RecordShare s db) PoolDatabase.new_db l)
  = last_shares 10000 l.
Proof.
  induction l as [|x l IH] using rev_ind; intros Hl; [done|].
  apply Forall_app in Hl as [Hl Hx]. rewrite Forall_singleton in Hx.
  rewrite foldl_snoc. unfold PoolDatabase.RecordShare at 1.
  destruct (Z.eqb_spec (share_id x) 0) as [Heq|_]; [by destruct Hx|].
  cbn [PoolDatabase.shares_]. rewrite (IH Hl). unfold last_shares.
  rewrite !length_app, length_drop. cbn [length].
  destruct (Z.ltb_spec 10000
              (Z.of_nat (length l - Z.to_nat (Z.of_nat (length l) - 10000) + 1))).
  - rewrite <- drop_app_le by lia. rewrite drop_drop. f_equal. lia.
  - rewrite <- drop_app_le by lia. f_equal. lia.
Qed.

(** X26. After a sequence of shares with nonzero ids has been recorded in a
    new PoolDatabase, GetRecentShares(limit) returns the last min(limit,
    10000) recorded shares in their order for a limit >= 0, and for a
    negative limit everything that is stored, that is the last 10000
    recorded shares. *)
Theorem database_keeps_recent_shares (l : list Share) limit :
  Forall (λ s, share_id s ≠ 0) l →
  - 2 ^ 31 <= limit < 2 ^ 31 →
  PoolDatabase.GetRecentShares limit
    (foldl (λ db s, PoolDatabase.RecordShare s db) PoolDatabase.new_db l)
  = last_shares (if limit <? 0 then 10000 else Z.min limit 10000) l.
Proof.
  intros Hl Hlimit. unfold PoolDatabase.GetRecentShares.
  rewrite (RecordShare_shares l Hl). unfold last_shares. rewrite length_drop.
  set (n := length l).
  assert (Z.of_nat (n - Z.to_nat (Z.of_nat n - 10000)) = Z.min (Z.of_nat n) 10000) as ->
    by lia.
  rewrite drop_drop. unfold wrap64.
  destruct (Z.ltb_spec limit 0) as [Hneg|Hpos].
  - replace (limit mod 2 ^ 64) with (2 ^ 64 + limit)
      by (apply Z.mod_unique_pos with (-1); lia).
    destruct (Z.ltb_spec (2 ^ 64 + limit) (Z.min (Z.of_nat n) 10000)); [lia|].
    f_equal. lia.
  - rewrite (Z.mod_small limit) by lia.
    destruct (Z.ltb_spec limit (Z.min (Z.of_nat n) 10000)).
    + rewrite Z.mod_small by lia. f_equal. lia.
    + f_equal. lia.
Qed.

Lemma database_keeps_recent_shares_witness :
  PoolDatabase.GetRecentShares (-1)
    (foldl (λ db s, PoolDatabase.RecordShare s db) PoolDatabase.new_db
       (recent_shares_ demo_pool_one_share))
  = recent_shares_ demo_pool_one_share.
Proof.
  rewrite (database_keeps_recent_shares (recent_shares_ demo_pool_one_share) (-1));
    [by vm_compute| |lia].
  assert (recent_shares_ demo_pool_one_share
          = [mkShare 1 1 1 7 42 (2 ^ 200) 1000 None (10 * ticks_per_second) true ""]) as ->
    by (by vm_compute).
  by repeat constructor.
Defined.

(** *** Query parameters *)

Lemma string_app_nil_r s : s +:+ EmptyString = s.
Proof.
  induction s as [|a s IH]; [done|].
  change (String a s +:+ EmptyString) with (String a (s +:+ EmptyString)). by rewrite IH.
Qed.

Lemma string_app_assoc s1 s2 s3 : (s1 +:+ s2) +:+ s3 = s1 +:+ (s2 +:+ s3).
Proof.
  induction s1 as [|a s1 IH]; [done|].
  change (String a ((s1 +:+ s2) +:+ s3) = String a (s1 +:+ (s2 +:+ s3))). by rewrite IH.
Qed.

Lemma find_String c0 c s :
  HttpApi.find c0 (String c s) = None →
  (StratumHex.code c =? c0) = false ∧ HttpApi.find c0 s = None.
Proof.
  cbn [HttpApi.find]. destruct (_ =? c0); [done|].
  by destruct (HttpApi.find c0 s).
Qed.

Lemma getlines_amp a rest cur c :
  StratumHex.code c = 38 → HttpApi.find 38 a = None →
  HttpApi.getlines (a +:+ String c rest) cur
  = (cur +:+ a) :: HttpApi.getlines rest EmptyString.
Proof.
  intros Hc. revert cur. induction a as [|x a IH]; intros cur Ha.
  - change (EmptyString +:+ String c rest) with (String c rest).
    cbn [HttpApi.getlines]. rewrite Hc. cbn [Z.eqb Pos.eqb]. by rewrite string_app_nil_r.
  - apply find_String in Ha as [Hx Ha].
    change (String x a +:+ String c rest) with (String x (a +:+ String c rest)).
    cbn [HttpApi.getlines]. rewrite Hx, (IH _ Ha), string_app_assoc. done.
Qed.

Lemma getlines_last a cur :
  HttpApi.find 38 a = None →
  HttpApi.getlines a cur
  = if bool_decide (cur +:+ a = EmptyString) then [] else [cur +:+ a].
Proof.
  revert cur. induction a as [|x a IH]; intros cur Ha.
  - cbn [HttpApi.getlines]. by rewrite string_app_nil_r.
  - apply find_String in Ha as [Hx Ha]. cbn [HttpApi.getlines].
    rewrite Hx, (IH _ Ha), string_app_assoc. done.
Qed.

Lemma find_eq_sign key value c :
  StratumHex.code c = 61 → HttpApi.find 61 key = None →
  HttpApi.find 61 (key +:+ String c value) = Some (String.length key).
Proof.
  intros Hc. induction key as [|x key IH]; intros Hkey.
  - change (EmptyString +:+ String c value) with (String c value).
    cbn [HttpApi.find]. by rewrite Hc.
  - apply find_String in Hkey as [Hx Hkey].
    change (String x key +:+ String c value) with (String x (key +:+ String c value)).
    cbn [HttpApi.find]. rewrite Hx, (IH Hkey). done.
Qed.

Lemma substring_prefix key rest :
  String.substring 0 (String.length key) (key +:+ rest) = key.
Proof.
  induction key as [|x key IH]; [by destruct rest|].
  change (String x key +:+ rest) with (String x (key +:+ rest)).
  cbn [String.length String.substring]. by rewrite IH.
Qed.

Lemma substring_all s : String.substring 0 (String.length s) s = s.
Proof. induction s as [|x s IH]; [done|]. cbn. by rewrite IH. Qed.

Lemma substring_suffix key c value :
  String.substring (S (String.length key))
    (String.length (key +:+ String c value) - S (String.length key))
    (key +:+ String c value)
  = value.
Proof.
  induction key as [|x key IH].
  - change (EmptyString +:+ String c value) with (String c value).
    cbn [String.length String.substring].
    replace (S (String.length value) - 1)%nat with (String.length value) by lia.
    apply substring_all.
  - change (String x key +:+ String c value) with (String x (key +:+ String c value)).
    cbn [String.length]. cbn [String.substring].
    replace (S (String.length (key +:+ String c value)) - S (S (String.length key)))%nat
      with (String.length (key +:+ String c value) - S (String.length key))%nat by lia.
    apply IH.
Qed.

Lemma first_match_pair param key value c rest :
  StratumHex.code c = 61 → HttpApi.find 61 key = None →
  HttpApi.first_match param ((key +:+ String c value) :: rest)
  = if bool_decide (key = param) then Some value else HttpApi.first_match param rest.
Proof.
  intros Hc Hkey. cbn [HttpApi.first_match]. rewrite (find_eq_sign key value c Hc Hkey).
  cbv zeta. by rewrite substring_prefix, substring_suffix.
Qed.

(** X27. For a key without & and = and a value without &, GetQueryParam
    finds key=value when it is the whole query string and when it is its
    first pair (a later pair with the same key is ignored); a leading piece
    without = is skipped and so is a leading pair with another key; for the
    empty query string the default is returned. *)
Theorem query_string_lookup key value other rest d :
  HttpApi.find 38 key = None → HttpApi.find 61 key = None →
  HttpApi.find 38 value = None →
  HttpApi.find 38 other = None → HttpApi.find 61 other = None →
  HttpApi.GetQueryParam (key +:+ "=" +:+ value) key d = value ∧
  HttpApi.GetQueryParam (key +:+ "=" +:+ value +:+ "&" +:+ rest) key d = value ∧
  HttpApi.GetQueryParam (other +:+ "&" +:+ rest) key d = HttpApi.GetQueryParam rest key d ∧
  (other ≠ key →
   HttpApi.GetQueryParam (other +:+ "=" +:+ value +:+ "&" +:+ rest) key d
   = HttpApi.GetQueryParam rest key d) ∧
  HttpApi.GetQueryParam "" key d = d.
Proof.
  intros Hkey_amp Hkey_eq Hvalue Hother_amp Hother_eq.
  assert (∀ k v, HttpApi.find 38 k = None → HttpApi.find 38 v = None →
                 HttpApi.find 38 (k +:+ "=" +:+ v) = None) as Hpiece.
  { intros k v Hk Hv. induction k as [|x k IH].
    - change (HttpApi.find 38 (String (Ascii.ascii_of_nat 61) v) = None).
      cbn [HttpApi.find]. change (StratumHex.code (Ascii.ascii_of_nat 61) =? 38) with false.
      by rewrite Hv.
    - apply find_String in Hk as [Hx Hk].
      change (HttpApi.find 38 (String x (k +:+ "=" +:+ v)) = None).
      cbn [HttpApi.find]. by rewrite Hx, (IH Hk). }
  unfold HttpApi.GetQueryParam. split_and!.
  - rewrite getlines_last by (by apply Hpiece).
    change (EmptyString +:+ key +:+ "=" +:+ value) with (key +:+ "=" +:+ value).
    rewrite bool_decide_eq_false_2 by (by destruct key).
    change (key +:+ "=" +:+ value) with (key +:+ String (Ascii.ascii_of_nat 61) value).
    rewrite first_match_pair by done. by rewrite bool_decide_eq_true_2.
  - rewrite <- string_app_assoc, <- string_app_assoc.
    change ("&" +:+ rest) with (String (Ascii.ascii_of_nat 38) rest).
    rewrite getlines_amp; [|done|rewrite string_app_assoc; by apply Hpiece].
    change (EmptyString +:+ (key +:+ "=") +:+ value) with ((key +:+ "=") +:+ value).
    rewrite string_app_assoc.
    change (key +:+ "=" +:+ value) with (key +:+ String (Ascii.ascii_of_nat 61) value).
    rewrite first_match_pair by done. by rewrite bool_decide_eq_true_2.
  - change ("&" +:+ rest) with (String (Ascii.ascii_of_nat 38) rest).
    rewrite getlines_amp by done. cbn [HttpApi.first_match].
    change (EmptyString +:+ other) with other. by rewrite Hother_eq.
  - intros Hne. rewrite <- string_app_assoc, <- string_app_assoc.
    change ("&" +:+ rest) with (String (Ascii.ascii_of_nat 38) rest).
    rewrite getlines_amp; [|done|rewrite string_app_assoc; by apply Hpiece].
    change (EmptyString +:+ (other +:+ "=") +:+ value) with ((other +:+ "=") +:+ value).
    rewrite string_app_assoc.
    change (other +:+ "=" +:+ value) with (other +:+ String (Ascii.ascii_of_nat 61) value).
    rewrite first_match_pair by done. by rewrite bool_decide_eq_false_2.
  - done.
Qed.

Lemma query_string_lookup_witness :
  HttpApi.GetQueryParam "page=2&limit=50&limit=7" "limit" "" = "50".
Proof.
  destruct (query_string_lookup "limit" "50" "page" "limit=7" "") as (_ & H2 & _ & H4 & _);
    [by vm_compute..|].
  change "page=2&limit=50&limit=7" with ("page" +:+ "=" +:+ "2" +:+ "&" +:+ "limit=50&limit=7").
  destruct (query_string_lookup "limit" "2" "page" "limit=50&limit=7" "") as (_ & _ & _ & H & _);
    [by vm_compute..|].
  rewrite H by done. exact H2.
Defined.

(** *** Limits that come from a query *)

Lemma stoi_range s r : HttpApi.stoi s = Some r → - 2 ^ 31 <= r <= 2 ^ 31 - 1.
Proof.
  unfold HttpApi.stoi.
  destruct (match StratumHex.skip_space s with
            | String c rest => _ | EmptyString => _ end) as [negative s'].
  destruct (HttpApi.starts_with_dec s'); [|done]. cbv zeta.
  unfold HttpApi.INT_MIN, HttpApi.INT_MAX.
  destruct (Z.ltb_spec (if negative then - HttpApi.dec_digits s' 0
                        else HttpApi.dec_digits s' 0) (- 2 ^ 31)); [done|].
  destruct (Z.ltb_spec (2 ^ 31 - 1) (if negative then - HttpApi.dec_digits s' 0
                                     else HttpApi.dec_digits s' 0)); [done|].
  cbn [orb]. intros [= <-]. lia.
Qed.

(** X28. When the limit read from the query string is negative (limit=-1 for
    example), the payments endpoint lists the whole payment history and the
    blocks endpoint all completed rounds: the int is converted to size_t
    before the pool compares it with the sizes. The histories are assumed
    shorter than 2^63. *)
Theorem negative_limit_shows_everything query p :
  HttpApi.GetQueryParam_int query "limit" 20 < 0 →
  Z.of_nat (length (payment_history_ p)) < 2 ^ 63 →
  Z.of_nat (length (round_history_ p)) < 2 ^ 63 →
  HttpApi.payments_shown (HttpApi.GetQueryParam_int query "limit" 20) p
  = reverse (payment_history_ p) ∧
  HttpApi.rounds_shown (HttpApi.GetQueryParam_int query "limit" 20) p
  = filter (λ r, is_complete r = true) (round_history_ p).
Proof.
  intros Hneg Hpay Hround.
  assert (- 2 ^ 31 <= HttpApi.GetQueryParam_int query "limit" 20) as Hlow.
  { unfold HttpApi.GetQueryParam_int in *. cbv zeta in *.
    destruct (bool_decide _); [lia|].
    destruct (HttpApi.stoi _) as [r|] eqn:Hr; [|cbn in *; lia].
    apply stoi_range in Hr. cbn. lia. }
  set (n := HttpApi.GetQueryParam_int query "limit" 20) in *.
  assert (wrap64 n = 2 ^ 64 + n) as Hwrap
    by (unfold wrap64; symmetry; apply Z.mod_unique_pos with (-1); lia).
  unfold HttpApi.payments_shown, HttpApi.rounds_shown, GetPaymentHistory, GetRoundHistory.
  rewrite Hwrap. cbv zeta. split.
  - rewrite Z.min_r by lia.
    destruct (payment_history_ p) as [|x h]; [done|].
    destruct (Z.ltb_spec 0 (Z.of_nat (length (x :: h)))); [|cbn [length] in *; lia].
    by rewrite Z.sub_diag.
  - by destruct (Z.leb_spec (Z.of_nat (length (round_history_ p))) (2 ^ 64 + n)); [|lia].
Qed.

Lemma negative_limit_shows_everything_witness :
  HttpApi.GetQueryParam_int "limit=-1" "limit" 20 = -1 ∧
  HttpApi.payments_shown (-1) (ProcessPayouts (demo_env 10000 1) demo_payout_pool).1
  = [demo_payment].
Proof.
  split; [by vm_compute|].
  destruct (negative_limit_shows_everything "limit=-1"
              (ProcessPayouts (demo_env 10000 1) demo_payout_pool).1) as [H _];
    [by vm_compute..|].
  change (-1) with (HttpApi.GetQueryParam_int "limit=-1" "limit" 20).
  rewrite H. by vm_compute.
Defined.

(** *** The workers listed inside a miner record *)

(** X29. The Worker records kept inside a Miner (Miner::workers) are never
    updated after AddWorker: in every state reached by the ten operations
    (see X5) each of them still has its id and miner id, zero submitted,
    accepted and rejected shares, zero blocks found, no share timestamps and
    is_active = true, whatever the worker in workers_ has done since. *)
Theorem miner_worker_copies_stay_fresh config start calls p id m wid w :
  run (initial_pool config start) calls = Some p →
  GetMiner id p = Some m →
  workers m !! wid = Some w →
  worker_id w = wid ∧ worker_miner_id w = id ∧
  shares_submitted w = 0 ∧ shares_accepted w = 0 ∧ shares_rejected w = 0 ∧
  blocks_found w = 0 ∧ recent_shares w = [] ∧ last_share_time w = 0 ∧
  is_active w = true.
Proof.
  intros Hrun Hm Hw.
  refine (run_miners_local
    (λ id m, map_Forall (λ wid w,
       worker_id w = wid ∧ worker_miner_id w = id ∧
       shares_submitted w = 0 ∧ shares_accepted w = 0 ∧ shares_rejected w = 0 ∧
       blocks_found w = 0 ∧ recent_shares w = [] ∧ last_share_time w = 0 ∧
       is_active w = true) (workers m))
    _ _ _ _ _ _ _ _ _ config start calls p Hrun id m Hm wid w Hw).
  - intros. apply map_Forall_empty.
  - by intros.
  - intros i k d t x Hx. cbn. by apply map_Forall_insert_2.
  - intros i k x Hx. cbn. by apply map_Forall_delete.
  - by intros.
  - by intros.
  - by intros.
  - by intros.
  - by intros.
Qed.

Lemma miner_worker_copies_stay_fresh_witness :
  run (initial_pool demo_config 0) demo_one_share = Some demo_pool_one_share ∧
  (shares_accepted <$> GetWorker 1 demo_pool_one_share) = Some 1 ∧
  ∃ m w, GetMiner 1 demo_pool_one_share = Some m ∧ workers m !! 1 = Some w ∧
         shares_accepted w = 0.
Proof.
  split; [by vm_compute|]. split; [by vm_compute|].
  destruct (GetMiner 1 demo_pool_one_share) as [m|] eqn:Hm; [|by vm_compute in Hm].
  destruct (workers m !! 1) as [w|] eqn:Hw.
  - exists m, w. split; [done|]. split; [done|].
    by destruct (miner_worker_copies_stay_fresh demo_config 0 demo_one_share
                   demo_pool_one_share 1 m 1 w ltac:(by vm_compute) Hm Hw)
      as (_ & _ & _ & H & _).
  - exfalso. revert Hw. vm_compute in Hm. injection Hm as <-. by vm_compute.
Defined.

(** *** Difficulty adjustment of all workers *)

Lemma set_current_difficulty_same w : set_current_difficulty (current_difficulty w) w = w.
Proof. by destruct w. Qed.

Lemma adjust_fold vd t (l : list (Z * Worker)) ws0 ws id :
  NoDup l.*1 →
  foldl (adjust_step vd t) (Some ws0) l = Some ws →
  (id ∉ l.*1 → ws !! id = ws0 !! id) ∧
  (∀ w, (id, w) ∈ l →
     if ShouldAdjust vd t w
     then ∃ d, CalculateDifficulty vd w = Some d ∧
               ws !! id = if d =? current_difficulty w then ws0 !! id
                          else Some (set_current_difficulty d w)
     else ws !! id = ws0 !! id).
Proof.
  revert ws0. induction l as [|[k x] l IH]; intros ws0 Hnd Hfold.
  - cbn in Hfold. injection Hfold as <-. split; [done|]. by intros w ?%elem_of_nil.
  - cbn [foldl] in Hfold. cbn [fmap list_fmap fst] in Hnd.
    apply NoDup_cons in Hnd as [Hk Hnd].
    assert (∃ ws1, adjust_step vd t (Some ws0) (k, x) = Some ws1) as [ws1 Hstep].
    { destruct (adjust_step vd t (Some ws0) (k, x)) as [ws1|]; [by eexists|].
      exfalso. clear -Hfold. induction l as [|e l IHl]; [done|]. by apply IHl. }
    rewrite Hstep in Hfold. destruct (IH ws1 Hnd Hfold) as [Hout Hin].
    unfold adjust_step in Hstep. cbn [mbind option_bind fst snd] in Hstep.
    split.
    + intros [Hne Hid]%not_elem_of_cons. rewrite (Hout Hid).
      destruct (ShouldAdjust vd t x); [|by injection Hstep as <-].
      destruct (CalculateDifficulty vd x) as [d|]; [|done]. cbn in Hstep.
      destruct (d =? _); injection Hstep as <-; [done|]. by rewrite lookup_insert_ne.
    + intros w [[= -> ->]|Hmem]%elem_of_cons.
      * rewrite (Hout Hk).
        destruct (ShouldAdjust vd t x); [|by injection Hstep as <-].
        destruct (CalculateDifficulty vd x) as [d|]; [|done]. cbn in Hstep.
        exists d. split; [done|].
        destruct (d =? _); injection Hstep as <-; [done|]. by rewrite lookup_insert_eq.
      * assert (id ≠ k) as Hne.
        { intros ->. apply Hk. apply list_elem_of_fmap. by exists (k, w). }
        specialize (Hin w Hmem).
        assert (ws1 !! id = ws0 !! id) as <-; [|done].
        destruct (ShouldAdjust vd t x); [|by injection Hstep as <-].
        destruct (CalculateDifficulty vd x) as [d|]; [|done]. cbn in Hstep.
        destruct (d =? _); injection Hstep as <-; [done|]. by rewrite lookup_insert_ne.
Qed.

(** X30. AdjustAllDifficulties, when its conversions are defined, treats
    each worker on its own: a worker for which ShouldAdjust holds gets the
    difficulty CalculateDifficulty computes for it, which is at least 1000
    and is the one AdjustWorkerDifficulty would set; every other worker is
    left unchanged. *)
Theorem AdjustAllDifficulties_per_worker env p p' id w :
  AdjustAllDifficulties env p = Some p' →
  workers_ p !! id = Some w →
  if ShouldAdjust (vardiff_ p) (now env) w
  then ∃ d q,
         CalculateDifficulty (vardiff_ p) w = Some d ∧ 1000 <= d ∧
         workers_ p' !! id = Some (set_current_difficulty d w) ∧
         AdjustWorkerDifficulty id p = Some q ∧
         workers_ q !! id = workers_ p' !! id
  else workers_ p' !! id = Some w.
Proof.
  unfold AdjustAllDifficulties.
  destruct (foldl _ _ _) as [ws|] eqn:Hfold; [|done]. intros [= <-] Hw.
  cbn [workers_ set_workers].
  destruct (adjust_fold _ _ _ _ _ id (NoDup_fst_map_entries (workers_ p)) Hfold)
    as [_ Hin].
  specialize (Hin w). rewrite elem_of_map_entries in Hin. specialize (Hin Hw).
  destruct (ShouldAdjust (vardiff_ p) (now env) w) eqn:Hdue; [|by rewrite Hin].
  destruct Hin as (d & Hd & Hws). exists d.
  assert (ws !! id = Some (set_current_difficulty d w)) as Hres.
  { rewrite Hws. destruct (Z.eqb_spec d (current_difficulty w)) as [->|]; [|done].
    by rewrite set_current_difficulty_same. }
  assert (1000 <= d) as Hfloor.
  { unfold ShouldAdjust in Hdue. apply andb_prop in Hdue as [_ Hlen%Z.leb_le].
    unfold CalculateDifficulty in Hd.
    destruct (Z.ltb_spec (Z.of_nat (length (recent_shares w))) 3); [lia|].
    cbv zeta in Hd. destruct (if PrimFloat.ltb _ _ then _ else _) as [x|]; [|done].
    cbn in Hd. injection Hd as <-. lia. }
  unfold AdjustWorkerDifficulty. rewrite Hw, Hd. cbn [mbind option_bind].
  destruct (Z.eqb_spec d (current_difficulty w)) as [Heq|Hne].
  - exists p. by split_and!.
  - eexists. split_and!; try done. cbn. by rewrite lookup_alter_eq, Hw, Hres.
Qed.

Lemma AdjustAllDifficulties_per_worker_witness :
  (AdjustAllDifficulties (demo_env 100 1)
     (set_workers {[1 := demo_worker 1000 [0; 1; 2]]} (initial_pool demo_config 0))
   ≫= λ p', current_difficulty <$> workers_ p' !! 1) = Some 1500.
Proof.
  destruct (AdjustAllDifficulties (demo_env 100 1)
              (set_workers {[1 := demo_worker 1000 [0; 1; 2]]}
                 (initial_pool demo_config 0))) as [p'|] eqn:Hp;
    [|by vm_compute in Hp].
  cbn [mbind option_bind].
  pose proof (AdjustAllDifficulties_per_worker (demo_env 100 1)
                (set_workers {[1 := demo_worker 1000 [0; 1; 2]]}
                   (initial_pool demo_config 0))
                p' 1 (demo_worker 1000 [0; 1; 2]) Hp (lookup_singleton_eq _ _)) as H.
  assert (ShouldAdjust (vardiff_ (set_workers {[1 := demo_worker 1000 [0; 1; 2]]}
                                    (initial_pool demo_config 0)))
            (now (demo_env 100 1)) (demo_worker 1000 [0; 1; 2]) = true) as Hdue
    by (vm_compute; reflexivity).
  rewrite Hdue in H. destruct H as (d & q & Hd & _ & -> & _).
  assert (CalculateDifficulty (vardiff_ (set_workers {[1 := demo_worker 1000 [0; 1; 2]]}
                                          (initial_pool demo_config 0)))
            (demo_worker 1000 [0; 1; 2]) = Some 1500) as Hd'
    by (vm_compute; reflexivity).
  rewrite Hd' in Hd. injection Hd as <-. reflexivity.
Defined.
